(** * everscale-inpage-provider: subscription engine, transaction merge and
      ABI token codec

    A shallow embedding of [src/index.ts] ([mergeTransactions],
    [foldSubscriptions], [ProviderRpcClient.subscribe]) and of the ABI part
    of [src/models.ts] ([serializeTokenValue], [parseTokensObject],
    [parseTokenValue]), with the properties the specification states about
    them. *)

From Stdlib Require Import ZArith String Ascii.
From stdpp Require Import base numbers option list strings gmap fin_maps sorting.

Set Warnings "-register-all".

Local Open Scope string_scope.

(** ** Transactions ([models.ts]) *)

Module Models.

(** [Address] lives in [utils.ts]; on the wire it is its string. *)
Definition Address : Type := string.

Inductive AccountStatus := uninit | frozen | active | nonexist.

Inductive TransactionsBatchType := old | new.

Record TransactionsBatchInfo := {
  minLt : string;
  maxLt : string;
  batchType : TransactionsBatchType
}.

Record TransactionId := { lt : string; hash : string }.

Record Message := {
  src : option Address;
  dst : option Address;
  value : string;
  bounce : bool;
  bounced : bool;
  body : option string;
  bodyHash : option string
}.

Record Transaction := {
  id : TransactionId;
  prevTransactionId : option TransactionId;
  createdAt : Z;
  aborted : bool;
  origStatus : AccountStatus;
  endStatus : AccountStatus;
  totalFees : string;
  inMessage : Message;
  outMessages : list Message
}.

Record ContractUpdatesSubscription := {
  state : bool;
  transactions : bool
}.

End Models.

(** ** [mergeTransactions] ([index.ts], lines 88-120) *)

Module Merge.
Import Models.

(** A string of decimal digits, which is what a logical time is on the
    wire. *)
Definition isDigit (c : ascii) : bool :=
  ((48 <=? N_of_ascii c) && (N_of_ascii c <=? 57))%N.

Fixpoint decimalString (s : string) : bool :=
  match s with
  | "" => true
  | String c r => isDigit c && decimalString r
  end.

(** The weights of a character in the root collation, for ASCII letters
    and digits: its place in the alphabet, digits before letters and a
    capital at the place of its small letter, and its case, small before
    capital.  Other characters are outside the model: they are ranked by
    their code, which is not what a collation does, and no statement below
    relies on it. *)
Definition isCapital (c : ascii) : bool :=
  ((65 <=? N_of_ascii c) && (N_of_ascii c <=? 90))%N.

Definition primaryWeight (c : ascii) : N :=
  if isCapital c then (N_of_ascii c + 32)%N else N_of_ascii c.

Definition tertiaryWeight (c : ascii) : N :=
  if isCapital c then 1%N else 0%N.

Fixpoint compareWeights (weight : ascii -> N) (a b : string) : comparison :=
  match a, b with
  | "", "" => Eq
  | "", String _ _ => Lt
  | String _ _, "" => Gt
  | String c a', String d b' =>
      match N.compare (weight c) (weight d) with
      | Eq => compareWeights weight a' b'
      | Lt => Lt
      | Gt => Gt
      end
  end.

(** [a.localeCompare(b)]: negative, zero or positive.  It compares by
    the collation of the host, not by character codes: first by the place
    of each character in the alphabet and, when that does not tell the
    strings apart, by case.  On strings of decimal digits this is the order
    of the characters read from the left (lemma [localeCompare_decimal]). *)
Definition localeCompare (a b : string) : Z :=
  match compareWeights primaryWeight a b with
  | Lt => -1
  | Gt => 1
  | Eq =>
      match compareWeights tertiaryWeight a b with
      | Lt => -1
      | Eq => 0
      | Gt => 1
      end
  end%Z.

(** The [while] loop: starting with [i] at the head of [rest] (the part of
    [knownTransactions] from index [i] on), advance while
    [i < knownTransactions.length] and
    [knownTransactions[i].id.lt.localeCompare(info.maxLt) >= 0]. *)
Fixpoint skipIndices (rest : list Transaction) (maxLt : string) (i : nat) : nat :=
  match rest with
  | [] => i
  | t :: rest' =>
      if (0 <=? localeCompare (lt (id t)) maxLt)%Z
      then skipIndices rest' maxLt (S i)
      else i
  end.

(** [array.splice(i, 0, ...items)]: the new content of [array]. *)
Definition splice {A} (array : list A) (i : nat) (items : list A) : list A :=
  take i array ++ items ++ drop i array.

(** [array.push(...items)]: the new content of [array]. *)
Definition push {A} (array items : list A) : list A := array ++ items.

(** The function updates [knownTransactions] in place and returns that
    same array; the result below is its content on return. *)
Definition mergeTransactions
    (knownTransactions newTransactions : list Transaction)
    (info : TransactionsBatchInfo) : list Transaction :=
  match batchType info with
  | old => push knownTransactions newTransactions
  | new =>
      if decide (length knownTransactions = 0)
      then push knownTransactions newTransactions
      else
        let i := skipIndices knownTransactions (maxLt info) 0 in
        splice knownTransactions i newTransactions
  end.

(** A transaction whose only interesting field is its logical time. *)
Definition emptyMessage : Message :=
  {| src := None; dst := None; value := "0"; bounce := false;
     bounced := false; body := None; bodyHash := None |}.

Definition txWithLt (l : string) : Transaction :=
  {| id := {| lt := l; hash := "" |};
     prevTransactionId := None;
     createdAt := 0;
     aborted := false;
     origStatus := active;
     endStatus := active;
     totalFees := "0";
     inMessage := emptyMessage;
     outMessages := [] |}.

Definition lts (txs : list Transaction) : list string :=
  map (fun t => lt (id t)) txs.

(** Strictly descending logical time, compared the way the merge
    compares it. *)
Definition ltAbove (a b : Transaction) : Prop :=
  (0 < localeCompare (lt (id a)) (lt (id b)))%Z.

Definition sortedDescending (txs : list Transaction) : Prop :=
  StronglySorted ltAbove txs.

(** [a] is greater than or equal to [b] in the lexicographic order of
    strings. *)
Definition lexGe (a b : string) : Prop := String.compare a b <> Lt.

End Merge.

(** ** [foldSubscriptions] ([index.ts], lines 385-406) *)

Module Fold.
Import Models.

(** The function compares objects by identity ([item != except]) and
    returns objects it has written to, so subscriptions live in a store
    and are passed around as references. *)
Abbreviation loc := nat.

Abbreviation heap := (gmap nat ContractUpdatesSubscription).

(** [{ before, after }]: two references, possibly the same one. *)
Record FoldResult := { before : loc; after : loc }.

(** [target.state ||= source.state].  [None] stands for the [TypeError]
    of reading a property of [undefined]; as in JavaScript the right-hand
    side is not evaluated when the left one is already true. *)
Definition orAssignState (h : heap) (target source : loc) : option heap :=
  t ← h !! target;
  if state t then Some h
  else
    s ← h !! source;
    Some (<[target := {| state := state s; transactions := transactions t |}]> h).

(** [target.transactions ||= source.transactions]. *)
Definition orAssignTransactions (h : heap) (target source : loc) : option heap :=
  t ← h !! target;
  if transactions t then Some h
  else
    s ← h !! source;
    Some (<[target := {| state := state t; transactions := transactions s |}]> h).

(** [Object.assign({}, source)]: a new object with the fields of
    [source]. *)
Definition objectAssignEmpty (h : heap) (source : loc) : option (loc * heap) :=
  v ← h !! source;
  let l := fresh (dom h) in
  Some (l, <[l := v]> h).

(** The [for (const item of subscriptions)] loop. *)
Fixpoint forOf (h : heap) (before after : loc) (except : option loc)
    (subscriptions : list loc) : option heap :=
  match subscriptions with
  | [] => Some h
  | item :: rest =>
      a ← h !! after;
      if transactions a && state a then Some h
      else
        h1 ← orAssignState h before item;
        h2 ← orAssignTransactions h1 before item;
        h3 ← (if decide (Some item ≠ except)
              then h' ← orAssignState h2 after item;
                   orAssignTransactions h' after item
              else Some h2);
        forOf h3 before after except rest
  end.

Definition foldSubscriptions (h : heap) (subscriptions : list loc)
    (except : option loc) : option (heap * FoldResult) :=
  let before := fresh (dom h) in
  let h0 := <[before := {| state := false; transactions := false |}]> h in
  '(after, h1) ← (if decide (except ≠ None)
                  then objectAssignEmpty h0 before
                  else Some (before, h0));
  h2 ← forOf h1 before after except subscriptions;
  Some (h2, {| before := before; after := after |}).

(** The logical OR of each flag over a list of live subscriptions: the
    aggregate the specification speaks of. *)
Definition flagsOf (h : heap) (l : loc) : ContractUpdatesSubscription :=
  default {| state := false; transactions := false |} (h !! l).

Definition orReduction (h : heap) (subscriptions : list loc)
    : ContractUpdatesSubscription :=
  {| state := existsb (fun l => state (flagsOf h l)) subscriptions;
     transactions := existsb (fun l => transactions (flagsOf h l)) subscriptions |}.

(** The OR of two flag-pairs, and the pointwise order on them. *)
Definition orFlags (x y : ContractUpdatesSubscription) : ContractUpdatesSubscription :=
  {| state := state x || state y;
     transactions := transactions x || transactions y |}.

Definition leFlags (x y : ContractUpdatesSubscription) : Prop :=
  (state x = true -> state y = true) /\
  (transactions x = true -> transactions y = true).

(** Every reference of the iterable points to a live object. *)
Definition live (h : heap) (subscriptions : list loc) : Prop :=
  Forall (fun l => is_Some (h !! l)) subscriptions.

End Fold.

(** ** Plain objects and [Object.prototype] *)

Module Prototype.

(** The names [Object.prototype] defines (ECMAScript, Annex B included).
    An object created by [{}] answers a lookup of one of them that is not
    its own with the inherited member, which is not [null]; an assignment
    to [__proto__] on it reaches the inherited setter and creates no
    property. *)
Definition objectPrototypeNames : list string :=
  ["constructor"; "hasOwnProperty"; "isPrototypeOf"; "propertyIsEnumerable";
   "toLocaleString"; "toString"; "valueOf"; "__proto__";
   "__defineGetter__"; "__defineSetter__"; "__lookupGetter__"; "__lookupSetter__"].

Definition objectPrototypeMember (name : string) : bool :=
  existsb (String.eqb name) objectPrototypeNames.

End Prototype.

(** ** [ProviderRpcClient.subscribe] ([index.ts], lines 241-383) *)

Module Client.
Import Models Fold Prototype.

(** The callback stored under an id, [(data) => subscription.notify(data)]:
    it hands the event to the logical subscription it was created for. *)
Inductive Listener := notifies (subscription : nat).

(** The two maps the client owns.  The inner objects are created on first
    use and never replaced, so holding one of them (as the closures of
    [subscribe] do) is the same as looking it up again by its key.  The
    keys of [_contractSubscriptions] are the strings of account addresses
    ([Address], [utils.ts]); the keys of [_subscriptions] are whatever
    event name the caller passes. *)
Record ProviderRpcClient := {
  _subscriptions : gmap string (gmap nat Listener);
  _contractSubscriptions : gmap string (gmap nat ContractUpdatesSubscription)
}.

(** Calls to the injected provider, [this.api.subscribe(...)] and
    [this.api.unsubscribe(...)]. *)
Inductive ProviderRequest :=
| apiSubscribe (address : string) (subscriptions : ContractUpdatesSubscription)
| apiUnsubscribe (address : string).

Inductive Exception :=
| UnknownEvent (eventName : string)
| TypeError
| Rejected (reason : string).

(** The injected provider: a request resolves ([None]) or rejects. *)
Definition Provider : Type := ProviderRequest -> option Exception.

(** The handle returned to the caller; its methods close over the event
    name, the address and the id. *)
Record Subscription := {
  subEventName : string;
  subAddress : option string;
  subId : nat
}.

Inductive Completion :=
| Returns (s : Subscription)
| Throws (e : Exception).

(** What one call leaves behind: the client, the provider calls issued,
    and how the call ended. *)
Record Outcome := {
  client : ProviderRpcClient;
  issued : list ProviderRequest;
  completion : Completion
}.

Definition eventSubscriptions (c : ProviderRpcClient) (eventName : string)
    : gmap nat Listener :=
  default ∅ (_subscriptions c !! eventName).

Definition contractSubscriptionsAt (c : ProviderRpcClient) (address : string)
    : gmap nat ContractUpdatesSubscription :=
  default ∅ (_contractSubscriptions c !! address).

(** [_getEventSubscriptions]: creates the inner object when
    [this._subscriptions[eventName]] is [null] or [undefined].
    [_subscriptions] is created by [{}], so for a name that
    [Object.prototype] defines the lookup finds the inherited member and
    nothing is stored. *)
Definition _getEventSubscriptions (c : ProviderRpcClient) (eventName : string)
    : ProviderRpcClient :=
  match _subscriptions c !! eventName with
  | Some _ => c
  | None =>
      if objectPrototypeMember eventName then c
      else
        {| _subscriptions := <[eventName := ∅]> (_subscriptions c);
           _contractSubscriptions := _contractSubscriptions c |}
  end.

(** [existingSubscriptions[id] = ...] and [delete existingSubscriptions[id]]
    on the inner object of [eventName]. *)
Definition setListener (c : ProviderRpcClient) (eventName : string) (id : nat)
    (f : Listener) : ProviderRpcClient :=
  {| _subscriptions :=
       <[eventName := <[id := f]> (eventSubscriptions c eventName)]> (_subscriptions c);
     _contractSubscriptions := _contractSubscriptions c |}.

Definition deleteListener (c : ProviderRpcClient) (eventName : string) (id : nat)
    : ProviderRpcClient :=
  {| _subscriptions :=
       <[eventName := delete id (eventSubscriptions c eventName)]> (_subscriptions c);
     _contractSubscriptions := _contractSubscriptions c |}.

(** The inner object of [address] in [_contractSubscriptions], created
    when there is none. *)
Definition getContractSubscriptions (c : ProviderRpcClient) (address : string)
    : ProviderRpcClient :=
  match _contractSubscriptions c !! address with
  | Some _ => c
  | None =>
      {| _subscriptions := _subscriptions c;
         _contractSubscriptions := <[address := ∅]> (_contractSubscriptions c) |}
  end.

Definition setContractSubscription (c : ProviderRpcClient) (address : string)
    (id : nat) (s : ContractUpdatesSubscription) : ProviderRpcClient :=
  {| _subscriptions := _subscriptions c;
     _contractSubscriptions :=
       <[address := <[id := s]> (contractSubscriptionsAt c address)]>
         (_contractSubscriptions c) |}.

Definition deleteContractSubscription (c : ProviderRpcClient) (address : string)
    (id : nat) : ProviderRpcClient :=
  {| _subscriptions := _subscriptions c;
     _contractSubscriptions :=
       <[address := delete id (contractSubscriptionsAt c address)]>
         (_contractSubscriptions c) |}.

(** [Object.values(contractSubscriptions)].  Each id holds an object of
    its own (the literal assigned under that id), so the objects are named
    by their ids and the inner map is the store [foldSubscriptions] reads;
    integer keys are enumerated in ascending order. *)
Definition objectValues (o : gmap nat ContractUpdatesSubscription) : list loc :=
  merge_sort le (elements (dom o)).

(** The comparison [before.transactions != after.transactions ||
    before.state != after.state]. *)
Definition differ (b a : ContractUpdatesSubscription) : bool :=
  xorb (transactions b) (transactions a) || xorb (state b) (state a).

(** The first closure of the global events, run by
    [subscription.subscribe()]. *)
Definition subscribeGlobal (c : ProviderRpcClient) (eventName : string) (id : nat)
    : ProviderRpcClient :=
  match eventSubscriptions c eventName !! id with
  | Some _ => c
  | None => setListener c eventName id (notifies id)
  end.

(** The first closure of the address-scoped events. *)
Definition subscribeContract (provider : Provider) (c : ProviderRpcClient)
    (eventName address : string) (id : nat)
    : ProviderRpcClient * list ProviderRequest * option Exception :=
  match eventSubscriptions c eventName !! id with
  | Some _ => (c, [], None)
  | None =>
      let c1 := setListener c eventName id (notifies id) in
      let c2 := getContractSubscriptions c1 address in
      let c3 := setContractSubscription c2 address id
                  {| state := bool_decide (eventName = "contractStateChanged");
                     transactions := bool_decide (eventName = "transactionsFound") |} in
      let contractSubscriptions := contractSubscriptionsAt c3 address in
      match foldSubscriptions contractSubscriptions
              (objectValues contractSubscriptions) (Some id) with
      | None => (c3, [], Some TypeError)
      | Some (h, r) =>
          let b := flagsOf h (before r) in
          let a := flagsOf h (after r) in
          if differ b a then
            let request := apiSubscribe address a in
            match provider request with
            | None => (c3, [request], None)
            | Some e =>
                let c4 := deleteListener c3 eventName id in
                let c5 := deleteContractSubscription c4 address id in
                (c5, [request], Some e)
            end
          else (c3, [], None)
      end
  end.

Definition globalEvents : list string :=
  ["disconnected"; "networkChanged"; "permissionsChanged"; "loggedOut"].

Definition contractEvents : list string :=
  ["transactionsFound"; "contractStateChanged"].

(** [subscribe(eventName, params)].  [id] is the value [getUniqueId()]
    returns ([utils.ts]); [params] is [None] when the caller passed no
    parameters.  A new [Subscription] has no listeners of its own yet, so
    nothing runs after its first [subscribe()]. *)
Definition subscribe (provider : Provider) (c : ProviderRpcClient)
    (eventName : string) (params : option Address) (id : nat) : Outcome :=
  let c0 := _getEventSubscriptions c eventName in
  if decide (eventName ∈ globalEvents) then
    {| client := subscribeGlobal c0 eventName id;
       issued := [];
       completion := Returns {| subEventName := eventName; subAddress := None;
                                subId := id |} |}
  else if decide (eventName ∈ contractEvents) then
    match params with
    | None => {| client := c0; issued := []; completion := Throws TypeError |}
    | Some address =>
        let '(c1, calls, failure) := subscribeContract provider c0 eventName address id in
        {| client := c1;
           issued := calls;
           completion :=
             match failure with
             | Some e => Throws e
             | None => Returns {| subEventName := eventName;
                                  subAddress := Some address; subId := id |}
             end |}
    end
  else
    {| client := c0; issued := []; completion := Throws (UnknownEvent eventName) |}.

(** An id that no inner object of the client uses: what [getUniqueId()]
    hands out. *)
Definition unusedId (c : ProviderRpcClient) (id : nat) : Prop :=
  (forall eventName, eventSubscriptions c eventName !! id = None) /\
  (forall address, contractSubscriptionsAt c address !! id = None).

Definition emptyClient : ProviderRpcClient :=
  {| _subscriptions := ∅; _contractSubscriptions := ∅ |}.

(** A provider that rejects every request. *)
Definition rejecting : Provider := fun _ => Some (Rejected "rejected").

End Client.

(** ** The ABI token codec ([models.ts], lines 157-304) *)

Module Codec.

(** [AbiParam]: [type] is a string at run time, and the parser reads it
    as one. *)
Inductive AbiParam := mkAbiParam {
  name : string;
  type : string;
  components : option (list AbiParam)
}.

(** The values the codec handles at run time.  [VAddress a] is
    [new Address(a)]: the class is declared in [utils.ts], its constructor
    keeps the argument it is given and [toString()] returns it.  An object
    is the list of its own properties in the order [Object.entries]
    enumerates them. *)
Inductive TokenValue :=
| VUndefined
| VBool (b : bool)
| VNumber (n : Z)
| VString (s : string)
| VAddress (a : TokenValue)
| VArray (items : list TokenValue)
| VObject (fields : list (string * TokenValue)).

(** How an evaluation ends: a value, a thrown [TypeError], or, for the
    fuel-indexed parser only, no fuel left. *)
Inductive Result (A : Type) :=
| Ok (a : A)
| TypeError
| OutOfFuel.
Arguments Ok {A} a.
Arguments TypeError {A}.
Arguments OutOfFuel {A}.

Definition bind {A B} (r : Result A) (k : A -> Result B) : Result B :=
  match r with
  | Ok a => k a
  | TypeError => TypeError
  | OutOfFuel => OutOfFuel
  end.

Notation "x <- r ;; k" := (bind r (fun x => k))
  (at level 100, r at next level, right associativity).

(** A loop that pushes [f item] for each item, stopping at the first
    failure. *)
Fixpoint forEachPush {A B} (f : A -> Result B) (items : list A) : Result (list B) :=
  match items with
  | [] => Ok []
  | item :: rest =>
      v <- f item ;;
      vs <- forEachPush f rest ;;
      Ok (v :: vs)
  end.

(** A loop that updates [result] for each item, stopping at the first
    failure. *)
Fixpoint forEachAssign {A R} (f : R -> A -> Result R) (items : list A) (result : R)
    : Result R :=
  match items with
  | [] => Ok result
  | item :: rest =>
      result' <- f result item ;;
      forEachAssign f rest result'
  end.

(** *** Strings *)

Definition startsWith (s p : string) : bool := String.prefix p s.

(** [s.slice(n)] *)
Fixpoint sliceFrom (s : string) (n : nat) : string :=
  match n, s with
  | S n', String _ r => sliceFrom r n'
  | _, _ => s
  end.

(** [s.slice(0, n)] for a non-negative [n] *)
Fixpoint sliceTo (s : string) (n : nat) : string :=
  match n, s with
  | S n', String c r => String c (sliceTo r n')
  | _, _ => ""
  end.

(** [s.slice(0, -k)] *)
Definition sliceEnd (s : string) (k : nat) : string :=
  sliceTo s (String.length s - k).

Definition endsWith (s p : string) : bool :=
  String.eqb (sliceFrom s (String.length s - String.length p)) p.

(** [s.split(sep)] for a one-character separator: never empty. *)
Fixpoint split (sep : ascii) (s : string) : list string :=
  match s with
  | "" => [""]
  | String c r =>
      if Ascii.eqb c sep then "" :: split sep r
      else match split sep r with
           | p :: ps => String c p :: ps
           | [] => [String c ""]
           end
  end.

Fixpoint characters (s : string) : list string :=
  match s with
  | "" => []
  | String c r => String c "" :: characters r
  end.

(** *** Objects *)

Definition digit (c : ascii) : option N :=
  let n := N_of_ascii c in
  if ((48 <=? n) && (n <=? 57))%N then Some (n - 48)%N else None.

Fixpoint decimal (s : string) (acc : N) : option N :=
  match s with
  | "" => Some acc
  | String c r =>
      match digit c with
      | Some d => decimal r (10 * acc + d)%N
      | None => None
      end
  end.

(** A property name that is an array index: the canonical decimal form
    of an integer below [2^32 - 1].  Such names are enumerated first, in
    ascending order, whatever the order of assignment. *)
Definition arrayIndex (key : string) : option N :=
  match key with
  | "" => None
  | String "0" "" => Some 0%N
  | String "0" _ => None
  | _ =>
      match decimal key 0 with
      | Some n => if (n <? 4294967295)%N then Some n else None
      | None => None
      end
  end.

Fixpoint getOwn (fields : list (string * TokenValue)) (key : string)
    : option TokenValue :=
  match fields with
  | [] => None
  | (k, v) :: rest => if String.eqb k key then Some v else getOwn rest key
  end.

Fixpoint replaceOwn (fields : list (string * TokenValue)) (key : string)
    (v : TokenValue) : list (string * TokenValue) :=
  match fields with
  | [] => []
  | (k, w) :: rest =>
      if String.eqb k key then (k, v) :: rest
      else (k, w) :: replaceOwn rest key v
  end.

Fixpoint insertIndexed (fields : list (string * TokenValue)) (n : N)
    (key : string) (v : TokenValue) : list (string * TokenValue) :=
  match fields with
  | [] => [(key, v)]
  | (k, w) :: rest =>
      match arrayIndex k with
      | Some m =>
          if (n <? m)%N then (key, v) :: fields
          else (k, w) :: insertIndexed rest n key v
      | None => (key, v) :: fields
      end
  end.

(** [result[key] = v]: the own properties afterwards.  An assignment to
    [__proto__] on an object that has no own property of that name reaches
    the setter of [Object.prototype] and creates none. *)
Definition setProperty (fields : list (string * TokenValue)) (key : string)
    (v : TokenValue) : list (string * TokenValue) :=
  match getOwn fields key with
  | Some _ => replaceOwn fields key v
  | None =>
      if String.eqb key "__proto__" then fields
      else
        match arrayIndex key with
        | Some n => insertIndexed fields n key v
        | None => fields ++ [(key, v)]
        end
  end.

(** [token[key]], by the own properties of the token.  A name that is not
    an own property and that a prototype of the token defines
    ([Prototype.objectPrototypeNames] for an object) finds the inherited
    member in the code; the model answers [undefined] for it, and the
    statements about a name that is missing from an object leave these
    names out. *)
Definition getProperty (token : TokenValue) (key : string) : Result TokenValue :=
  match token with
  | VUndefined => TypeError
  | VObject fields => Ok (default VUndefined (getOwn fields key))
  | VArray items =>
      match arrayIndex key with
      | Some n => Ok (nth (N.to_nat n) items VUndefined)
      | None =>
          if String.eqb key "length" then Ok (VNumber (Z.of_nat (length items)))
          else Ok VUndefined
      end
  | VString s =>
      match arrayIndex key with
      | Some n => Ok (nth (N.to_nat n) (map VString (characters s)) VUndefined)
      | None =>
          if String.eqb key "length" then Ok (VNumber (Z.of_nat (String.length s)))
          else Ok VUndefined
      end
  | VBool _ | VNumber _ | VAddress _ => Ok VUndefined
  end.

(** The items [for (const item of token)] runs over. *)
Definition iterate (token : TokenValue) : Result (list TokenValue) :=
  match token with
  | VArray items => Ok items
  | VString s => Ok (map VString (characters s))
  | _ => TypeError
  end.

(** *** [serializeTokenValue] *)

Fixpoint serializeTokenValue (token : TokenValue) : TokenValue :=
  match token with
  | VAddress a => a
  | VArray items => VArray (map serializeTokenValue items)
  | VObject fields =>
      VObject
        ((fix entries (l : list (string * TokenValue))
                      (result : list (string * TokenValue)) :=
            match l with
            | [] => result
            | (key, value) :: rest =>
                entries rest (setProperty result key (serializeTokenValue value))
            end) fields [])
  | _ => token
  end.

Definition serializeTokensObject (object : TokenValue) : TokenValue :=
  serializeTokenValue object.

(** *** [parseTokenValue] *)

(** The recursion of [parseTokenValue] follows the schema: every call
    inside it gets a parameter whose type string is shorter or whose
    components are fewer.  [paramSize] measures that, and is the fuel the
    parser is run with. *)
Fixpoint paramSize (param : AbiParam) : nat :=
  match param with
  | mkAbiParam _ t cs =>
      S (String.length t +
         match cs with
         | None => 0
         | Some l =>
             (fix sum (l : list AbiParam) : nat :=
                match l with
                | [] => 0
                | c :: r => paramSize c + sum r
                end) l
         end)
  end.

Fixpoint parseTokenValueFuel (fuel : nat) (param : AbiParam) (token : TokenValue)
    : Result TokenValue :=
  match fuel with
  | O => OutOfFuel
  | S fuel' =>
      if negb (startsWith (type param) "map") then
        let rawType :=
          if endsWith (type param) "[]" then sliceEnd (type param) 2
          else type param in
        let isArray := negb (String.eqb rawType (type param)) in
        if isArray then
          let rawParam :=
            {| name := name param; type := rawType;
               components := components param |} in
          items <- iterate token ;;
          result <- forEachPush (parseTokenValueFuel fuel' rawParam) items ;;
          Ok (VArray result)
        else if String.eqb rawType "tuple" then
          match components param with
          | Some comps =>
              result <- forEachAssign
                          (fun result component =>
                             raw <- getProperty token (name component) ;;
                             v <- parseTokenValueFuel fuel' component raw ;;
                             Ok (setProperty result (name component) v))
                          comps [] ;;
              Ok (VObject result)
          | None => Ok (VObject [])
          end
        else if String.eqb rawType "address" then Ok (VAddress token)
        else Ok token
      else
        let parts := split "," (type param) in
        let keyType := sliceFrom (nth 0 parts "") 4 in
        match parts !! 1 with
        | None => TypeError
        | Some valueType =>
            let valueType := sliceEnd valueType 1 in
            entries <- iterate token ;;
            result <- forEachPush
                        (fun entry =>
                           pair <- iterate entry ;;
                           let key := nth 0 pair VUndefined in
                           let value := nth 1 pair VUndefined in
                           k <- parseTokenValueFuel fuel'
                                  {| name := ""; type := keyType;
                                     components := None |} key ;;
                           v <- parseTokenValueFuel fuel'
                                  {| name := ""; type := valueType;
                                     components := None |} value ;;
                           Ok (VArray [k; v]))
                        entries ;;
            Ok (VArray result)
        end
  end.

Definition parseTokenValue (param : AbiParam) (token : TokenValue)
    : Result TokenValue :=
  parseTokenValueFuel (paramSize param) param token.

Definition parseTokensObject (params : list AbiParam) (object : TokenValue)
    : Result TokenValue :=
  result <- forEachAssign
              (fun result param =>
                 raw <- getProperty object (name param) ;;
                 v <- parseTokenValue param raw ;;
                 Ok (setProperty result (name param) v))
              params [] ;;
  Ok (VObject result).

(** *** Values that conform to a schema

    What the types [InputTokenValue] and [OutputTokenValue]
    ([models.ts], lines 312-330) admit for a parameter of type [t] with
    components [cs]: integers, amounts and times as strings or numbers,
    [bool] as a boolean, [cell], [bytes] and [pubkey] as strings,
    [address] as an [Address], [tuple] as an object with one field per
    component, [K[]] as an array of [K], and [map(K,V)] as an array of
    pairs whose keys are [K] without components and whose values are [V]
    with the components of the parameter. *)

Definition numericKinds : list string :=
  ["uint8"; "uint16"; "uint32"; "uint64"; "uint128"; "uint160"; "uint256";
   "int8"; "int16"; "int32"; "int64"; "int128"; "int160"; "int256";
   "gram"; "time"; "expire"].

Definition textKinds : list string := ["cell"; "bytes"; "pubkey"].

Inductive conforms : string -> option (list AbiParam) -> TokenValue -> Prop :=
| conforms_numeric_string t cs s :
    t ∈ numericKinds -> conforms t cs (VString s)
| conforms_numeric_number t cs n :
    t ∈ numericKinds -> conforms t cs (VNumber n)
| conforms_bool cs b :
    conforms "bool" cs (VBool b)
| conforms_text t cs s :
    t ∈ textKinds -> conforms t cs (VString s)
| conforms_address cs a :
    conforms "address" cs (VAddress (VString a))
| conforms_tuple comps fields :
    Forall2 (fun c f => fst f = name c /\ conforms (type c) (components c) (snd f))
            comps fields ->
    conforms "tuple" (Some comps) (VObject fields)
| conforms_array k cs items :
    Forall (conforms k cs) items ->
    conforms (k ++ "[]") cs (VArray items)
| conforms_map k v cs entries :
    Forall (fun entry => exists key value,
              entry = VArray [key; value] /\
              conforms k None key /\ conforms v cs value) entries ->
    conforms ("map(" ++ k ++ "," ++ v ++ ")") cs (VArray entries).

(** A [TokensObject] for a list of parameters. *)
Definition conformsObject (params : list AbiParam) (object : TokenValue) : Prop :=
  exists fields,
    object = VObject fields /\
    Forall2 (fun p f => fst f = name p /\ conforms (type p) (components p) (snd f))
            params fields.

(** No [Address] anywhere in the tree. *)
Fixpoint addressFree (token : TokenValue) : bool :=
  match token with
  | VAddress _ => false
  | VArray items => forallb addressFree items
  | VObject fields => forallb (fun f => addressFree (snd f)) fields
  | _ => true
  end.

(** The object a loop of assignments [result[name] = v] builds, as
    [parseTokensObject] runs one once every field has parsed. *)
Definition assignAll (result : list (string * TokenValue))
    (entries : list (AbiParam * TokenValue)) : list (string * TokenValue) :=
  fold_left (fun result e => setProperty result (name (fst e)) (snd e)) entries result.

(** How [parseTokensObject] treats one parameter: it reads the field of
    that name and parses it. *)
Definition parsesTo (object : TokenValue) (param : AbiParam) (v : TokenValue) : Prop :=
  exists raw,
    getProperty object (name param) = Ok raw /\ parseTokenValue param raw = Ok v.

(** A schema with one parameter [m] of type [map(uint8,tuple)] whose
    tuple has one component [x], and a value for it: one entry, key "1",
    value [{x: "2"}]. *)
Definition mapOfTuplesSchema : list AbiParam :=
  [ {| name := "m"; type := "map(uint8,tuple)";
       components := Some [ {| name := "x"; type := "uint8"; components := None |} ] |} ].

Definition mapOfTuplesValue : TokenValue :=
  VObject [("m", VArray [VArray [VString "1"; VObject [("x", VString "2")]]])].

Definition scalarParam (n t : string) : AbiParam :=
  {| name := n; type := t; components := None |}.

(** A scalar type: neither a map, an array, a tuple nor an address. *)
Definition isScalar (t : string) : bool :=
  negb (startsWith t "map") && negb (endsWith t "[]") &&
  negb (String.eqb t "tuple") && negb (String.eqb t "address").

End Codec.

(** ** More of [index.ts]: order of the history, unsubscription, fan-out *)

Module History.
Import Models Merge.

(** Descending logical time with equal neighbours allowed, in the order
    of the characters: the order in which the merge compares logical times
    that are strings of decimal digits. *)
Definition descending (txs : list Transaction) : Prop :=
  StronglySorted (fun a b => lexGe (lt (id a)) (lt (id b))) txs.

End History.

Module Unsubscribe.
Import Models Fold Client.

(** The net interest of an address: the fold over all its flag-pairs. *)
Definition aggregate (o : gmap nat ContractUpdatesSubscription)
    : ContractUpdatesSubscription :=
  orReduction o (objectValues o).

(** The flag-pair [subscribe] records for an event name
    ([index.ts], lines 329-332). *)
Definition flagsFor (eventName : string) : ContractUpdatesSubscription :=
  {| state := bool_decide (eventName = "contractStateChanged");
     transactions := bool_decide (eventName = "transactionsFound") |}.

(** The second closure of the global events ([index.ts], lines 305-307):
    [delete existingSubscriptions[id]].  The closure holds the inner object
    [subscribe] fetched, which the client keeps from then on. *)
Definition unsubscribeGlobal (c : ProviderRpcClient) (eventName : string) (id : nat)
    : ProviderRpcClient :=
  deleteListener c eventName id.

(** The second closure of the address-scoped events ([index.ts], lines
    345-362).  [updates] is [contractSubscriptions[id]], an object or
    [undefined]; there is no [try] around the provider calls, so a rejection
    leaves the deletions in place. *)
Definition unsubscribeContract (provider : Provider) (c : ProviderRpcClient)
    (eventName address : string) (id : nat)
    : ProviderRpcClient * list ProviderRequest * option Exception :=
  let c1 := deleteListener c eventName id in
  match _contractSubscriptions c1 !! address with
  | None => (c1, [], None)
  | Some contractSubscriptions =>
      let updates := match contractSubscriptions !! id with
                     | Some _ => Some id
                     | None => None
                     end in
      match foldSubscriptions contractSubscriptions
              (objectValues contractSubscriptions) updates with
      | None => (c1, [], Some TypeError)
      | Some (h, r) =>
          let c2 := deleteContractSubscription c1 address id in
          let b := flagsOf h (before r) in
          let a := flagsOf h (after r) in
          if negb (transactions a) && negb (state a) then
            (c2, [apiUnsubscribe address], provider (apiUnsubscribe address))
          else if differ b a then
            (c2, [apiSubscribe address a], provider (apiSubscribe address a))
          else (c2, [], None)
      end
  end.

(** [subscription.unsubscribe()] on a handle [subscribe] returned: the
    closure of its event category, then the 'unsubscribed' listeners of the
    handle, which touch nothing of the client. *)
Definition unsubscribe (provider : Provider) (c : ProviderRpcClient) (s : Subscription)
    : ProviderRpcClient * list ProviderRequest * option Exception :=
  match subAddress s with
  | None => (unsubscribeGlobal c (subEventName s) (subId s), [], None)
  | Some address => unsubscribeContract provider c (subEventName s) address (subId s)
  end.

(** [Object.values(handlers)]: the values in ascending order of their
    integer keys. *)
Definition objectValuesOf {V} (o : gmap nat V) : list V :=
  map snd (@merge_sort _ (fun x y => fst x <= fst y)
             (fun x y => decide (fst x <= fst y)) (map_to_list o)).

Definition knownEvents : list string :=
  ["disconnected"; "transactionsFound"; "contractStateChanged";
   "networkChanged"; "permissionsChanged"; "loggedOut"].

(** The listener the constructor adds for each known event ([index.ts],
    lines 211-221): the callbacks it invokes, in order, when the provider
    fires [eventName].  For another name no listener was added. *)
Definition fanOut (c : ProviderRpcClient) (eventName : string) : list Listener :=
  if decide (eventName ∈ knownEvents) then
    match _subscriptions c !! eventName with
    | None => []
    | Some handlers => objectValuesOf handlers
    end
  else [].

(** A provider that resolves every request. *)
Definition resolving : Provider := fun _ => None.

(** A client with one listener: id 0, for 'transactionsFound' on the
    address "0:aa". *)
Definition listening : ProviderRpcClient :=
  {| _subscriptions := {[ "transactionsFound" := {[ 0 := notifies 0 ]} ]};
     _contractSubscriptions :=
       {[ "0:aa" := {[ 0 := flagsFor "transactionsFound" ]} ]} |}.

End Unsubscribe.

(** ** More of [models.ts]: messages, transactions, permissions *)

Module Wire.

(** Modelled from the spec: the [Address] class of [utils.ts], which is
    not among the sources.  It wraps the string it is constructed from,
    [toString()] returns that string unchanged, and two addresses are equal
    when their strings are. *)
Record Address := mkAddress { toString : string }.

(** [Message<Addr>]; an optional field that is absent and one that is
    [undefined] are both [None]. *)
Record Message (Addr : Type) := {
  src : option Addr;
  dst : option Addr;
  value : string;
  bounce : bool;
  bounced : bool;
  body : option string;
  bodyHash : option string
}.
Arguments src {Addr} _.
Arguments dst {Addr} _.
Arguments value {Addr} _.
Arguments bounce {Addr} _.
Arguments bounced {Addr} _.
Arguments body {Addr} _.
Arguments bodyHash {Addr} _.

(** [Transaction<Addr>] *)
Record Transaction (Addr : Type) := {
  id : Models.TransactionId;
  prevTransactionId : option Models.TransactionId;
  createdAt : Z;
  aborted : bool;
  origStatus : Models.AccountStatus;
  endStatus : Models.AccountStatus;
  totalFees : string;
  inMessage : Message Addr;
  outMessages : list (Message Addr)
}.
Arguments id {Addr} _.
Arguments prevTransactionId {Addr} _.
Arguments createdAt {Addr} _.
Arguments aborted {Addr} _.
Arguments origStatus {Addr} _.
Arguments endStatus {Addr} _.
Arguments totalFees {Addr} _.
Arguments inMessage {Addr} _.
Arguments outMessages {Addr} _.

(** The test [s ? ... : ...] on a string: the empty string is falsy. *)
Definition truthy (s : string) : bool := negb (String.eqb s "").

(** [serializeMessage]: an [Address] is an object, hence truthy. *)
Definition serializeMessage (message : Message Address) : Message string :=
  {| src := match src message with
            | Some a => Some (toString a)
            | None => None
            end;
     dst := match dst message with
            | Some a => Some (toString a)
            | None => None
            end;
     value := value message;
     bounce := bounce message;
     bounced := bounced message;
     body := body message;
     bodyHash := bodyHash message |}.

(** [parseMessage] *)
Definition parseMessage (message : Message string) : Message Address :=
  {| src := match src message with
            | Some s => if truthy s then Some (mkAddress s) else None
            | None => None
            end;
     dst := match dst message with
            | Some s => if truthy s then Some (mkAddress s) else None
            | None => None
            end;
     value := value message;
     bounce := bounce message;
     bounced := bounced message;
     body := body message;
     bodyHash := bodyHash message |}.

(** [serializeTransaction] *)
Definition serializeTransaction (transaction : Transaction Address)
    : Transaction string :=
  {| id := id transaction;
     prevTransactionId := prevTransactionId transaction;
     createdAt := createdAt transaction;
     aborted := aborted transaction;
     origStatus := origStatus transaction;
     endStatus := endStatus transaction;
     totalFees := totalFees transaction;
     inMessage := serializeMessage (inMessage transaction);
     outMessages := map serializeMessage (outMessages transaction) |}.

(** [parseTransaction] *)
Definition parseTransaction (transaction : Transaction string)
    : Transaction Address :=
  {| id := id transaction;
     prevTransactionId := prevTransactionId transaction;
     createdAt := createdAt transaction;
     aborted := aborted transaction;
     origStatus := origStatus transaction;
     endStatus := endStatus transaction;
     totalFees := totalFees transaction;
     inMessage := parseMessage (inMessage transaction);
     outMessages := map parseMessage (outMessages transaction) |}.

Inductive WalletContractType :=
| SafeMultisigWallet
| SafeMultisigWallet24h
| SetcodeMultisigWallet
| SurfWallet
| WalletV3.

(** [Permissions<Addr>['accountInteraction']] *)
Record AccountInteraction (Addr : Type) := {
  address : Addr;
  publicKey : string;
  contractType : WalletContractType
}.
Arguments address {Addr} _.
Arguments publicKey {Addr} _.
Arguments contractType {Addr} _.

(** [Partial<Permissions<Addr>>]: [tonClient], when present, is [true]. *)
Record Permissions (Addr : Type) := {
  tonClient : option unit;
  accountInteraction : option (AccountInteraction Addr)
}.
Arguments tonClient {Addr} _.
Arguments accountInteraction {Addr} _.

(** [parseAccountInteraction] *)
Definition parseAccountInteraction (accountInteraction : AccountInteraction string)
    : AccountInteraction Address :=
  {| address := mkAddress (address accountInteraction);
     publicKey := publicKey accountInteraction;
     contractType := contractType accountInteraction |}.

(** [parsePermissions] *)
Definition parsePermissions (permissions : Permissions string) : Permissions Address :=
  {| tonClient := tonClient permissions;
     accountInteraction :=
       match accountInteraction permissions with
       | Some a => Some (parseAccountInteraction a)
       | None => None
       end |}.

(** An address field that survives the way to the wire and back: absent,
    or a non-empty string. *)
Definition keptAddress (a : option Address) : Prop :=
  match a with
  | Some a => toString a <> ""
  | None => True
  end.

Definition keptRaw (a : option string) : Prop :=
  match a with
  | Some s => s <> ""
  | None => True
  end.

End Wire.

(** ** More of the codec: the values each type stands for *)

Module CodecDomain.
Import Codec.

Fixpoint noComma (s : string) : bool :=
  match s with
  | "" => true
  | String c r => negb (Ascii.eqb c ",") && noComma r
  end.

Definition primitive (v : TokenValue) : bool :=
  match v with
  | VBool _ | VNumber _ | VString _ => true
  | _ => false
  end.

(** The values [parseTokenValue] produces for a parameter, read off its
    branches: a primitive for a scalar type, an [Address] around a string
    for [address], an array of values of the element type for [K[]] when
    [K] is not a map type, an object with one field per component for
    [tuple] (the names of the components pairwise distinct, none an array
    index and none [__proto__]; no field when there are no components), and
    for [map(K,V)] an array of pairs of a [K] and a [V].  The map branch
    hands the components of the parameter to neither: inside a map a tuple
    is the empty object, and a tuple with fields is not a value of this
    relation.  Nor is an array of maps or a map of maps, whose type strings
    the map branch cuts at the first comma. *)
Inductive typed : AbiParam -> TokenValue -> Prop :=
| typed_scalar p v :
    isScalar (type p) = true -> primitive v = true -> typed p v
| typed_address p a :
    type p = "address" -> typed p (VAddress (VString a))
| typed_array p k items :
    type p = (k ++ "[]")%string ->
    startsWith k "map" = false ->
    Forall (typed {| name := name p; type := k; components := components p |}) items ->
    typed p (VArray items)
| typed_tuple p comps fields :
    type p = "tuple" ->
    components p = Some comps ->
    NoDup (map name comps) ->
    Forall (fun c => arrayIndex (name c) = None) comps ->
    "__proto__" ∉ map name comps ->
    Forall2 (fun c f => fst f = name c /\ typed c (snd f)) comps fields ->
    typed p (VObject fields)
| typed_tuple_empty p :
    type p = "tuple" -> components p = None -> typed p (VObject [])
| typed_map p k v entries :
    type p = ("map(" ++ k ++ "," ++ v ++ ")")%string ->
    noComma k = true ->
    noComma v = true ->
    Forall (fun entry => exists key value,
              entry = VArray [key; value] /\
              typed {| name := ""; type := k; components := None |} key /\
              typed {| name := ""; type := v; components := None |} value) entries ->
    typed p (VArray entries).

(** A [TokensObject] for a list of parameters: one such value per
    parameter, in the order of the parameters. *)
Definition typedObject (params : list AbiParam) (object : TokenValue) : Prop :=
  exists fields,
    object = VObject fields /\
    NoDup (map name params) /\
    Forall (fun p => arrayIndex (name p) = None) params /\
    ("__proto__" ∉ map name params) /\
    Forall2 (fun p f => fst f = name p /\ typed p (snd f)) params fields.

(** Every [Address] of the tree wraps a string. *)
Fixpoint stringAddresses (token : TokenValue) : bool :=
  match token with
  | VAddress (VString _) => true
  | VAddress _ => false
  | VArray items => forallb stringAddresses items
  | VObject fields => forallb (fun f => stringAddresses (snd f)) fields
  | _ => true
  end.

(** Every object of the tree lists pairwise distinct names, none of them
    an array index or [__proto__]. *)
Fixpoint plainNames (token : TokenValue) : bool :=
  match token with
  | VAddress a => plainNames a
  | VArray items => forallb plainNames items
  | VObject fields =>
      bool_decide (NoDup (map fst fields)) &&
      forallb (fun f => match arrayIndex (fst f) with
                        | None => negb (String.eqb (fst f) "__proto__")
                        | Some _ => false
                        end)
              fields &&
      forallb (fun f => plainNames (snd f)) fields
  | _ => true
  end.

End CodecDomain.

(** * Properties *)

Local Open Scope list_scope.

(** ** Transaction merge *)

Section MergeProperties.
Import Models Merge.

Lemma primaryWeight_digit c : isDigit c = true -> primaryWeight c = N_of_ascii c.
Proof.
  unfold isDigit, primaryWeight, isCapital.
  intros [H1%N.leb_le H2%N.leb_le]%andb_true_iff.
  destruct (N.leb_spec 65 (N_of_ascii c)); [lia | done].
Qed.

Lemma tertiaryWeight_digit c : isDigit c = true -> tertiaryWeight c = 0%N.
Proof.
  unfold isDigit, tertiaryWeight, isCapital.
  intros [H1%N.leb_le H2%N.leb_le]%andb_true_iff.
  destruct (N.leb_spec 65 (N_of_ascii c)); [lia | done].
Qed.

(** On decimal strings the first level of the collation is the order of
    the characters, and it tells any two different strings apart. *)
Lemma compareWeights_primary_decimal a : forall b,
  decimalString a = true -> decimalString b = true ->
  compareWeights primaryWeight a b = String.compare a b.
Proof.
  induction a as [|c a IH]; intros [|d b]; simpl; try done.
  intros [Hc Ha]%andb_true_iff [Hd Hb]%andb_true_iff.
  rewrite !primaryWeight_digit by done. unfold Ascii.compare.
  destruct (N.compare (N_of_ascii c) (N_of_ascii d)); [by apply IH | done | done].
Qed.

Lemma compareWeights_tertiary_decimal a :
  decimalString a = true -> compareWeights tertiaryWeight a a = Eq.
Proof.
  induction a as [|c a IH]; simpl; [done|].
  intros [Hc Ha]%andb_true_iff. rewrite N.compare_refl. by apply IH.
Qed.

Lemma compare_Eq_eq (a b : string) : String.compare a b = Eq -> a = b.
Proof.
  revert b. induction a as [|c a IH]; intros [|d b]; simpl; try done.
  unfold Ascii.compare.
  destruct (N.compare_spec (N_of_ascii c) (N_of_ascii d)) as [Hcd| |]; try done.
  intros Hab. f_equal; [|by apply IH].
  rewrite <- (ascii_N_embedding c), <- (ascii_N_embedding d). by rewrite Hcd.
Qed.

(** [localeCompare] on decimal strings: the comparison of the characters
    read from the left. *)
Lemma localeCompare_decimal a b :
  decimalString a = true -> decimalString b = true ->
  localeCompare a b =
    match String.compare a b with
    | Lt => -1
    | Eq => 0
    | Gt => 1
    end%Z.
Proof.
  intros Ha Hb. unfold localeCompare.
  rewrite compareWeights_primary_decimal by done.
  destruct (String.compare a b) eqn:Hab; [|done|done].
  apply compare_Eq_eq in Hab as <-. by rewrite compareWeights_tertiary_decimal.
Qed.

Lemma localeCompare_lexGe a b :
  decimalString a = true -> decimalString b = true ->
  (0 <= localeCompare a b)%Z <-> lexGe a b.
Proof.
  intros Ha Hb. rewrite localeCompare_decimal by done. unfold lexGe.
  destruct (String.compare a b); split; intros H; try lia; congruence.
Qed.

(** Where the scan stops on decimal logical times: every transaction it
    passed is at or above [maxLt], and the one it stopped at, if any, is
    below. *)
Lemma skipIndices_stop rest maxLt i0 :
  decimalString maxLt = true ->
  Forall (fun t => decimalString (lt (id t)) = true) rest ->
  exists n,
    skipIndices rest maxLt i0 = i0 + n /\
    n <= length rest /\
    (forall j t, j < n -> rest !! j = Some t -> lexGe (lt (id t)) maxLt) /\
    (forall t, rest !! n = Some t -> ~ lexGe (lt (id t)) maxLt).
Proof.
  intros Hmax Hrest. revert i0.
  induction Hrest as [|t rest Ht _ IH]; intros i0; simpl.
  - exists 0. repeat split; [lia | lia | intros; lia | intros ? [=]].
  - destruct (Z.leb_spec 0 (localeCompare (lt (id t)) maxLt)) as [Hge|Hlt].
    + destruct (IH (S i0)) as (n & Hn & Hlen & Hpre & Hstop).
      exists (S n). repeat split; [lia | lia | | exact Hstop].
      intros [|j] u Hj Hu; simpl in Hu.
      * injection Hu as <-. by apply localeCompare_lexGe.
      * apply (Hpre j); [lia | done].
    + exists 0. repeat split; [lia | lia | intros; lia |].
      intros u [= <-] Hge%localeCompare_lexGe; [lia | done | done].
Qed.

(** The merge of a new batch, for any known array: the batch goes in at
    the index where the scan stops. *)
Lemma mergeTransactions_new known incoming info :
  batchType info = new ->
  mergeTransactions known incoming info =
    splice known (skipIndices known (maxLt info) 0) incoming.
Proof.
  intros Hnew. unfold mergeTransactions. rewrite Hnew.
  destruct (decide (length known = 0)) as [Hlen|]; [|done].
  apply length_zero_iff_nil in Hlen as ->.
  unfold push, splice. simpl. by rewrite app_nil_r.
Qed.

(** C2, as the code has it: for a non-empty known array sorted by strictly
    descending logical time and a batch of type 'new', when the logical
    times of the known transactions and [info.maxLt] are strings of decimal
    digits, the merge passes the known transactions whose lt is
    lexicographically greater than or equal to [info.maxLt], stops at the
    first index [i] that fails the test, and returns the known array with
    the incoming batch inserted at [i]: the first [i] known transactions,
    the batch, then the remaining known transactions, all in their order
    and none removed. *)
Theorem mergeTransactions_new_splices known incoming info :
  known <> [] ->
  sortedDescending known ->
  batchType info = new ->
  decimalString (maxLt info) = true ->
  Forall (fun t => decimalString (lt (id t)) = true) known ->
  exists i,
    i <= length known /\
    (forall j t, j < i -> known !! j = Some t -> lexGe (lt (id t)) (maxLt info)) /\
    (forall t, known !! i = Some t -> ~ lexGe (lt (id t)) (maxLt info)) /\
    mergeTransactions known incoming info = take i known ++ incoming ++ drop i known.
Proof.
  intros _ _ Hnew Hmax Hknown.
  destruct (skipIndices_stop known (maxLt info) 0 Hmax Hknown)
    as (n & Hn & Hlen & Hpre & Hstop).
  exists n. repeat split; [done | done | done |].
  rewrite mergeTransactions_new by done. by rewrite Hn.
Qed.

Lemma mergeTransactions_new_splices_witness :
  exists i,
    i <= 3 /\
    (forall j t, j < i ->
       map txWithLt ["30"; "20"; "10"] !! j = Some t -> lexGe (lt (id t)) "15") /\
    (forall t, map txWithLt ["30"; "20"; "10"] !! i = Some t ->
       ~ lexGe (lt (id t)) "15") /\
    mergeTransactions (map txWithLt ["30"; "20"; "10"]) (map txWithLt ["15"; "14"])
      {| minLt := "14"; maxLt := "15"; batchType := new |} =
    take i (map txWithLt ["30"; "20"; "10"]) ++ map txWithLt ["15"; "14"] ++
    drop i (map txWithLt ["30"; "20"; "10"]).
Proof.
  apply (mergeTransactions_new_splices (map txWithLt ["30"; "20"; "10"])
           (map txWithLt ["15"; "14"])
           {| minLt := "14"; maxLt := "15"; batchType := new |}).
  - discriminate.
  - unfold sortedDescending. simpl.
    repeat first [apply SSorted_nil | apply SSorted_cons];
      repeat first [apply Forall_nil_2 | apply Forall_cons_2]; reflexivity.
  - reflexivity.
  - reflexivity.
  - simpl. repeat first [apply Forall_nil_2 | apply Forall_cons_2]; reflexivity.
Defined.

(** C2, as stated, fails: the code compares with [localeCompare], and the
    collation is not the lexicographic order of the characters.  The known
    array with the one logical time "a" is non-empty and sorted, and "a" is
    lexicographically above the [maxLt] "B", so the claim has the scan pass
    it and the batch inserted at index 1; the collation puts "a" before
    "B", the scan stops at once and the batch goes in at index 0. *)
Lemma mergeTransactions_new_not_lexicographic :
  [txWithLt "a"] <> [] /\
  sortedDescending [txWithLt "a"] /\
  lexGe "a" "B" /\
  mergeTransactions [txWithLt "a"] [txWithLt "B"]
    {| minLt := "B"; maxLt := "B"; batchType := new |}
  = [txWithLt "B"; txWithLt "a"] /\
  ~ (exists i,
       i <= length [txWithLt "a"] /\
       (forall j t, j < i -> [txWithLt "a"] !! j = Some t -> lexGe (lt (id t)) "B") /\
       (forall t, [txWithLt "a"] !! i = Some t -> ~ lexGe (lt (id t)) "B") /\
       mergeTransactions [txWithLt "a"] [txWithLt "B"]
         {| minLt := "B"; maxLt := "B"; batchType := new |}
       = take i [txWithLt "a"] ++ [txWithLt "B"] ++ drop i [txWithLt "a"]).
Proof.
  split; [discriminate|]. split.
  { unfold sortedDescending. apply SSorted_cons; [apply SSorted_nil | constructor]. }
  split; [discriminate|]. split; [reflexivity|].
  intros (i & Hi & _ & Hstop & Hmerge).
  destruct i as [|[|i]]; simpl in Hi; [| |lia].
  - apply (Hstop (txWithLt "a")); [reflexivity | discriminate].
  - discriminate Hmerge.
Qed.

(** C3: on known lts 20, 19, 18, 5 and a new batch 11, 10 with maxLt 11
    the merge returns 20, 19, 18, 5, 11, 10: compared as strings, "5" is
    above "11", so the scan passes it and the batch lands after it, not
    before. *)
Theorem mergeTransactions_example_5_above_11 :
  lts (mergeTransactions (map txWithLt ["20"; "19"; "18"; "5"])
         (map txWithLt ["11"; "10"])
         {| minLt := "10"; maxLt := "11"; batchType := new |})
  = ["20"; "19"; "18"; "5"; "11"; "10"] /\
  lts (mergeTransactions (map txWithLt ["20"; "19"; "18"; "5"])
         (map txWithLt ["11"; "10"])
         {| minLt := "10"; maxLt := "11"; batchType := new |})
  <> ["20"; "19"; "18"; "11"; "10"; "5"].
Proof. split; [reflexivity | discriminate]. Qed.

End MergeProperties.

(** ** Subscription fold *)

Section FoldProperties.
Import Models Fold.

Implicit Types (h : heap) (x y t s : ContractUpdatesSubscription).

Lemma orFlags_assoc x y z : orFlags (orFlags x y) z = orFlags x (orFlags y z).
Proof. unfold orFlags; simpl. by rewrite !orb_assoc. Qed.

Lemma orFlags_idemp_r x y : orFlags (orFlags x y) y = orFlags x y.
Proof.
  unfold orFlags; simpl. f_equal; by destruct (_ x), (_ y).
Qed.

Lemma orFlags_false_l x :
  orFlags {| state := false; transactions := false |} x = x.
Proof. by destruct x. Qed.

Lemma orFlags_full x y :
  transactions x && state x = true -> orFlags x y = x.
Proof. destruct x as [[] []]; simpl; intros [=]. done. Qed.

Lemma leFlags_refl x : leFlags x x.
Proof. by split. Qed.

Lemma leFlags_orFlags x y z : leFlags x y -> leFlags (orFlags x z) (orFlags y z).
Proof.
  intros [Hs Ht]. split; simpl; intros [H|H]%orb_true_iff; apply orb_true_iff; auto.
Qed.

Lemma leFlags_orFlags_l x y z : leFlags x y -> leFlags x (orFlags y z).
Proof.
  intros [Hs Ht]. split; simpl; intros H; apply orb_true_iff; auto.
Qed.

Lemma orReduction_cons h l ls :
  orReduction h (l :: ls) = orFlags (flagsOf h l) (orReduction h ls).
Proof. done. Qed.

Lemma orReduction_cons_live h l ls s :
  h !! l = Some s ->
  orReduction h (l :: ls) = orFlags s (orReduction h ls).
Proof. intros H. rewrite orReduction_cons. unfold flagsOf. by rewrite H. Qed.

Lemma orReduction_ext h1 h2 ls :
  Forall (fun l => h1 !! l = h2 !! l) ls -> orReduction h1 ls = orReduction h2 ls.
Proof.
  induction 1 as [|l ls Hl _ IH]; [done|].
  rewrite !orReduction_cons, IH. unfold flagsOf. by rewrite Hl.
Qed.

(** The two [||=] assignments, taken together, OR the source into the
    target. *)
Lemma orAssignState_eq h target source t s :
  h !! target = Some t -> h !! source = Some s ->
  orAssignState h target source =
    Some (<[target := {| state := state t || state s;
                         transactions := transactions t |}]> h).
Proof.
  intros Ht Hs. unfold orAssignState. rewrite Ht. simpl.
  destruct t as [[] tt]; simpl.
  - by rewrite insert_id.
  - by rewrite Hs.
Qed.

Lemma orAssignTransactions_eq h target source t s :
  h !! target = Some t -> h !! source = Some s ->
  orAssignTransactions h target source =
    Some (<[target := {| state := state t;
                         transactions := transactions t || transactions s |}]> h).
Proof.
  intros Ht Hs. unfold orAssignTransactions. rewrite Ht. simpl.
  destruct t as [ts []]; simpl.
  - by rewrite insert_id.
  - by rewrite Hs.
Qed.

Lemma orAssign_both h target source t s :
  target <> source ->
  h !! target = Some t -> h !! source = Some s ->
  (h1 ← orAssignState h target source; orAssignTransactions h1 target source) =
    Some (<[target := orFlags t s]> h).
Proof.
  intros Hne Ht Hs.
  rewrite (orAssignState_eq h target source t s) by done. simpl.
  erewrite orAssignTransactions_eq;
    [| apply lookup_insert_eq | by rewrite lookup_insert_ne].
  simpl. by rewrite insert_insert_eq.
Qed.

(** The loop when [before] and [after] are two objects: [after] collects
    every item but [except], and stays below [before]. *)
Lemma forOf_distinct b a except items : forall h vb va,
  b <> a ->
  h !! b = Some vb -> h !! a = Some va ->
  Forall (fun l => is_Some (h !! l) /\ l <> b /\ l <> a) items ->
  leFlags va vb ->
  exists h' vb',
    forOf h b a except items = Some h' /\
    h' !! b = Some vb' /\
    h' !! a = Some (orFlags va (orReduction h (filter (fun l => Some l <> except) items))) /\
    leFlags (orFlags va (orReduction h (filter (fun l => Some l <> except) items))) vb' /\
    (forall l, l <> a -> l <> b -> h' !! l = h !! l).
Proof.
  induction items as [|item rest IH]; intros h vb va Hba Hb Ha Hlive Hle.
  - exists h, vb. simpl. rewrite filter_nil.
    replace (orFlags va (orReduction h [])) with va
      by (destruct va; unfold orFlags; simpl; by rewrite !orb_false_r).
    done.
  - apply Forall_cons in Hlive as [([s Hs] & Hib & Hia) Hrest].
    simpl. rewrite Ha. simpl.
    destruct (transactions va && state va) eqn:Hfull.
    { exists h, vb. rewrite orFlags_full by done. done. }
    pose proof (orAssign_both h b item vb s (not_eq_sym Hib) Hb Hs) as Hstep.
    simpl in Hstep.
    destruct (orAssignState h b item) as [h1|] eqn:E1; [|done].
    simpl in *. rewrite Hstep. simpl. clear Hstep E1 h1.
    set (h2 := <[b := orFlags vb s]> h).
    assert (Hrest2 : forall h3, (forall l, l <> a -> l <> b -> h3 !! l = h !! l) ->
              Forall (fun l => is_Some (h3 !! l) /\ l <> b /\ l <> a) rest).
    { intros h3 Hsame. eapply Forall_impl; [exact Hrest|].
      intros l (Hl & Hlb & Hla). by rewrite Hsame. }
    assert (Hext : forall h3 ls, (forall l, l <> a -> l <> b -> h3 !! l = h !! l) ->
              Forall (fun l => l <> b /\ l <> a) ls ->
              orReduction h3 ls = orReduction h ls).
    { intros h3 ls Hsame Hls. apply orReduction_ext.
      eapply Forall_impl; [exact Hls|]. intros l [? ?]. by apply Hsame. }
    assert (Hfilt : Forall (fun l => l <> b /\ l <> a)
                      (filter (fun l => Some l <> except) rest)).
    { apply Forall_forall. intros l [_ Hl]%list_elem_of_filter.
      rewrite Forall_forall in Hrest. by destruct (Hrest l Hl) as (_ & ? & ?). }
    destruct (decide (Some item <> except)) as [Hne|Heq].
    + assert (Ha2 : h2 !! a = Some va) by (unfold h2; by rewrite lookup_insert_ne).
      assert (Hs2 : h2 !! item = Some s) by (unfold h2; by rewrite lookup_insert_ne).
      pose proof (orAssign_both h2 a item va s (not_eq_sym Hia) Ha2 Hs2) as Hstep.
      simpl in Hstep.
      destruct (orAssignState h2 a item) as [h'|] eqn:E2; [|done].
      simpl in *. rewrite Hstep. simpl. clear Hstep E2 h'.
      set (h3 := <[a := orFlags va s]> h2).
      assert (Hsame : forall l, l <> a -> l <> b -> h3 !! l = h !! l).
      { intros l Hla Hlb. unfold h3, h2. by rewrite !lookup_insert_ne. }
      destruct (IH h3 (orFlags vb s) (orFlags va s)) as (h' & vb' & Hrun & Hb' & Ha' & Hle' & Hkeep).
      * done.
      * unfold h3, h2. rewrite lookup_insert_ne by done. apply lookup_insert_eq.
      * apply lookup_insert_eq.
      * by apply Hrest2.
      * by apply leFlags_orFlags.
      * rewrite (Hext h3) in Ha', Hle' by done.
        rewrite filter_cons_True by done.
        rewrite (orReduction_cons_live _ _ _ _ Hs).
        rewrite <- orFlags_assoc.
        exists h', vb'. repeat split; try done; try apply Hle'.
        intros l Hla Hlb. rewrite Hkeep by done. by apply Hsame.
    + assert (Hsame : forall l, l <> a -> l <> b -> h2 !! l = h !! l).
      { intros l Hla Hlb. unfold h2. by rewrite lookup_insert_ne. }
      destruct (IH h2 (orFlags vb s) va) as (h' & vb' & Hrun & Hb' & Ha' & Hle' & Hkeep).
      * done.
      * apply lookup_insert_eq.
      * unfold h2. by rewrite lookup_insert_ne.
      * by apply Hrest2.
      * by apply leFlags_orFlags_l.
      * rewrite (Hext h2) in Ha', Hle' by done.
        rewrite filter_cons_False by done.
        exists h', vb'. repeat split; try done; try apply Hle'.
        intros l Hla Hlb. rewrite Hkeep by done. by apply Hsame.
Qed.

(** The loop when [after] is [before] itself: the one object collects
    every item. *)
Lemma forOf_aliased b items : forall h vb,
  h !! b = Some vb ->
  Forall (fun l => is_Some (h !! l) /\ l <> b) items ->
  exists h',
    forOf h b b None items = Some h' /\
    h' !! b = Some (orFlags vb (orReduction h items)) /\
    (forall l, l <> b -> h' !! l = h !! l).
Proof.
  induction items as [|item rest IH]; intros h vb Hb Hlive.
  - exists h. simpl.
    replace (orFlags vb (orReduction h [])) with vb
      by (destruct vb; unfold orFlags; simpl; by rewrite !orb_false_r).
    done.
  - apply Forall_cons in Hlive as [([s Hs] & Hib) Hrest].
    simpl. rewrite Hb. simpl.
    destruct (transactions vb && state vb) eqn:Hfull.
    { exists h. rewrite orFlags_full by done. done. }
    pose proof (orAssign_both h b item vb s (not_eq_sym Hib) Hb Hs) as Hstep.
    simpl in Hstep.
    destruct (orAssignState h b item) as [h1|] eqn:E1; [|done].
    simpl in *. rewrite Hstep. simpl. clear Hstep E1 h1.
    set (h2 := <[b := orFlags vb s]> h).
    assert (Hb2 : h2 !! b = Some (orFlags vb s)) by apply lookup_insert_eq.
    assert (Hs2 : h2 !! item = Some s) by (unfold h2; by rewrite lookup_insert_ne).
    destruct (decide (Some item <> None)) as [_|Hn]; [|by destruct Hn].
    pose proof (orAssign_both h2 b item _ s (not_eq_sym Hib) Hb2 Hs2) as Hstep.
    simpl in Hstep.
    destruct (orAssignState h2 b item) as [h'|] eqn:E2; [|done].
    simpl in *. rewrite Hstep. simpl. clear Hstep E2 h'.
    rewrite orFlags_idemp_r. unfold h2. rewrite insert_insert_eq. fold h2.
    destruct (IH h2 (orFlags vb s)) as (h' & Hrun & Hb' & Hkeep).
    + done.
    + eapply Forall_impl; [exact Hrest|]. intros l [Hl Hlb].
      unfold h2. by rewrite lookup_insert_ne.
    + exists h'. split; [done|]. split.
      * rewrite Hb'. rewrite (orReduction_cons_live _ _ _ _ Hs).
        rewrite orFlags_assoc. do 3 f_equal. apply orReduction_ext.
        eapply Forall_impl; [exact Hrest|]. intros l [_ Hlb].
        unfold h2. by rewrite lookup_insert_ne.
      * intros l Hlb. rewrite Hkeep by done. unfold h2. by rewrite lookup_insert_ne.
Qed.

Lemma fresh_not_live h : h !! fresh (dom h) = None.
Proof. apply not_elem_of_dom, is_fresh. Qed.

(** With an [except] argument: two objects, [after] holding the OR of
    all items but [except]. *)
Lemma foldSubscriptions_except h subscriptions e :
  live h subscriptions ->
  exists h' r vb,
    foldSubscriptions h subscriptions (Some e) = Some (h', r) /\
    before r <> after r /\
    h' !! before r = Some vb /\
    h' !! after r =
      Some (orReduction h (filter (fun l => Some l <> Some e) subscriptions)) /\
    leFlags (orReduction h (filter (fun l => Some l <> Some e) subscriptions)) vb.
Proof.
  intros Hlive. unfold foldSubscriptions.
  set (b := fresh (dom h)).
  set (zero := {| state := false; transactions := false |}).
  set (h0 := <[b := zero]> h).
  assert (Hb : h !! b = None) by apply fresh_not_live.
  destruct (decide (Some e <> None)) as [_|Hn]; [|by destruct Hn].
  unfold objectAssignEmpty. replace (h0 !! b) with (Some zero)
    by (symmetry; apply lookup_insert_eq).
  simpl.
  set (a := fresh (dom h0)).
  assert (Ha : h0 !! a = None) by apply fresh_not_live.
  assert (Hba : b <> a).
  { intros <-. unfold h0 in Ha. by rewrite lookup_insert_eq in Ha. }
  assert (Ha' : h !! a = None).
  { unfold h0 in Ha. by rewrite lookup_insert_ne in Ha. }
  set (h1 := <[a := zero]> h0).
  assert (Hsame : forall l, is_Some (h !! l) -> h1 !! l = h !! l /\ l <> b /\ l <> a).
  { intros l [v Hl].
    assert (l <> b) by (intros ->; congruence).
    assert (l <> a) by (intros ->; congruence).
    unfold h1, h0. by rewrite !lookup_insert_ne. }
  destruct (forOf_distinct b a (Some e) subscriptions h1 zero zero)
    as (h' & vb' & Hrun & Hb' & Hafter & Hle & _).
  - done.
  - unfold h1, h0. rewrite lookup_insert_ne by done. apply lookup_insert_eq.
  - apply lookup_insert_eq.
  - eapply Forall_impl; [exact Hlive|]. intros l Hl.
    destruct (Hsame l Hl) as (-> & ? & ?). done.
  - apply leFlags_refl.
  - rewrite orFlags_false_l in Hafter, Hle.
    assert (Hred : orReduction h1 (filter (fun l => Some l <> Some e) subscriptions)
                   = orReduction h (filter (fun l => Some l <> Some e) subscriptions)).
    { apply orReduction_ext, Forall_forall.
      intros l [_ Hl]%list_elem_of_filter.
      unfold live in Hlive. rewrite Forall_forall in Hlive.
      by destruct (Hsame l (Hlive l Hl)) as [-> _]. }
    rewrite Hred in Hafter, Hle.
    rewrite Hrun. simpl. eexists _, _, vb'. split; [reflexivity|]. done.
Qed.

(** Without an [except] argument: one object, returned twice. *)
Lemma foldSubscriptions_no_except h subscriptions :
  live h subscriptions ->
  exists h' r,
    foldSubscriptions h subscriptions None = Some (h', r) /\
    after r = before r /\
    h' !! before r = Some (orReduction h subscriptions).
Proof.
  intros Hlive. unfold foldSubscriptions.
  set (b := fresh (dom h)).
  set (zero := {| state := false; transactions := false |}).
  set (h0 := <[b := zero]> h).
  assert (Hb : h !! b = None) by apply fresh_not_live.
  destruct (decide (@None loc <> None)) as [Hn|_]; [by destruct Hn|].
  simpl.
  assert (Hsame : forall l, is_Some (h !! l) -> h0 !! l = h !! l /\ l <> b).
  { intros l [v Hl].
    assert (l <> b) by (intros ->; congruence).
    unfold h0. by rewrite lookup_insert_ne. }
  destruct (forOf_aliased b subscriptions h0 zero) as (h' & Hrun & Hb' & _).
  - apply lookup_insert_eq.
  - eapply Forall_impl; [exact Hlive|]. intros l Hl.
    destruct (Hsame l Hl) as (-> & ?). done.
  - rewrite orFlags_false_l in Hb'.
    rewrite Hrun. simpl. eexists _, _. split; [reflexivity|]. simpl.
    split; [done|]. rewrite Hb'. f_equal.
    apply orReduction_ext. eapply Forall_impl; [exact Hlive|].
    intros l Hl. by destruct (Hsame l Hl) as [-> _].
Qed.

(** C4: for a list of live subscriptions [S] and an object [e] that
    occurs in it, [foldSubscriptions(S, e)] returns an [after] whose state
    flag is the OR of the state flags, and whose transactions flag is the
    OR of the transactions flags, of [S] without [e] (objects are
    compared by identity), wherever [e] stands in [S]; the early exit of
    the loop does not change that. *)
Theorem foldSubscriptions_after_is_or_without_except h subscriptions e :
  live h subscriptions ->
  e ∈ subscriptions ->
  exists h' r,
    foldSubscriptions h subscriptions (Some e) = Some (h', r) /\
    h' !! after r = Some (orReduction h (filter (fun l => l <> e) subscriptions)).
Proof.
  intros Hlive _.
  destruct (foldSubscriptions_except h subscriptions e Hlive)
    as (h' & r & vb & Hrun & _ & _ & Hafter & _).
  exists h', r. split; [done|]. rewrite Hafter. do 2 f_equal.
  apply list_filter_iff. intros l. split; intros H; congruence.
Qed.

Lemma foldSubscriptions_after_is_or_without_except_witness :
  exists h' r,
    foldSubscriptions
      {[ 0 := {| state := true; transactions := false |};
         1 := {| state := true; transactions := false |};
         2 := {| state := false; transactions := true |} ]}
      [0; 1; 2] (Some 1) = Some (h', r) /\
    h' !! after r = Some {| state := true; transactions := true |}.
Proof.
  destruct (foldSubscriptions_after_is_or_without_except
              {[ 0 := {| state := true; transactions := false |};
                 1 := {| state := true; transactions := false |};
                 2 := {| state := false; transactions := true |} ]}
              [0; 1; 2] 1) as (h' & r & Hrun & Hafter).
  - unfold live. repeat first [apply Forall_nil_2 | apply Forall_cons_2];
      eexists; reflexivity.
  - apply list_elem_of_In. simpl. tauto.
  - exists h', r. split; [exact Hrun | exact Hafter].
Defined.

(** C9: for every list of live subscriptions and every [except], absent
    or not, the [after] returned by [foldSubscriptions] is pointwise at
    most the [before]: [after.state] implies [before.state] and
    [after.transactions] implies [before.transactions]. *)
Theorem foldSubscriptions_after_implies_before h subscriptions except :
  live h subscriptions ->
  exists h' r vb va,
    foldSubscriptions h subscriptions except = Some (h', r) /\
    h' !! before r = Some vb /\
    h' !! after r = Some va /\
    (state va = true -> state vb = true) /\
    (transactions va = true -> transactions vb = true).
Proof.
  intros Hlive. destruct except as [e|].
  - destruct (foldSubscriptions_except h subscriptions e Hlive)
      as (h' & r & vb & Hrun & _ & Hb & Ha & Hs & Ht).
    by eexists h', r, vb, _.
  - destruct (foldSubscriptions_no_except h subscriptions Hlive)
      as (h' & r & Hrun & Heq & Hb).
    eexists h', r, _, _. rewrite Heq. done.
Qed.

Lemma foldSubscriptions_after_implies_before_witness :
  exists h' r vb va,
    foldSubscriptions
      {[ 0 := {| state := true; transactions := false |};
         1 := {| state := false; transactions := true |} ]}
      [0; 1] (Some 1) = Some (h', r) /\
    h' !! before r = Some vb /\
    h' !! after r = Some va /\
    (state va = true -> state vb = true) /\
    (transactions va = true -> transactions vb = true).
Proof.
  apply (foldSubscriptions_after_implies_before
           {[ 0 := {| state := true; transactions := false |};
              1 := {| state := false; transactions := true |} ]}
           [0; 1] (Some 1)).
  unfold live. repeat first [apply Forall_nil_2 | apply Forall_cons_2];
    eexists; reflexivity.
Defined.

(** C7, as the code has it: without an [except] argument the returned
    [after] is the very object returned as [before].  The two have the
    same flags, the OR over all subscriptions, and share their storage: a
    write through one is read through the other. *)
Theorem foldSubscriptions_no_except_same_object h subscriptions :
  live h subscriptions ->
  exists h' r,
    foldSubscriptions h subscriptions None = Some (h', r) /\
    after r = before r /\
    h' !! before r = Some (orReduction h subscriptions) /\
    h' !! after r = Some (orReduction h subscriptions) /\
    (forall w, <[before r := w]> h' !! after r = Some w).
Proof.
  intros Hlive.
  destruct (foldSubscriptions_no_except h subscriptions Hlive)
    as (h' & r & Hrun & Heq & Hb).
  exists h', r. rewrite Heq. repeat split; try done.
  intros w. apply lookup_insert_eq.
Qed.

Lemma foldSubscriptions_no_except_same_object_witness :
  exists h' r,
    foldSubscriptions {[ 0 := {| state := true; transactions := false |} ]} [0] None
      = Some (h', r) /\
    after r = before r /\
    h' !! before r = Some {| state := true; transactions := false |} /\
    h' !! after r = Some {| state := true; transactions := false |} /\
    (forall w, <[before r := w]> h' !! after r = Some w).
Proof.
  assert (Hlive : live {[ 0 := {| state := true; transactions := false |} ]} [0]).
  { unfold live. repeat first [apply Forall_nil_2 | apply Forall_cons_2];
      eexists; reflexivity. }
  exact (foldSubscriptions_no_except_same_object
           {[ 0 := {| state := true; transactions := false |} ]} [0] Hlive).
Defined.

(** C7, as stated, fails: called on no subscriptions and without
    [except], the function returns one object twice, so setting both flags
    of [before] changes what [after] reads. *)
Lemma foldSubscriptions_no_except_not_independent :
  exists h' r,
    foldSubscriptions ∅ [] None = Some (h', r) /\
    before r = after r /\
    <[before r := {| state := true; transactions := true |}]> h' !! after r
      <> h' !! after r.
Proof.
  eexists _, _. split; [reflexivity|]. split; [reflexivity|].
  vm_compute. discriminate.
Qed.

End FoldProperties.

(** ** Provider subscription manager *)

Section ClientProperties.
Import Models Fold Prototype Client.

Implicit Types (c : ProviderRpcClient) (provider : Provider).

Lemma contractEvents_not_global eventName :
  eventName ∈ contractEvents -> eventName ∉ globalEvents.
Proof.
  intros Hc%list_elem_of_In Hg%list_elem_of_In. simpl in *.
  destruct Hc as [<-|[<-|[]]]; intuition discriminate.
Qed.

(** No event of the taxonomy is named like a member of
    [Object.prototype]. *)
Lemma contractEvents_own eventName :
  eventName ∈ contractEvents -> objectPrototypeMember eventName = false.
Proof.
  intros Hc%list_elem_of_In. simpl in Hc. by destruct Hc as [<-|[<-|[]]].
Qed.

Lemma globalEvents_own eventName :
  eventName ∈ globalEvents -> objectPrototypeMember eventName = false.
Proof.
  intros Hg%list_elem_of_In. simpl in Hg. by destruct Hg as [<-|[<-|[<-|[<-|[]]]]].
Qed.

Lemma eventSubscriptions_container c eventName :
  objectPrototypeMember eventName = false ->
  _subscriptions (_getEventSubscriptions c eventName) !! eventName =
    Some (eventSubscriptions c eventName).
Proof.
  intros Hown. unfold _getEventSubscriptions, eventSubscriptions. rewrite Hown.
  destruct (_subscriptions c !! eventName) as [m|] eqn:E; simpl.
  - done.
  - apply lookup_insert_eq.
Qed.

Lemma eventSubscriptions_get c eventName ev :
  eventSubscriptions (_getEventSubscriptions c eventName) ev = eventSubscriptions c ev.
Proof.
  unfold _getEventSubscriptions, eventSubscriptions.
  destruct (_subscriptions c !! eventName) as [m|] eqn:E; simpl; [done|].
  destruct (objectPrototypeMember eventName); [done|]. simpl.
  destruct (decide (eventName = ev)) as [<-|Hne].
  - by rewrite lookup_insert_eq, E.
  - by rewrite lookup_insert_ne.
Qed.

(** [_getEventSubscriptions] does not touch the per-address map. *)
Lemma contractSubscriptions_getEvent c eventName :
  _contractSubscriptions (_getEventSubscriptions c eventName) = _contractSubscriptions c.
Proof.
  unfold _getEventSubscriptions.
  destruct (_subscriptions c !! eventName); [done|].
  by destruct (objectPrototypeMember eventName).
Qed.

Lemma contractSubscriptions_container c address :
  _contractSubscriptions (getContractSubscriptions c address) !! address =
    Some (contractSubscriptionsAt c address).
Proof.
  unfold getContractSubscriptions, contractSubscriptionsAt.
  destruct (_contractSubscriptions c !! address) as [m|] eqn:E; simpl.
  - done.
  - apply lookup_insert_eq.
Qed.

Lemma contractSubscriptionsAt_get c address a :
  contractSubscriptionsAt (getContractSubscriptions c address) a =
    contractSubscriptionsAt c a.
Proof.
  unfold getContractSubscriptions, contractSubscriptionsAt.
  destruct (_contractSubscriptions c !! address) as [m|] eqn:E; simpl; [done|].
  destruct (decide (address = a)) as [<-|Hne].
  - by rewrite lookup_insert_eq, E.
  - by rewrite lookup_insert_ne.
Qed.

(** [Object.values] hands out live objects only. *)
Lemma objectValues_live (o : gmap nat ContractUpdatesSubscription) :
  live o (objectValues o).
Proof.
  unfold live, objectValues. rewrite merge_sort_Permutation.
  apply Forall_forall. intros l Hl%elem_of_elements. by apply elem_of_dom.
Qed.

Lemma client_eq c c' :
  _subscriptions c = _subscriptions c' ->
  _contractSubscriptions c = _contractSubscriptions c' ->
  c = c'.
Proof. destruct c, c'; simpl; congruence. Qed.

Lemma subscriptions_getContract c address :
  _subscriptions (getContractSubscriptions c address) = _subscriptions c.
Proof.
  unfold getContractSubscriptions. by destruct (_contractSubscriptions c !! address).
Qed.

Lemma eventSubscriptions_getContract c address ev :
  eventSubscriptions (getContractSubscriptions c address) ev = eventSubscriptions c ev.
Proof. unfold eventSubscriptions. by rewrite subscriptions_getContract. Qed.

Lemma eventSubscriptions_setListener c eventName id f :
  eventSubscriptions (setListener c eventName id f) eventName =
    <[id := f]> (eventSubscriptions c eventName).
Proof.
  unfold eventSubscriptions at 1. simpl. by rewrite lookup_insert_eq.
Qed.

Lemma contractSubscriptionsAt_set c address id s :
  contractSubscriptionsAt (setContractSubscription c address id s) address =
    <[id := s]> (contractSubscriptionsAt c address).
Proof.
  unfold contractSubscriptionsAt at 1. simpl. by rewrite lookup_insert_eq.
Qed.

(** Undoing the two assignments of a failed attempt gives back the
    client as it stood once the containers were in place. *)
Lemma rollback_restores c eventName address id f s :
  is_Some (_subscriptions c !! eventName) ->
  eventSubscriptions c eventName !! id = None ->
  contractSubscriptionsAt c address !! id = None ->
  deleteContractSubscription
    (deleteListener
       (setContractSubscription
          (getContractSubscriptions (setListener c eventName id f) address)
          address id s)
       eventName id)
    address id
  = getContractSubscriptions c address.
Proof.
  intros [m Hm] Hid Hcid.
  assert (Hev : eventSubscriptions c eventName = m)
    by (unfold eventSubscriptions; by rewrite Hm).
  set (c1 := setListener c eventName id f).
  set (c2 := getContractSubscriptions c1 address).
  set (c3 := setContractSubscription c2 address id s).
  set (c4 := deleteListener c3 eventName id).
  assert (Hcon2 : _contractSubscriptions c2 =
                  _contractSubscriptions (getContractSubscriptions c address)).
  { unfold c2, getContractSubscriptions. simpl.
    by destruct (_contractSubscriptions c !! address). }
  apply client_eq.
  - rewrite subscriptions_getContract.
    change (_subscriptions (deleteContractSubscription c4 address id))
      with (<[eventName := delete id (eventSubscriptions c3 eventName)]>
              (_subscriptions c2)).
    change (eventSubscriptions c3 eventName) with (eventSubscriptions c2 eventName).
    unfold c2. rewrite eventSubscriptions_getContract, subscriptions_getContract.
    unfold c1. rewrite eventSubscriptions_setListener. simpl.
    rewrite insert_insert_eq, delete_insert_id by done.
    rewrite Hev. by apply insert_id.
  - change (_contractSubscriptions (deleteContractSubscription c4 address id))
      with (<[address := delete id (contractSubscriptionsAt c3 address)]>
              (_contractSubscriptions c3)).
    unfold c3. rewrite contractSubscriptionsAt_set. simpl.
    rewrite insert_insert_eq.
    assert (Hat : contractSubscriptionsAt c2 address = contractSubscriptionsAt c address)
      by (unfold c2; by rewrite contractSubscriptionsAt_get).
    rewrite Hat, delete_insert_id, Hcon2 by done.
    apply insert_id, contractSubscriptions_container.
Qed.

(** What the first closure of an address-scoped event does with an id
    that is not in use: it registers the listener and the flag-pair, and
    either issues no call, or issues one call that resolves, or issues one
    call that rejects and takes both entries out again. *)
Lemma subscribeContract_cases provider c eventName address id :
  is_Some (_subscriptions c !! eventName) ->
  eventSubscriptions c eventName !! id = None ->
  contractSubscriptionsAt c address !! id = None ->
  let registered :=
    setContractSubscription
      (getContractSubscriptions (setListener c eventName id (notifies id)) address)
      address id
      {| state := bool_decide (eventName = "contractStateChanged");
         transactions := bool_decide (eventName = "transactionsFound") |} in
  subscribeContract provider c eventName address id = (registered, [], None) \/
  (exists request,
     provider request = None /\
     subscribeContract provider c eventName address id = (registered, [request], None)) \/
  (exists request e,
     provider request = Some e /\
     subscribeContract provider c eventName address id =
       (getContractSubscriptions c address, [request], Some e)).
Proof.
  intros Hcontainer Hid Hcid registered.
  unfold subscribeContract. rewrite Hid. fold registered.
  destruct (foldSubscriptions_except (contractSubscriptionsAt registered address)
              (objectValues (contractSubscriptionsAt registered address)) id
              (objectValues_live _)) as (h & r & vb & -> & _).
  destruct (differ (flagsOf h (before r)) (flagsOf h (after r))); [|by left].
  right.
  destruct (provider (apiSubscribe address (flagsOf h (after r)))) as [e|] eqn:Hcall.
  - right. exists (apiSubscribe address (flagsOf h (after r))), e.
    split; [done|]. unfold registered.
    by rewrite rollback_restores.
  - left. by exists (apiSubscribe address (flagsOf h (after r))).
Qed.

(** C1, as the code has it: when the provider call issued by an
    address-scoped [subscribe] rejects, the call fails with the same
    reason, and the client is left as it stood before the call except that
    the container of the event name and the container of the address, if
    they were missing, now exist: every listener and every flag-pair under
    every event name and every address is as before, the new id in
    neither map. *)
Theorem subscribe_failed_call_rolls_back provider c eventName address id request e :
  eventName ∈ contractEvents ->
  unusedId c id ->
  issued (subscribe provider c eventName (Some address) id) = [request] ->
  provider request = Some e ->
  completion (subscribe provider c eventName (Some address) id) = Throws e /\
  client (subscribe provider c eventName (Some address) id) =
    getContractSubscriptions (_getEventSubscriptions c eventName) address /\
  (forall ev,
     eventSubscriptions (client (subscribe provider c eventName (Some address) id)) ev
     = eventSubscriptions c ev) /\
  (forall a,
     contractSubscriptionsAt (client (subscribe provider c eventName (Some address) id)) a
     = contractSubscriptionsAt c a) /\
  eventSubscriptions (client (subscribe provider c eventName (Some address) id))
    eventName !! id = None /\
  contractSubscriptionsAt (client (subscribe provider c eventName (Some address) id))
    address !! id = None.
Proof.
  intros Hev [Hid Hcid] Hissued Hfail.
  assert (Hstate :
    completion (subscribe provider c eventName (Some address) id) = Throws e /\
    client (subscribe provider c eventName (Some address) id) =
      getContractSubscriptions (_getEventSubscriptions c eventName) address).
  { unfold subscribe in *.
    destruct (decide (eventName ∈ globalEvents)) as [Hg|_];
      [by apply contractEvents_not_global in Hev|].
    destruct (decide (eventName ∈ contractEvents)) as [_|Hn]; [|done].
    set (c0 := _getEventSubscriptions c eventName) in *.
    destruct (subscribeContract_cases provider c0 eventName address id)
      as [Hrun|[(req & Hok & Hrun)|(req & e' & Hrej & Hrun)]].
    - unfold c0. rewrite eventSubscriptions_container by by apply contractEvents_own.
      by eexists.
    - unfold c0. by rewrite eventSubscriptions_get.
    - unfold c0, contractSubscriptionsAt. rewrite contractSubscriptions_getEvent.
      apply Hcid.
    - rewrite Hrun in Hissued. discriminate.
    - rewrite Hrun in Hissued. simpl in Hissued. injection Hissued as ->. congruence.
    - rewrite Hrun in Hissued |- *. simpl in *. injection Hissued as ->.
      split; [congruence | done]. }
  destruct Hstate as [Hthrow Hclient]. split; [done|]. split; [done|].
  rewrite Hclient.
  assert (Hevents : forall ev,
            eventSubscriptions
              (getContractSubscriptions (_getEventSubscriptions c eventName) address) ev
            = eventSubscriptions c ev).
  { intros ev. by rewrite eventSubscriptions_getContract, eventSubscriptions_get. }
  assert (Hflags : forall a,
            contractSubscriptionsAt
              (getContractSubscriptions (_getEventSubscriptions c eventName) address) a
            = contractSubscriptionsAt c a).
  { intros a. rewrite contractSubscriptionsAt_get.
    unfold contractSubscriptionsAt. by rewrite contractSubscriptions_getEvent. }
  repeat split; [done | done | by rewrite Hevents | by rewrite Hflags].
Qed.

Lemma subscribe_failed_call_rolls_back_witness :
  completion (subscribe rejecting emptyClient "transactionsFound" (Some "0:aa") 0)
    = Throws (Rejected "rejected") /\
  client (subscribe rejecting emptyClient "transactionsFound" (Some "0:aa") 0) =
    getContractSubscriptions (_getEventSubscriptions emptyClient "transactionsFound")
      "0:aa" /\
  (forall ev,
     eventSubscriptions
       (client (subscribe rejecting emptyClient "transactionsFound" (Some "0:aa") 0)) ev
     = eventSubscriptions emptyClient ev) /\
  (forall a,
     contractSubscriptionsAt
       (client (subscribe rejecting emptyClient "transactionsFound" (Some "0:aa") 0)) a
     = contractSubscriptionsAt emptyClient a) /\
  eventSubscriptions
    (client (subscribe rejecting emptyClient "transactionsFound" (Some "0:aa") 0))
    "transactionsFound" !! 0 = None /\
  contractSubscriptionsAt
    (client (subscribe rejecting emptyClient "transactionsFound" (Some "0:aa") 0))
    "0:aa" !! 0 = None.
Proof.
  apply (subscribe_failed_call_rolls_back rejecting emptyClient "transactionsFound"
           "0:aa" 0
           (apiSubscribe "0:aa" {| state := false; transactions := false |})
           (Rejected "rejected")).
  - apply list_elem_of_In. simpl. tauto.
  - split; intros k.
    + unfold eventSubscriptions. simpl. rewrite lookup_empty. apply lookup_empty.
    + unfold contractSubscriptionsAt. simpl. rewrite lookup_empty. apply lookup_empty.
  - vm_compute. reflexivity.
  - reflexivity.
Defined.

(** C1, as stated, fails: on a client with no subscriptions, a
    [subscribe('transactionsFound', {address})] whose provider call rejects
    leaves the two containers it created, so the client is not what it was
    before the call. *)
Lemma subscribe_failed_call_leaves_containers :
  issued (subscribe rejecting emptyClient "transactionsFound" (Some "0:aa") 0)
    = [apiSubscribe "0:aa" {| state := false; transactions := false |}] /\
  completion (subscribe rejecting emptyClient "transactionsFound" (Some "0:aa") 0)
    = Throws (Rejected "rejected") /\
  _subscriptions
    (client (subscribe rejecting emptyClient "transactionsFound" (Some "0:aa") 0))
    !! "transactionsFound" = Some ∅ /\
  _contractSubscriptions
    (client (subscribe rejecting emptyClient "transactionsFound" (Some "0:aa") 0))
    !! "0:aa" = Some ∅ /\
  client (subscribe rejecting emptyClient "transactionsFound" (Some "0:aa") 0)
    <> emptyClient.
Proof.
  repeat split; try (vm_compute; reflexivity).
  intros H.
  apply (f_equal (fun c => _contractSubscriptions c !! "0:aa")) in H.
  vm_compute in H. discriminate.
Qed.

(** C6, as the code has it: [subscribe] with an event name outside the
    taxonomy fails with the unknown-event error and issues no provider
    call; the per-address map is untouched and no listener is registered
    under any event name, but the per-event map gains an empty container
    for the unknown name when the lookup of that name found nothing,
    because the container is fetched before the name is checked.  The
    lookup finds something when a container is stored under the name, and
    also when the name is one [Object.prototype] defines: then nothing is
    stored. *)
Theorem subscribe_unknown_event provider c eventName params id :
  eventName ∉ globalEvents ->
  eventName ∉ contractEvents ->
  completion (subscribe provider c eventName params id) = Throws (UnknownEvent eventName) /\
  issued (subscribe provider c eventName params id) = [] /\
  _contractSubscriptions (client (subscribe provider c eventName params id))
    = _contractSubscriptions c /\
  _subscriptions (client (subscribe provider c eventName params id))
    = (match _subscriptions c !! eventName with
       | Some _ => _subscriptions c
       | None =>
           if objectPrototypeMember eventName then _subscriptions c
           else <[eventName := ∅]> (_subscriptions c)
       end) /\
  (forall ev,
     eventSubscriptions (client (subscribe provider c eventName params id)) ev
     = eventSubscriptions c ev).
Proof.
  intros Hg Hc. unfold subscribe.
  destruct (decide (eventName ∈ globalEvents)) as [?|_]; [done|].
  destruct (decide (eventName ∈ contractEvents)) as [?|_]; [done|].
  simpl. repeat split.
  - apply contractSubscriptions_getEvent.
  - unfold _getEventSubscriptions. destruct (_subscriptions c !! eventName); [done|].
    by destruct (objectPrototypeMember eventName).
  - intros ev. apply eventSubscriptions_get.
Qed.

Lemma subscribe_unknown_event_witness :
  completion (subscribe rejecting emptyClient "blockFound" None 0)
    = Throws (UnknownEvent "blockFound") /\
  issued (subscribe rejecting emptyClient "blockFound" None 0) = [] /\
  _contractSubscriptions (client (subscribe rejecting emptyClient "blockFound" None 0))
    = _contractSubscriptions emptyClient /\
  _subscriptions (client (subscribe rejecting emptyClient "blockFound" None 0))
    = (match _subscriptions emptyClient !! "blockFound" with
       | Some _ => _subscriptions emptyClient
       | None =>
           if objectPrototypeMember "blockFound" then _subscriptions emptyClient
           else <[("blockFound" : string) := ∅]> (_subscriptions emptyClient)
       end) /\
  (forall ev,
     eventSubscriptions (client (subscribe rejecting emptyClient "blockFound" None 0)) ev
     = eventSubscriptions emptyClient ev).
Proof.
  apply (subscribe_unknown_event rejecting emptyClient "blockFound" None 0).
  - intros H%list_elem_of_In. simpl in H. intuition discriminate.
  - intros H%list_elem_of_In. simpl in H. intuition discriminate.
Defined.

(** C6, as stated, fails: after [subscribe] with the unknown name
    "blockFound" on a client with no subscriptions, the per-event map holds
    an entry for that name. *)
Lemma subscribe_unknown_event_mutates :
  completion (subscribe rejecting emptyClient "blockFound" None 0)
    = Throws (UnknownEvent "blockFound") /\
  _subscriptions emptyClient !! "blockFound" = None /\
  _subscriptions (client (subscribe rejecting emptyClient "blockFound" None 0))
    !! "blockFound" = Some ∅ /\
  _subscriptions (client (subscribe rejecting emptyClient "blockFound" None 0))
    <> _subscriptions emptyClient.
Proof.
  repeat split; try (vm_compute; reflexivity).
  intros H. apply (f_equal (fun m => m !! "blockFound")) in H.
  vm_compute in H. discriminate.
Qed.

End ClientProperties.

(** ** ABI token codec *)

Section CodecProperties.
Import Prototype Codec.

Implicit Types (fields result : list (string * TokenValue)) (key k : string).

(** *** Objects *)

Lemma getOwn_None fields k : getOwn fields k = None <-> k ∉ map fst fields.
Proof.
  induction fields as [|[k0 w] rest IH]; simpl.
  - split; [intros _; apply not_elem_of_nil | done].
  - rewrite not_elem_of_cons. destruct (String.eqb_spec k0 k) as [->|Hne].
    + split; [done | intros [? _]; done].
    + rewrite IH. split; [intros ?; split; congruence | intros [_ ?]; done].
Qed.

Lemma getOwn_replaceOwn fields k v k' :
  is_Some (getOwn fields k) ->
  getOwn (replaceOwn fields k v) k' =
    if String.eqb k k' then Some v else getOwn fields k'.
Proof.
  induction fields as [|[k0 w] rest IH]; simpl; intros Hk.
  - by destruct Hk.
  - destruct (String.eqb_spec k0 k) as [->|Hne]; simpl.
    + by destruct (String.eqb_spec k k').
    + destruct (String.eqb_spec k0 k') as [->|Hne'].
      * by destruct (String.eqb_spec k k').
      * by apply IH.
Qed.

Lemma getOwn_insertIndexed fields n k v k' :
  getOwn fields k = None ->
  getOwn (insertIndexed fields n k v) k' =
    if String.eqb k k' then Some v else getOwn fields k'.
Proof.
  induction fields as [|[k0 w] rest IH]; simpl; intros Hk.
  - done.
  - destruct (String.eqb_spec k0 k) as [->|Hne]; [done|].
    destruct (arrayIndex k0) as [m|]; [destruct (n <? m)%N|]; simpl; try done.
    destruct (String.eqb_spec k0 k') as [->|Hne'].
    + by destruct (String.eqb_spec k k').
    + by apply IH.
Qed.

Lemma getOwn_app_new fields k v k' :
  getOwn fields k = None ->
  getOwn (fields ++ [(k, v)]) k' =
    if String.eqb k k' then Some v else getOwn fields k'.
Proof.
  induction fields as [|[k0 w] rest IH]; simpl; intros Hk.
  - done.
  - destruct (String.eqb_spec k0 k) as [->|Hne]; [done|].
    destruct (String.eqb_spec k0 k') as [->|Hne'].
    + by destruct (String.eqb_spec k k').
    + by apply IH.
Qed.

(** Reading back after [result[k] = v], under a name other than
    [__proto__]. *)
Lemma getOwn_setProperty fields k v k' :
  k' <> "__proto__" ->
  getOwn (setProperty fields k v) k' =
    if String.eqb k k' then Some v else getOwn fields k'.
Proof.
  intros Hk'. unfold setProperty. destruct (getOwn fields k) as [w|] eqn:Hk.
  - apply getOwn_replaceOwn. by rewrite Hk.
  - destruct (String.eqb_spec k "__proto__") as [->|Hproto].
    + by destruct (String.eqb_spec "__proto__" k').
    + destruct (arrayIndex k); [by apply getOwn_insertIndexed | by apply getOwn_app_new].
Qed.

Lemma keys_replaceOwn fields k v :
  map fst (replaceOwn fields k v) = map fst fields.
Proof.
  induction fields as [|[k0 w] rest IH]; simpl; [done|].
  destruct (String.eqb k0 k); simpl; [done | by rewrite IH].
Qed.

Lemma keys_insertIndexed fields n k v :
  map fst (insertIndexed fields n k v) ≡ₚ k :: map fst fields.
Proof.
  induction fields as [|[k0 w] rest IH]; simpl; [done|].
  destruct (arrayIndex k0) as [m|]; [destruct (n <? m)%N|]; simpl; try done.
  rewrite IH. apply (Permutation_swap k k0).
Qed.

(** The names of an object after an assignment: unchanged when the name
    was there or is [__proto__], one more otherwise. *)
Lemma keys_setProperty fields k v :
  ((k ∈ map fst fields \/ k = "__proto__") /\
   map fst (setProperty fields k v) = map fst fields) \/
  ((k ∉ map fst fields) /\ k <> "__proto__" /\
   map fst (setProperty fields k v) ≡ₚ k :: map fst fields).
Proof.
  unfold setProperty. destruct (getOwn fields k) as [w|] eqn:Hk.
  - left. split; [|apply keys_replaceOwn]. left.
    destruct (decide (k ∈ map fst fields)) as [|Hn]; [done|].
    apply getOwn_None in Hn. congruence.
  - destruct (String.eqb_spec k "__proto__") as [->|Hproto].
    + left. split; [by right | done].
    + right. split; [by apply getOwn_None|]. split; [done|].
      destruct (arrayIndex k).
      * apply keys_insertIndexed.
      * rewrite map_app. simpl. by rewrite Permutation_app_comm.
Qed.

Lemma setProperty_new_plain fields k v :
  k ∉ map fst fields -> arrayIndex k = None -> k <> "__proto__" ->
  setProperty fields k v = fields ++ [(k, v)].
Proof.
  intros Hk%getOwn_None Hidx Hproto%String.eqb_neq. unfold setProperty.
  by rewrite Hk, Hproto, Hidx.
Qed.

(** *** The parser always has enough fuel *)

Lemma length_sliceTo s n : String.length (sliceTo s n) = min n (String.length s).
Proof.
  revert s. induction n as [|n IH]; intros [|c s]; simpl; try done.
  by rewrite IH.
Qed.

Lemma length_sliceFrom s n : String.length (sliceFrom s n) = String.length s - n.
Proof.
  revert s. induction n as [|n IH]; intros [|c s]; simpl; try done.
Qed.

Lemma split_lengths sep s :
  exists p ps,
    split sep s = p :: ps /\
    String.length p + list_sum (map (fun q => S (String.length q)) ps)
      = String.length s.
Proof.
  induction s as [|c s (p & ps & Hsplit & Hlen)]; simpl.
  - by exists "", [].
  - rewrite Hsplit. destruct (Ascii.eqb c sep).
    + exists "", (p :: ps). split; [done|]. simpl. lia.
    + exists (String c p), ps. split; [done|]. simpl. lia.
Qed.

Lemma array_item_type_shorter t :
  String.eqb (sliceEnd t 2) t = false ->
  String.length (sliceEnd t 2) < String.length t.
Proof.
  unfold sliceEnd. intros Hne. rewrite length_sliceTo.
  destruct t as [|c t]; [done|]. simpl. lia.
Qed.

Lemma map_key_type_shorter t :
  startsWith t "map" = true ->
  String.length (sliceFrom (nth 0 (split "," t) "") 4) < String.length t.
Proof.
  intros Hmap. rewrite length_sliceFrom.
  destruct (split_lengths "," t) as (p & ps & -> & Hlen). simpl.
  destruct t as [|c t]; [done|]. simpl in *. lia.
Qed.

Lemma map_value_type_shorter t valueType :
  split "," t !! 1 = Some valueType ->
  String.length (sliceEnd valueType 1) < String.length t.
Proof.
  destruct (split_lengths "," t) as (p & ps & -> & Hlen).
  destruct ps as [|q ps]; [done|]. simpl. intros [= ->].
  unfold sliceEnd. rewrite length_sliceTo. simpl in Hlen. lia.
Qed.

Lemma paramSize_eq n t cs :
  paramSize (mkAbiParam n t cs) =
    S (String.length t + match cs with
                         | None => 0
                         | Some l => list_sum (map paramSize l)
                         end).
Proof.
  simpl. destruct cs as [l|]; [|done]. do 2 f_equal.
  induction l as [|c l IH]; simpl; [done | by rewrite IH].
Qed.

Lemma paramSize_component comps c :
  c ∈ comps -> paramSize c <= list_sum (map paramSize comps).
Proof.
  induction 1 as [c l|c c' l _ IH]; simpl; lia.
Qed.

Lemma forEachPush_ext {A B} (f g : A -> Result B) items :
  (forall a, f a = g a) -> forEachPush f items = forEachPush g items.
Proof.
  intros H. induction items as [|a items IH]; simpl; [done|]. by rewrite H, IH.
Qed.

Lemma forEachAssign_ext {A R} (f g : R -> A -> Result R) items : forall acc : R,
  (forall r a, a ∈ items -> f r a = g r a) ->
  forEachAssign f items acc = forEachAssign g items acc.
Proof.
  induction items as [|a items IH]; intros acc H; simpl; [done|].
  rewrite (H acc a) by by left. destruct (g acc a); simpl; try done.
  apply IH. intros r b Hb. apply H. by right.
Qed.

Lemma forEachPush_fuel {A B} (f : A -> Result B) items :
  (forall a, f a <> OutOfFuel) -> forEachPush f items <> OutOfFuel.
Proof.
  intros H. induction items as [|a items IH]; simpl; [done|].
  specialize (H a). destruct (f a); simpl; try done.
  by destruct (forEachPush f items).
Qed.

Lemma forEachAssign_fuel {A R} (f : R -> A -> Result R) items : forall acc : R,
  (forall r a, a ∈ items -> f r a <> OutOfFuel) ->
  forEachAssign f items acc <> OutOfFuel.
Proof.
  induction items as [|a items IH]; intros acc H; simpl; [done|].
  pose proof (H acc a (list_elem_of_here _ _)) as Ha.
  destruct (f acc a); simpl; try done.
  apply IH. intros r b Hb. apply H. by right.
Qed.

Lemma bind_fuel {A B} (r : Result A) (k : A -> Result B) :
  r <> OutOfFuel -> (forall a, k a <> OutOfFuel) -> bind r k <> OutOfFuel.
Proof. destruct r; simpl; auto. Qed.

Lemma getProperty_fuel token key : getProperty token key <> OutOfFuel.
Proof.
  destruct token; simpl; try done;
    destruct (arrayIndex key); try done; by destruct (String.eqb key "length").
Qed.

Lemma iterate_fuel token : iterate token <> OutOfFuel.
Proof. by destruct token. Qed.

(** Fuel that covers the size of the parameter is never used up. *)
Lemma parseTokenValueFuel_enough fuel : forall param token,
  paramSize param <= fuel -> parseTokenValueFuel fuel param token <> OutOfFuel.
Proof.
  induction fuel as [|fuel IH]; intros [n t cs] token Hsize.
  { rewrite paramSize_eq in Hsize. lia. }
  rewrite paramSize_eq in Hsize. simpl.
  destruct (startsWith t "map") eqn:Hmap; simpl.
  - destruct (split "," t !! 1) as [valueType|] eqn:Hvalue; [|done].
    pose proof (map_key_type_shorter t Hmap) as Hk.
    pose proof (map_value_type_shorter t valueType Hvalue) as Hv.
    apply bind_fuel; [apply iterate_fuel|]. intros entries.
    apply bind_fuel; [|done].
    apply forEachPush_fuel. intros entry.
    apply bind_fuel; [apply iterate_fuel|]. intros pair.
    apply bind_fuel; [apply IH; rewrite paramSize_eq; lia|]. intros k.
    apply bind_fuel; [apply IH; rewrite paramSize_eq; lia|]. done.
  - destruct (negb (String.eqb (if endsWith t "[]" then sliceEnd t 2 else t) t))
      eqn:Harray.
    + apply negb_true_iff in Harray.
      destruct (endsWith t "[]"); [|by rewrite String.eqb_refl in Harray].
      pose proof (array_item_type_shorter t Harray) as Hshort.
      apply bind_fuel; [apply iterate_fuel|]. intros items.
      apply bind_fuel; [|done].
      apply forEachPush_fuel. intros item.
      apply IH. rewrite paramSize_eq. lia.
    + destruct (String.eqb _ "tuple").
      * destruct cs as [comps|]; [|done].
        apply bind_fuel; [|done].
        apply forEachAssign_fuel. intros r c Hc.
        apply bind_fuel; [apply getProperty_fuel|]. intros raw.
        apply bind_fuel; [|done].
        apply IH. pose proof (paramSize_component comps c Hc). lia.
      * by destruct (String.eqb _ "address").
Qed.

(** [parseTokenValue] returns a value or throws: it is total. *)
Lemma parseTokenValue_total param token : parseTokenValue param token <> OutOfFuel.
Proof. by apply parseTokenValueFuel_enough. Qed.

(** More fuel does not change the result. *)
Lemma parseTokenValueFuel_more fuel : forall param token fuel',
  paramSize param <= fuel -> fuel <= fuel' ->
  parseTokenValueFuel fuel' param token = parseTokenValueFuel fuel param token.
Proof.
  induction fuel as [|fuel IH]; intros [n t cs] token fuel' Hsize Hle.
  { rewrite paramSize_eq in Hsize. lia. }
  destruct fuel' as [|fuel']; [lia|].
  rewrite paramSize_eq in Hsize. simpl.
  destruct (startsWith t "map") eqn:Hmap; simpl.
  - destruct (split "," t !! 1) as [valueType|] eqn:Hvalue; [|done].
    pose proof (map_key_type_shorter t Hmap) as Hk.
    pose proof (map_value_type_shorter t valueType Hvalue) as Hv.
    destruct (iterate token) as [entries| |]; simpl; try done.
    f_equal. apply forEachPush_ext. intros entry.
    destruct (iterate entry) as [pair| |]; simpl; try done.
    rewrite !(IH _ _ fuel') by (rewrite ?paramSize_eq; lia). done.
  - destruct (negb (String.eqb (if endsWith t "[]" then sliceEnd t 2 else t) t))
      eqn:Harray.
    + apply negb_true_iff in Harray.
      destruct (endsWith t "[]"); [|by rewrite String.eqb_refl in Harray].
      pose proof (array_item_type_shorter t Harray) as Hshort.
      destruct (iterate token) as [items| |]; simpl; try done.
      f_equal. apply forEachPush_ext. intros item.
      apply IH; [rewrite paramSize_eq|]; lia.
    + destruct (String.eqb _ "tuple"); [|done].
      destruct cs as [comps|]; [|done].
      f_equal. apply forEachAssign_ext. intros r c Hc.
      destruct (getProperty token (name c)) as [raw| |]; simpl; try done.
      pose proof (paramSize_component comps c Hc).
      rewrite (IH _ _ fuel') by lia. done.
Qed.

(** *** The loop of [parseTokensObject] *)

Lemma assignAll_keys_NoDup entries : forall result,
  NoDup (map fst result) -> NoDup (map fst (assignAll result entries)).
Proof.
  induction entries as [|[p v] rest IH]; intros result Hnd; simpl; [done|].
  apply IH.
  destruct (keys_setProperty result (name p) v) as [[_ ->]|(Hnew & _ & ->)]; [done|].
  by apply NoDup_cons.
Qed.

Lemma assignAll_keys_elem entries : forall result k,
  "__proto__" ∉ map (fun e => name (fst e)) entries ->
  k ∈ map fst (assignAll result entries) <->
  k ∈ map fst result \/ k ∈ map (fun e => name (fst e)) entries.
Proof.
  induction entries as [|[p v] rest IH]; intros result k Hproto; simpl.
  - split; [by left | intros [?|?%elem_of_nil]; done].
  - simpl in Hproto. apply not_elem_of_cons in Hproto as [Hp Hrest].
    rewrite IH, elem_of_cons by done.
    destruct (keys_setProperty result (name p) v)
      as [[[Hold|Hold] ->]|(Hnew & _ & ->)]; [|done|].
    + split; [intros [?|?]; auto | intros [?|[->|?]]; auto].
    + rewrite elem_of_cons. split; [intros [[->|?]|?]; auto | intros [?|[->|?]]; auto].
Qed.

Lemma assignAll_plain entries : forall result,
  NoDup (map fst result ++ map (fun e => name (fst e)) entries) ->
  Forall (fun e => arrayIndex (name (fst e)) = None) entries ->
  "__proto__" ∉ map (fun e => name (fst e)) entries ->
  assignAll result entries =
    result ++ map (fun e => (name (fst e), snd e)) entries.
Proof.
  induction entries as [|[p v] rest IH]; intros result Hnd Hplain Hproto; simpl.
  - by rewrite app_nil_r.
  - apply Forall_cons in Hplain as [Hp Hrest]. simpl in *.
    apply not_elem_of_cons in Hproto as [Hproto Hprotos].
    apply NoDup_app in Hnd as (Hnd1 & Hdisj & Hnd2).
    apply NoDup_cons in Hnd2 as [Hp2 Hnd2].
    assert (Hnew : name p ∉ map fst result).
    { intros Hin. apply (Hdisj _ Hin). by left. }
    rewrite setProperty_new_plain by done.
    rewrite IH; [by rewrite <- app_assoc | | done | done].
    rewrite map_app. simpl. apply NoDup_app. split; [|split; [|done]].
    + apply NoDup_app. split; [done|]. split; [|apply NoDup_singleton].
      intros k Hk ->%list_elem_of_singleton. done.
    + intros k [Hk| ->%list_elem_of_singleton]%elem_of_app Hin.
      * apply (Hdisj _ Hk). by right.
      * done.
Qed.

(** What a later assignment leaves under a name: the value of the last
    entry of that name. *)
Lemma assignAll_getOwn entries k w : forall result,
  k <> "__proto__" ->
  (forall e, e ∈ entries -> name (fst e) = k -> snd e = w) ->
  (exists e, e ∈ entries /\ name (fst e) = k) \/ getOwn result k = Some w ->
  getOwn (assignAll result entries) k = Some w.
Proof.
  induction entries as [|[p v] rest IH]; intros result Hproto Hall Hsome; simpl.
  - destruct Hsome as [(e & []%elem_of_nil & _)|?]; done.
  - apply IH; [done| |].
    + intros e He. apply Hall. by right.
    + rewrite getOwn_setProperty by done.
      destruct (String.eqb_spec (name p) k) as [Hk|Hne].
      * right. f_equal. apply (Hall (p, v)); [by left | done].
      * destruct Hsome as [(e & [->|He]%elem_of_cons & Hk)|Hres]; [done| |by right].
        left. by exists e.
Qed.

(** When every field parses, [parseTokensObject] returns the object the
    assignments build. *)
Lemma parseTokensObject_ok params object vs :
  Forall2 (parsesTo object) params vs ->
  parseTokensObject params object = Ok (VObject (assignAll [] (zip params vs))).
Proof.
  unfold parseTokensObject. generalize (@nil (string * TokenValue)).
  intros result H. revert result.
  induction H as [|p v params vs (raw & Hraw & Hv) _ IH]; intros result; simpl; [done|].
  rewrite Hraw. simpl. rewrite Hv. simpl. apply IH.
Qed.

Lemma zip_names params vs :
  length params = length vs ->
  map (fun e : AbiParam * TokenValue => name (fst e)) (zip params vs) = map name params.
Proof.
  revert vs. induction params as [|p params IH]; intros [|v vs]; simpl; try done.
  intros [=]. by rewrite IH.
Qed.

(** *** Scalars *)

Lemma parseTokenValue_scalar param token :
  isScalar (type param) = true -> parseTokenValue param token = Ok token.
Proof.
  unfold isScalar, parseTokenValue. destruct param as [n t cs]. simpl.
  intros (((Hmap & Harr)%andb_true_iff & Htup)%andb_true_iff & Haddr)%andb_true_iff.
  rewrite Hmap.
  apply negb_true_iff in Harr, Htup, Haddr. rewrite Harr.
  rewrite String.eqb_refl. simpl. by rewrite Htup, Haddr.
Qed.

Lemma Forall_exists_Forall2 {A B} (R : A -> B -> Prop) (l : list A) :
  Forall (fun a => exists b, R a b) l -> exists bs, Forall2 R l bs.
Proof.
  induction 1 as [|a l [b Hb] _ [bs Hbs]].
  - by exists [].
  - exists (b :: bs). by constructor.
Qed.

Lemma Forall2_zip_elem {A B} (R : A -> B -> Prop) (l : list A) (bs : list B) a b :
  Forall2 R l bs -> (a, b) ∈ zip l bs -> R a b /\ a ∈ l.
Proof.
  induction 1 as [|a' b' l bs Hab _ IH]; simpl.
  - by intros ?%elem_of_nil.
  - intros [[= -> ->]|Hin]%elem_of_cons.
    + split; [done | by left].
    + destruct (IH Hin). split; [done | by right].
Qed.

Lemma Forall2_zip_find {A B} (R : A -> B -> Prop) (l : list A) (bs : list B) a :
  Forall2 R l bs -> a ∈ l -> exists b, (a, b) ∈ zip l bs.
Proof.
  induction 1 as [|a' b' l bs Hab _ IH]; simpl.
  - by intros ?%elem_of_nil.
  - intros [->|Hin]%elem_of_cons.
    + exists b'. by left.
    + destruct (IH Hin) as [b Hb]. exists b. by right.
Qed.

(** *** The properties of the specification *)

(** C10, as the code has it: when every schema entry parses and no entry
    is named [__proto__] (an assignment to that name creates no field),
    [parseTokensObject] returns an object whose field names are pairwise
    distinct and are exactly the names that occur in the schema, so a field
    of the raw object that no entry names is not in the result; entries
    that share a name share one field.  When the names of the schema are
    pairwise distinct and none is an array index, the result has exactly
    one field per entry, keyed by the name of the entry, in schema
    order. *)
Theorem parseTokensObject_fields params object vs :
  Forall2 (parsesTo object) params vs ->
  "__proto__" ∉ map name params ->
  exists result,
    parseTokensObject params object = Ok (VObject result) /\
    NoDup (map fst result) /\
    (forall k, k ∈ map fst result <-> k ∈ map name params) /\
    (NoDup (map name params) ->
     Forall (fun p => arrayIndex (name p) = None) params ->
     map fst result = map name params).
Proof.
  intros Hparse Hproto. exists (assignAll [] (zip params vs)).
  pose proof (Forall2_length _ _ _ Hparse) as Hlen.
  split; [by apply parseTokensObject_ok|]. split; [|split].
  - apply assignAll_keys_NoDup. constructor.
  - intros k. rewrite assignAll_keys_elem by by rewrite zip_names.
    rewrite zip_names by done. simpl.
    split; [intros [[]%elem_of_nil|?]; done | by right].
  - intros Hnd Hplain. rewrite assignAll_plain.
    + simpl. rewrite map_map. simpl. by apply zip_names.
    + simpl. by rewrite zip_names.
    + apply Forall_forall. intros [q v] [_ Hq]%(Forall2_zip_elem _ _ _ _ _ Hparse).
      rewrite Forall_forall in Hplain. by apply Hplain.
    + by rewrite zip_names.
Qed.

Lemma parseTokensObject_fields_witness :
  exists result,
    parseTokensObject [scalarParam "a" "bool"; scalarParam "b" "uint8"]
      (VObject [("b", VString "7"); ("a", VBool true); ("c", VString "x")])
    = Ok (VObject result) /\
    NoDup (map fst result) /\
    (forall k, k ∈ map fst result <->
               k ∈ map name [scalarParam "a" "bool"; scalarParam "b" "uint8"]) /\
    (NoDup (map name [scalarParam "a" "bool"; scalarParam "b" "uint8"]) ->
     Forall (fun p => arrayIndex (name p) = None)
       [scalarParam "a" "bool"; scalarParam "b" "uint8"] ->
     map fst result = map name [scalarParam "a" "bool"; scalarParam "b" "uint8"]).
Proof.
  apply (parseTokensObject_fields
           [scalarParam "a" "bool"; scalarParam "b" "uint8"]
           (VObject [("b", VString "7"); ("a", VBool true); ("c", VString "x")])
           [VBool true; VString "7"]).
  - repeat first [apply Forall2_nil_2 | apply Forall2_cons_2];
      eexists; split; reflexivity.
  - intros H%list_elem_of_In. simpl in H. intuition discriminate.
Defined.

(** C10, as stated, fails: two schema entries with the same name give
    one field, not two; and a name that is an array index is enumerated
    first, whatever its place in the schema. *)
Lemma parseTokensObject_fields_not_per_entry :
  (exists result,
     parseTokensObject [scalarParam "a" "bool"; scalarParam "a" "bool"]
       (VObject [("a", VBool true)]) = Ok (VObject result) /\
     map fst result = ["a"] /\
     map fst result <> map name [scalarParam "a" "bool"; scalarParam "a" "bool"]) /\
  (exists result,
     parseTokensObject [scalarParam "b" "bool"; scalarParam "0" "bool"]
       (VObject [("0", VBool false); ("b", VBool true)]) = Ok (VObject result) /\
     map fst result = ["0"; "b"] /\
     map fst result <> map name [scalarParam "b" "bool"; scalarParam "0" "bool"]).
Proof.
  split.
  - exists [("a", VBool true)].
    split; [reflexivity|]. split; [reflexivity|]. discriminate.
  - exists [("0", VBool false); ("b", VBool true)].
    split; [reflexivity|]. split; [reflexivity|]. discriminate.
Qed.

(** C8, as the code has it: for a schema entry of scalar type whose name
    has no field in the raw object and is not a name that
    [Object.prototype] defines (there the lookup finds the inherited
    member), [parseTokensObject] yields [undefined] for that field,
    provided the schema entries that carry this name are all scalar and the
    other entries parse. *)
Theorem parseTokensObject_missing_scalar params fields p :
  p ∈ params ->
  getOwn fields (name p) = None ->
  objectPrototypeMember (name p) = false ->
  (forall q, q ∈ params -> name q = name p -> isScalar (type q) = true) ->
  Forall (fun q => exists v, parsesTo (VObject fields) q v) params ->
  exists result,
    parseTokensObject params (VObject fields) = Ok (VObject result) /\
    getOwn result (name p) = Some VUndefined.
Proof.
  intros Hp Hmissing Hown Hscalar [vs Hparse]%Forall_exists_Forall2.
  exists (assignAll [] (zip params vs)).
  split; [by apply parseTokensObject_ok|].
  apply assignAll_getOwn.
  - intros Hproto. by rewrite Hproto in Hown.
  - intros [q v] [(raw & Hraw & Hv) Hq]%(Forall2_zip_elem _ _ _ _ _ Hparse) Hname.
    simpl in *. rewrite Hname, Hmissing in Hraw. injection Hraw as <-.
    rewrite parseTokenValue_scalar in Hv by auto. by injection Hv.
  - left. destruct (Forall2_zip_find _ _ _ _ Hparse Hp) as [v Hv].
    by exists (p, v).
Qed.

Lemma parseTokensObject_missing_scalar_witness :
  exists result,
    parseTokensObject [scalarParam "a" "bool"; scalarParam "b" "uint8"]
      (VObject [("a", VBool true)]) = Ok (VObject result) /\
    getOwn result "b" = Some VUndefined.
Proof.
  apply (parseTokensObject_missing_scalar
           [scalarParam "a" "bool"; scalarParam "b" "uint8"]
           [("a", VBool true)] (scalarParam "b" "uint8")).
  - apply list_elem_of_In. simpl. tauto.
  - reflexivity.
  - reflexivity.
  - intros q [<-|[<-|[]]]%list_elem_of_In; [discriminate | reflexivity].
  - repeat first [apply Forall_nil_2 | apply Forall_cons_2];
      eexists; eexists; split; reflexivity.
Defined.

(** C8, as stated, fails: with no field of its name in the raw object,
    an array, a map or a tuple with components makes the parse fail with a
    [TypeError], a tuple without components gives an empty object and an
    address gives an [Address] around [undefined]. *)
Lemma parseTokensObject_missing_not_scalar :
  parseTokensObject [scalarParam "a" "uint8[]"] (VObject []) = TypeError /\
  parseTokensObject [scalarParam "a" "map(uint8,bool)"] (VObject []) = TypeError /\
  parseTokensObject
    [ {| name := "a"; type := "tuple";
         components := Some [scalarParam "x" "uint8"] |} ] (VObject []) = TypeError /\
  parseTokensObject [scalarParam "a" "tuple"] (VObject [])
    = Ok (VObject [("a", VObject [])]) /\
  parseTokensObject [scalarParam "a" "address"] (VObject [])
    = Ok (VObject [("a", VAddress VUndefined)]).
Proof. repeat split; reflexivity. Qed.

(** C5 fails on maps of tuples: the value below conforms to its schema
    and holds no [Address], yet parsing its serialization returns the map
    entry with an empty tuple, the field [x] lost: the map branch of
    [parseTokenValue] parses the values without the components of the
    parameter, which the array branch passes on. *)
Theorem roundtrip_map_of_tuples_loses_fields :
  conformsObject mapOfTuplesSchema mapOfTuplesValue /\
  addressFree mapOfTuplesValue = true /\
  serializeTokensObject mapOfTuplesValue = mapOfTuplesValue /\
  parseTokensObject mapOfTuplesSchema (serializeTokensObject mapOfTuplesValue)
    = Ok (VObject [("m", VArray [VArray [VString "1"; VObject []]])]) /\
  parseTokensObject mapOfTuplesSchema (serializeTokensObject mapOfTuplesValue)
    <> Ok mapOfTuplesValue.
Proof.
  split; [|repeat split; try reflexivity; discriminate].
  eexists. split; [reflexivity|].
  constructor; [|constructor]. split; [reflexivity|]. simpl.
  apply (conforms_map "uint8" "tuple").
  constructor; [|constructor].
  eexists _, _. split; [reflexivity|]. split.
  - apply conforms_numeric_string. apply list_elem_of_In. simpl. tauto.
  - apply conforms_tuple. constructor; [|constructor].
    split; [reflexivity|]. simpl.
    apply conforms_numeric_string. apply list_elem_of_In. simpl. tauto.
Qed.

End CodecProperties.

(** * Further properties *)

(** ** Transaction merge: what the history keeps *)

Section HistoryProperties.
Import Models Merge History.

Lemma lexGe_refl a : lexGe a a.
Proof.
  unfold lexGe. induction a as [|x a IH]; simpl; [done|].
  unfold Ascii.compare. by rewrite N.compare_refl.
Qed.

Lemma lexGe_trans a b c : lexGe a b -> lexGe b c -> lexGe a c.
Proof.
  unfold lexGe. revert b c.
  induction a as [|x a IH]; intros [|y b] [|z c]; simpl; try done.
  unfold Ascii.compare.
  destruct (N.compare_spec (N_of_ascii x) (N_of_ascii y)) as [Hxy|Hxy|Hxy];
    destruct (N.compare_spec (N_of_ascii y) (N_of_ascii z)) as [Hyz|Hyz|Hyz];
    destruct (N.compare_spec (N_of_ascii x) (N_of_ascii z)) as [Hxz|Hxz|Hxz];
    try done; try lia.
  apply IH.
Qed.

(** X1: whatever the batch type, the merge returns the known transactions
    and the incoming ones, the incoming batch in one piece somewhere inside
    the known array: nothing is dropped, repeated or reordered. *)
Theorem mergeTransactions_inserts_batch known incoming info :
  exists before after,
    known = before ++ after /\
    mergeTransactions known incoming info = before ++ incoming ++ after.
Proof.
  unfold mergeTransactions. destruct (batchType info).
  - exists known, []. unfold push. by rewrite !app_nil_r.
  - destruct (decide (length known = 0)).
    + exists known, []. unfold push. by rewrite !app_nil_r.
    + exists (take (skipIndices known (maxLt info) 0) known),
             (drop (skipIndices known (maxLt info) 0) known).
      split; [by rewrite take_drop | done].
Qed.

(** Merging into an empty history returns the incoming batch as it
    is, for a batch of either type. *)
Theorem mergeTransactions_into_empty incoming info :
  mergeTransactions [] incoming info = incoming.
Proof. unfold mergeTransactions. by destruct (batchType info). Qed.

(** X2: a 'new' batch whose [maxLt] is above the logical time of the first
    known transaction, both strings of decimal digits compared character by
    character, goes in front of the whole history. *)
Theorem mergeTransactions_newest_in_front t known incoming info :
  batchType info = new ->
  decimalString (lt (id t)) = true ->
  decimalString (maxLt info) = true ->
  ~ lexGe (lt (id t)) (maxLt info) ->
  mergeTransactions (t :: known) incoming info = incoming ++ t :: known.
Proof.
  intros Hnew Ht Hmax Hbelow. rewrite mergeTransactions_new by done. simpl.
  destruct (Z.leb_spec 0 (localeCompare (lt (id t)) (maxLt info))) as [Hge|_].
  - by apply localeCompare_lexGe in Hge.
  - done.
Qed.

Lemma mergeTransactions_newest_in_front_witness :
  mergeTransactions (txWithLt "20" :: [txWithLt "10"]) [txWithLt "30"]
    {| minLt := "30"; maxLt := "30"; batchType := new |}
  = [txWithLt "30"] ++ txWithLt "20" :: [txWithLt "10"].
Proof.
  apply (mergeTransactions_newest_in_front (txWithLt "20") [txWithLt "10"]
           [txWithLt "30"] {| minLt := "30"; maxLt := "30"; batchType := new |}).
  - reflexivity.
  - reflexivity.
  - reflexivity.
  - intros H. apply H. reflexivity.
Defined.

Lemma descending_below_head t rest bound :
  descending (t :: rest) ->
  ~ lexGe (lt (id t)) bound ->
  Forall (fun u => ~ lexGe (lt (id u)) bound) (t :: rest).
Proof.
  intros [Hhead _]%StronglySorted_cons Hbelow.
  apply Forall_cons_2; [done|].
  eapply Forall_impl; [exact Hhead|]. simpl.
  intros u Htu Hu. apply Hbelow. by eapply lexGe_trans.
Qed.

(** X3: on logical times that are strings of decimal digits, ordered
    character by character, a 'new' batch keeps the history in descending
    order when it fits: the known and the incoming transactions are in
    descending order, no incoming logical time is above [maxLt], and every
    incoming transaction is at least as recent as every known transaction
    below [maxLt]. *)
Theorem mergeTransactions_new_keeps_descending known incoming info :
  batchType info = new ->
  decimalString (maxLt info) = true ->
  Forall (fun t => decimalString (lt (id t)) = true) known ->
  descending known ->
  descending incoming ->
  Forall (fun t => lexGe (maxLt info) (lt (id t))) incoming ->
  (forall k t, k ∈ known -> ~ lexGe (lt (id k)) (maxLt info) -> t ∈ incoming ->
     lexGe (lt (id t)) (lt (id k))) ->
  descending (mergeTransactions known incoming info).
Proof.
  intros Hnew Hdecimal Hdecimals Hknown Hincoming Hmax Hfit.
  rewrite mergeTransactions_new by done.
  destruct (skipIndices_stop known (maxLt info) 0 Hdecimal Hdecimals)
    as (n & -> & Hlen & Hpre & Hstop).
  simpl. unfold splice, descending in *.
  rewrite <- (take_drop n known) in Hknown.
  apply StronglySorted_app in Hknown as (Hcross & Hfront & Hback).
  assert (Hbelow : Forall (fun u => ~ lexGe (lt (id u)) (maxLt info)) (drop n known)).
  { destruct (drop n known) as [|u rest] eqn:Hdrop; [constructor|].
    apply descending_below_head; [done|].
    apply Hstop. rewrite <- (Nat.add_0_r n), <- lookup_drop. by rewrite Hdrop. }
  rewrite Forall_forall in Hmax, Hbelow.
  apply StronglySorted_app_2; [|done|apply StronglySorted_app_2; [|done|done]].
  - intros a b [i [Hi Hin]]%elem_of_take [Hb|Hb]%elem_of_app.
    + eapply lexGe_trans; [by eapply Hpre | by apply Hmax].
    + by apply Hcross; [apply elem_of_take; eauto|].
  - intros b u Hb Hu. apply Hfit; [|by apply Hbelow|done].
    rewrite <- (take_drop n known). apply elem_of_app. by right.
Qed.

Lemma mergeTransactions_new_keeps_descending_witness :
  descending
    (mergeTransactions (map txWithLt ["30"; "20"; "10"]) (map txWithLt ["25"; "22"])
       {| minLt := "22"; maxLt := "25"; batchType := new |}).
Proof.
  apply (mergeTransactions_new_keeps_descending
           (map txWithLt ["30"; "20"; "10"]) (map txWithLt ["25"; "22"])
           {| minLt := "22"; maxLt := "25"; batchType := new |}).
  - reflexivity.
  - reflexivity.
  - simpl. repeat first [apply Forall_nil_2 | apply Forall_cons_2]; reflexivity.
  - unfold descending. simpl.
    repeat first [apply SSorted_nil | apply SSorted_cons];
      repeat first [apply Forall_nil_2 | apply Forall_cons_2]; discriminate.
  - unfold descending. simpl.
    repeat first [apply SSorted_nil | apply SSorted_cons];
      repeat first [apply Forall_nil_2 | apply Forall_cons_2]; discriminate.
  - simpl. repeat first [apply Forall_nil_2 | apply Forall_cons_2]; discriminate.
  - intros k t Hk Hbelow Ht.
    apply list_elem_of_In in Hk, Ht. simpl in Hk, Ht.
    destruct Hk as [<-|[<-|[<-|[]]]]; destruct Ht as [<-|[<-|[]]];
      first [discriminate | exfalso; apply Hbelow; discriminate].
Defined.

(** X4: an 'old' batch keeps the history in descending order when the
    known and the incoming transactions are in descending order and every
    known transaction is at least as recent as every incoming one. *)
Theorem mergeTransactions_old_keeps_descending known incoming info :
  batchType info = old ->
  descending known ->
  descending incoming ->
  (forall k t, k ∈ known -> t ∈ incoming -> lexGe (lt (id k)) (lt (id t))) ->
  descending (mergeTransactions known incoming info).
Proof.
  intros Hold Hknown Hincoming Hfit.
  unfold mergeTransactions. rewrite Hold. unfold push.
  by apply StronglySorted_app_2.
Qed.

Lemma mergeTransactions_old_keeps_descending_witness :
  descending
    (mergeTransactions (map txWithLt ["30"; "20"]) (map txWithLt ["15"; "12"])
       {| minLt := "12"; maxLt := "15"; batchType := old |}).
Proof.
  apply (mergeTransactions_old_keeps_descending
           (map txWithLt ["30"; "20"]) (map txWithLt ["15"; "12"])
           {| minLt := "12"; maxLt := "15"; batchType := old |}).
  - reflexivity.
  - unfold descending. simpl.
    repeat first [apply SSorted_nil | apply SSorted_cons];
      repeat first [apply Forall_nil_2 | apply Forall_cons_2]; discriminate.
  - unfold descending. simpl.
    repeat first [apply SSorted_nil | apply SSorted_cons];
      repeat first [apply Forall_nil_2 | apply Forall_cons_2]; discriminate.
  - intros k t Hk Ht.
    apply list_elem_of_In in Hk, Ht. simpl in Hk, Ht.
    destruct Hk as [<-|[<-|[]]]; destruct Ht as [<-|[<-|[]]]; discriminate.
Defined.

End HistoryProperties.

(** ** Subscription fold: the whole result *)

Section FoldResultProperties.
Import Models Fold.

Implicit Types (h : heap) (x y t s : ContractUpdatesSubscription).

Lemma orFlags_full_le x y z :
  transactions x && state x = true -> leFlags x y -> orFlags y z = y.
Proof.
  intros [Ht Hs]%andb_true_iff [Hls Hlt].
  destruct y as [ys yt]. simpl in *. rewrite (Hls Hs), (Hlt Ht). done.
Qed.

(** The loop on two objects: [before] collects every item, also when the
    loop is left early. *)
Lemma forOf_distinct_before b a except items : forall h vb va,
  b <> a ->
  h !! b = Some vb -> h !! a = Some va ->
  Forall (fun l => is_Some (h !! l) /\ l <> b /\ l <> a) items ->
  leFlags va vb ->
  exists h',
    forOf h b a except items = Some h' /\
    h' !! b = Some (orFlags vb (orReduction h items)).
Proof.
  induction items as [|item rest IH]; intros h vb va Hba Hb Ha Hlive Hle.
  - exists h. simpl.
    replace (orFlags vb (orReduction h [])) with vb
      by (destruct vb; unfold orFlags; simpl; by rewrite !orb_false_r).
    done.
  - apply Forall_cons in Hlive as [([s Hs] & Hib & Hia) Hrest].
    simpl. rewrite Ha. simpl.
    destruct (transactions va && state va) eqn:Hfull.
    { exists h. by rewrite (orFlags_full_le va vb). }
    pose proof (orAssign_both h b item vb s (not_eq_sym Hib) Hb Hs) as Hstep.
    simpl in Hstep.
    destruct (orAssignState h b item) as [h1|] eqn:E1; [|done].
    simpl in *. rewrite Hstep. simpl. clear Hstep E1 h1.
    set (h2 := <[b := orFlags vb s]> h).
    assert (Hfinish : forall h3 va3,
              h3 !! b = Some (orFlags vb s) -> h3 !! a = Some va3 ->
              leFlags va3 (orFlags vb s) ->
              (forall l, l <> a -> l <> b -> h3 !! l = h !! l) ->
              exists h',
                forOf h3 b a except rest = Some h' /\
                h' !! b = Some (orFlags vb (orReduction h (item :: rest)))).
    { intros h3 va3 Hb3 Ha3 Hle3 Hsame.
      destruct (IH h3 (orFlags vb s) va3) as (h' & Hrun & Hb'); try done.
      { eapply Forall_impl; [exact Hrest|].
        intros l (Hl & Hlb & Hla). by rewrite Hsame. }
      exists h'. split; [done|]. rewrite Hb'.
      rewrite (orReduction_cons_live _ _ _ _ Hs), <- orFlags_assoc.
      do 2 f_equal. apply orReduction_ext.
      eapply Forall_impl; [exact Hrest|]. intros l (_ & Hlb & Hla). by apply Hsame. }
    destruct (decide (Some item <> except)) as [Hne|Heq].
    + assert (Ha2 : h2 !! a = Some va) by (unfold h2; by rewrite lookup_insert_ne).
      assert (Hs2 : h2 !! item = Some s) by (unfold h2; by rewrite lookup_insert_ne).
      pose proof (orAssign_both h2 a item va s (not_eq_sym Hia) Ha2 Hs2) as Hstep.
      simpl in Hstep.
      destruct (orAssignState h2 a item) as [h'|] eqn:E2; [|done].
      simpl in *. rewrite Hstep. simpl. clear Hstep E2 h'.
      apply (Hfinish _ (orFlags va s)).
      * unfold h2. rewrite lookup_insert_ne by done. apply lookup_insert_eq.
      * apply lookup_insert_eq.
      * by apply leFlags_orFlags.
      * intros l Hla Hlb. unfold h2. by rewrite !lookup_insert_ne.
    + apply (Hfinish _ va).
      * apply lookup_insert_eq.
      * unfold h2. by rewrite lookup_insert_ne.
      * by apply leFlags_orFlags_l.
      * intros l Hla Hlb. unfold h2. by rewrite lookup_insert_ne.
Qed.

Lemma filter_all {A} (P : A -> Prop) `{forall a, Decision (P a)} (l : list A) :
  (forall a, P a) -> filter P l = l.
Proof.
  intros HP. induction l as [|a l IH]; [done|].
  rewrite filter_cons_True by done. by rewrite IH.
Qed.

(** Everything [foldSubscriptions] returns, in one statement. *)
Lemma foldSubscriptions_result h subscriptions except :
  live h subscriptions ->
  exists h' r,
    foldSubscriptions h subscriptions except = Some (h', r) /\
    h !! before r = None /\
    h !! after r = None /\
    (except <> None <-> before r <> after r) /\
    h' !! before r = Some (orReduction h subscriptions) /\
    h' !! after r =
      Some (orReduction h (filter (fun l => Some l <> except) subscriptions)) /\
    (forall l, is_Some (h !! l) -> h' !! l = h !! l).
Proof.
  intros Hlive. unfold foldSubscriptions.
  set (b := fresh (dom h)).
  set (zero := {| state := false; transactions := false |}).
  set (h0 := <[b := zero]> h).
  assert (Hb : h !! b = None) by apply fresh_not_live.
  destruct except as [e|].
  - destruct (decide (Some e <> None)) as [_|Hn]; [|by destruct Hn].
    unfold objectAssignEmpty. replace (h0 !! b) with (Some zero)
      by (symmetry; apply lookup_insert_eq).
    simpl.
    set (a := fresh (dom h0)).
    assert (Ha : h0 !! a = None) by apply fresh_not_live.
    assert (Hba : b <> a).
    { intros <-. unfold h0 in Ha. by rewrite lookup_insert_eq in Ha. }
    assert (Ha' : h !! a = None).
    { unfold h0 in Ha. by rewrite lookup_insert_ne in Ha. }
    set (h1 := <[a := zero]> h0).
    assert (Hsame : forall l, is_Some (h !! l) -> h1 !! l = h !! l /\ l <> b /\ l <> a).
    { intros l [v Hl].
      assert (l <> b) by (intros ->; congruence).
      assert (l <> a) by (intros ->; congruence).
      unfold h1, h0. by rewrite !lookup_insert_ne. }
    assert (Hb1 : h1 !! b = Some zero).
    { unfold h1, h0. rewrite lookup_insert_ne by done. apply lookup_insert_eq. }
    assert (Ha1 : h1 !! a = Some zero) by apply lookup_insert_eq.
    assert (Hlive1 : Forall (fun l => is_Some (h1 !! l) /\ l <> b /\ l <> a) subscriptions).
    { eapply Forall_impl; [exact Hlive|]. intros l Hl.
      destruct (Hsame l Hl) as (-> & ? & ?). done. }
    assert (Hred : forall ls, Forall (fun l => is_Some (h !! l)) ls ->
              orReduction h1 ls = orReduction h ls).
    { intros ls Hls. apply orReduction_ext.
      eapply Forall_impl; [exact Hls|]. intros l Hl. by destruct (Hsame l Hl). }
    destruct (forOf_distinct b a (Some e) subscriptions h1 zero zero
                Hba Hb1 Ha1 Hlive1 (leFlags_refl _))
      as (h' & vb' & Hrun & _ & Hafter & _ & Hkeep).
    destruct (forOf_distinct_before b a (Some e) subscriptions h1 zero zero
                Hba Hb1 Ha1 Hlive1 (leFlags_refl _))
      as (h'' & Hrun' & Hbefore).
    rewrite Hrun in Hrun'. injection Hrun' as <-.
    rewrite orFlags_false_l in Hafter, Hbefore.
    rewrite Hred in Hbefore by done.
    rewrite Hred in Hafter.
    2:{ apply Forall_forall. intros l [_ Hl]%list_elem_of_filter.
        unfold live in Hlive. rewrite Forall_forall in Hlive. by apply Hlive. }
    rewrite Hrun. simpl. eexists _, _. split; [reflexivity|]. simpl.
    repeat split; try done.
    intros l Hl. destruct (Hsame l Hl) as (Heq & ? & ?).
    by rewrite Hkeep, Heq.
  - destruct (decide (@None nat <> None)) as [Hn|_]; [by destruct Hn|].
    simpl.
    assert (Hsame : forall l, is_Some (h !! l) -> h0 !! l = h !! l /\ l <> b).
    { intros l [v Hl].
      assert (l <> b) by (intros ->; congruence).
      unfold h0. by rewrite lookup_insert_ne. }
    destruct (forOf_aliased b subscriptions h0 zero) as (h' & Hrun & Hb' & Hkeep).
    { apply lookup_insert_eq. }
    { eapply Forall_impl; [exact Hlive|]. intros l Hl.
      destruct (Hsame l Hl) as (-> & ?). done. }
    rewrite orFlags_false_l in Hb'.
    assert (Hred : orReduction h0 subscriptions = orReduction h subscriptions).
    { apply orReduction_ext. eapply Forall_impl; [exact Hlive|].
      intros l Hl. by destruct (Hsame l Hl). }
    rewrite Hred in Hb'.
    rewrite Hrun. simpl. eexists _, _. split; [reflexivity|]. simpl.
    rewrite filter_all by done. repeat split; try done.
    intros l Hl. destruct (Hsame l Hl) as (Heq & ?). by rewrite Hkeep, Heq.
Qed.

Lemma orReduction_Permutation h l1 l2 :
  l1 ≡ₚ l2 -> orReduction h l1 = orReduction h l2.
Proof.
  intros Hp. unfold orReduction.
  assert (Hex : forall f : nat -> bool, existsb f l1 = existsb f l2).
  { intros f. apply eq_true_iff_eq. rewrite !existsb_exists.
    split; intros (x & Hx & Hf); exists x; (split; [|done]).
    - apply list_elem_of_In. rewrite <- Hp. by apply list_elem_of_In.
    - apply list_elem_of_In. rewrite Hp. by apply list_elem_of_In. }
  by rewrite !Hex.
Qed.

(** X5: whatever [except] is and wherever the loop stops, the returned
    [before] holds the OR of the flags of all the subscriptions. *)
Theorem foldSubscriptions_before_is_or_of_all h subscriptions except :
  live h subscriptions ->
  exists h' r,
    foldSubscriptions h subscriptions except = Some (h', r) /\
    h' !! before r = Some (orReduction h subscriptions).
Proof.
  intros Hlive.
  destruct (foldSubscriptions_result h subscriptions except Hlive)
    as (h' & r & Hrun & _ & _ & _ & Hbefore & _).
  by exists h', r.
Qed.

Lemma foldSubscriptions_before_is_or_of_all_witness :
  exists h' r,
    foldSubscriptions
      {[ 0 := {| state := true; transactions := true |};
         1 := {| state := false; transactions := false |} ]}
      [0; 1] (Some 1) = Some (h', r) /\
    h' !! before r = Some {| state := true; transactions := true |}.
Proof.
  assert (Hlive : live {[ 0 := {| state := true; transactions := true |};
                          1 := {| state := false; transactions := false |} ]} [0; 1]).
  { unfold live. repeat first [apply Forall_nil_2 | apply Forall_cons_2];
      eexists; reflexivity. }
  exact (foldSubscriptions_before_is_or_of_all _ [0; 1] (Some 1) Hlive).
Defined.

(** X6: the fold reads its subscriptions and never writes to them: every
    object that existed before the call is unchanged after it, and the two
    returned objects are new ones. *)
Theorem foldSubscriptions_leaves_subscriptions h subscriptions except :
  live h subscriptions ->
  exists h' r,
    foldSubscriptions h subscriptions except = Some (h', r) /\
    h !! before r = None /\
    h !! after r = None /\
    (forall l, is_Some (h !! l) -> h' !! l = h !! l).
Proof.
  intros Hlive.
  destruct (foldSubscriptions_result h subscriptions except Hlive)
    as (h' & r & Hrun & Hb & Ha & _ & _ & _ & Hkeep).
  by exists h', r.
Qed.

Lemma foldSubscriptions_leaves_subscriptions_witness :
  exists h' r,
    foldSubscriptions {[ 0 := {| state := true; transactions := false |} ]} [0] (Some 0)
      = Some (h', r) /\
    ({[ 0 := {| state := true; transactions := false |} ]} : heap) !! before r = None /\
    ({[ 0 := {| state := true; transactions := false |} ]} : heap) !! after r = None /\
    (forall l,
       is_Some (({[ 0 := {| state := true; transactions := false |} ]} : heap) !! l) ->
       h' !! l = ({[ 0 := {| state := true; transactions := false |} ]} : heap) !! l).
Proof.
  assert (Hlive : live {[ 0 := {| state := true; transactions := false |} ]} [0]).
  { unfold live. repeat first [apply Forall_nil_2 | apply Forall_cons_2];
      eexists; reflexivity. }
  exact (foldSubscriptions_leaves_subscriptions _ [0] (Some 0) Hlive).
Defined.

(** X7: the flags of [before] and of [after] do not depend on the order in
    which the subscriptions are enumerated, early exit or not. *)
Theorem foldSubscriptions_order_independent h subscriptions subscriptions' except :
  live h subscriptions ->
  subscriptions ≡ₚ subscriptions' ->
  exists h1 r1 h2 r2,
    foldSubscriptions h subscriptions except = Some (h1, r1) /\
    foldSubscriptions h subscriptions' except = Some (h2, r2) /\
    h1 !! before r1 = h2 !! before r2 /\
    h1 !! after r1 = h2 !! after r2.
Proof.
  intros Hlive Hperm.
  assert (Hlive' : live h subscriptions') by (unfold live in *; by rewrite <- Hperm).
  destruct (foldSubscriptions_result h subscriptions except Hlive)
    as (h1 & r1 & Hrun1 & _ & _ & _ & Hb1 & Ha1 & _).
  destruct (foldSubscriptions_result h subscriptions' except Hlive')
    as (h2 & r2 & Hrun2 & _ & _ & _ & Hb2 & Ha2 & _).
  exists h1, r1, h2, r2. split; [done|]. split; [done|].
  rewrite Hb1, Hb2, Ha1, Ha2. split; f_equal.
  - by apply orReduction_Permutation.
  - apply orReduction_Permutation. by rewrite Hperm.
Qed.

Lemma foldSubscriptions_order_independent_witness :
  exists h1 r1 h2 r2,
    foldSubscriptions
      {[ 0 := {| state := true; transactions := true |};
         1 := {| state := false; transactions := true |} ]} [0; 1] (Some 0)
      = Some (h1, r1) /\
    foldSubscriptions
      {[ 0 := {| state := true; transactions := true |};
         1 := {| state := false; transactions := true |} ]} [1; 0] (Some 0)
      = Some (h2, r2) /\
    h1 !! before r1 = h2 !! before r2 /\
    h1 !! after r1 = h2 !! after r2.
Proof.
  apply (foldSubscriptions_order_independent
           {[ 0 := {| state := true; transactions := true |};
              1 := {| state := false; transactions := true |} ]} [0; 1] [1; 0] (Some 0)).
  - unfold live. repeat first [apply Forall_nil_2 | apply Forall_cons_2];
      eexists; reflexivity.
  - apply Permutation_swap.
Defined.

(** X8: with an [except] argument the returned [after] is an object of
    its own: a write to [before] does not show through [after]. *)
Theorem foldSubscriptions_except_separate_objects h subscriptions e :
  live h subscriptions ->
  exists h' r,
    foldSubscriptions h subscriptions (Some e) = Some (h', r) /\
    before r <> after r /\
    (forall w, <[before r := w]> h' !! after r = h' !! after r).
Proof.
  intros Hlive.
  destruct (foldSubscriptions_result h subscriptions (Some e) Hlive)
    as (h' & r & Hrun & _ & _ & Hsep & _).
  exists h', r. split; [done|].
  assert (Hne : before r <> after r) by by apply Hsep.
  split; [done|]. intros w. by rewrite lookup_insert_ne.
Qed.

Lemma foldSubscriptions_except_separate_objects_witness :
  exists h' r,
    foldSubscriptions {[ 0 := {| state := true; transactions := false |} ]} [0] (Some 0)
      = Some (h', r) /\
    before r <> after r /\
    (forall w, <[before r := w]> h' !! after r = h' !! after r).
Proof.
  apply (foldSubscriptions_except_separate_objects
           {[ 0 := {| state := true; transactions := false |} ]} [0] 0).
  unfold live. repeat first [apply Forall_nil_2 | apply Forall_cons_2];
    eexists; reflexivity.
Defined.

End FoldResultProperties.

(** ** Provider subscription manager: calls issued, unsubscription, fan-out *)

Section ManagerProperties.
Import Models Fold Prototype Client Unsubscribe.

Implicit Types (c : ProviderRpcClient) (provider : Provider)
  (o m : gmap nat ContractUpdatesSubscription).

Lemma flags_ext (x y : ContractUpdatesSubscription) :
  (state x = true <-> state y = true) ->
  (transactions x = true <-> transactions y = true) ->
  x = y.
Proof.
  destruct x as [[] []], y as [[] []]; simpl; intros [H1 H2] [H3 H4];
    try done; first [by discriminate H1 | by discriminate H2
                    | by discriminate H3 | by discriminate H4].
Qed.

Lemma elem_of_objectValues o k : k ∈ objectValues o <-> is_Some (o !! k).
Proof.
  unfold objectValues. rewrite merge_sort_Permutation, elem_of_elements.
  apply elem_of_dom.
Qed.

Lemma orReduction_state (h : gmap nat ContractUpdatesSubscription) ls :
  state (orReduction h ls) = true <->
  exists k s, k ∈ ls /\ h !! k = Some s /\ state s = true.
Proof.
  unfold orReduction. simpl. rewrite existsb_exists. split.
  - intros (k & Hk%list_elem_of_In & Hs). unfold flagsOf in Hs.
    destruct (h !! k) as [s|] eqn:E; [|done]. by exists k, s.
  - intros (k & s & Hk & Hl & Hs). exists k. split; [by apply list_elem_of_In|].
    unfold flagsOf. by rewrite Hl.
Qed.

Lemma orReduction_transactions (h : gmap nat ContractUpdatesSubscription) ls :
  transactions (orReduction h ls) = true <->
  exists k s, k ∈ ls /\ h !! k = Some s /\ transactions s = true.
Proof.
  unfold orReduction. simpl. rewrite existsb_exists. split.
  - intros (k & Hk%list_elem_of_In & Hs). unfold flagsOf in Hs.
    destruct (h !! k) as [s|] eqn:E; [|done]. by exists k, s.
  - intros (k & s & Hk & Hl & Hs). exists k. split; [by apply list_elem_of_In|].
    unfold flagsOf. by rewrite Hl.
Qed.

Lemma aggregate_state o :
  state (aggregate o) = true <-> exists k s, o !! k = Some s /\ state s = true.
Proof.
  unfold aggregate. rewrite orReduction_state. split.
  - intros (k & s & _ & ? & ?). by exists k, s.
  - intros (k & s & Hl & ?). exists k, s. split; [|done].
    apply elem_of_objectValues. by rewrite Hl.
Qed.

Lemma aggregate_transactions o :
  transactions (aggregate o) = true <->
  exists k s, o !! k = Some s /\ transactions s = true.
Proof.
  unfold aggregate. rewrite orReduction_transactions. split.
  - intros (k & s & _ & ? & ?). by exists k, s.
  - intros (k & s & Hl & ?). exists k, s. split; [|done].
    apply elem_of_objectValues. by rewrite Hl.
Qed.

Lemma aggregate_empty :
  aggregate ∅ = {| state := false; transactions := false |}.
Proof.
  apply flags_ext.
  - rewrite aggregate_state. split; [|done].
    intros (k & s & Hl & _). by rewrite lookup_empty in Hl.
  - rewrite aggregate_transactions. split; [|done].
    intros (k & s & Hl & _). by rewrite lookup_empty in Hl.
Qed.

(** The aggregate with a new flag-pair is the OR of the pair and the
    aggregate without it. *)
Lemma aggregate_insert o id s :
  o !! id = None -> aggregate (<[id := s]> o) = orFlags s (aggregate o).
Proof.
  intros Hid. apply flags_ext.
  - change (state (orFlags s (aggregate o))) with (state s || state (aggregate o)).
    rewrite orb_true_iff, !aggregate_state. split.
    + intros (k & u & Hl & Hu). destruct (decide (k = id)) as [->|Hne].
      * rewrite lookup_insert_eq in Hl. injection Hl as ->. by left.
      * rewrite lookup_insert_ne in Hl by done. right. by exists k, u.
    + intros [Hs|(k & u & Hl & Hu)].
      * exists id, s. by rewrite lookup_insert_eq.
      * exists k, u. rewrite lookup_insert_ne; [done|]. intros ->. congruence.
  - change (transactions (orFlags s (aggregate o)))
      with (transactions s || transactions (aggregate o)).
    rewrite orb_true_iff, !aggregate_transactions. split.
    + intros (k & u & Hl & Hu). destruct (decide (k = id)) as [->|Hne].
      * rewrite lookup_insert_eq in Hl. injection Hl as ->. by left.
      * rewrite lookup_insert_ne in Hl by done. right. by exists k, u.
    + intros [Hs|(k & u & Hl & Hu)].
      * exists id, s. by rewrite lookup_insert_eq.
      * exists k, u. rewrite lookup_insert_ne; [done|]. intros ->. congruence.
Qed.

(** Folding over all flag-pairs but the one of [id] gives the aggregate
    of the map without [id]. *)
Lemma orReduction_except o id :
  orReduction o (filter (fun l => Some l <> Some id) (objectValues o)) =
    aggregate (delete id o).
Proof.
  apply flags_ext.
  - rewrite orReduction_state, aggregate_state. split.
    + intros (k & s & [Hne _]%list_elem_of_filter & Hl & Hs).
      exists k, s. rewrite lookup_delete_ne; [done|]. congruence.
    + intros (k & s & Hl & Hs).
      assert (k <> id) by (intros ->; by rewrite lookup_delete_eq in Hl).
      rewrite lookup_delete_ne in Hl by done.
      exists k, s. split; [|done]. apply list_elem_of_filter.
      split; [congruence|]. apply elem_of_objectValues. by rewrite Hl.
  - rewrite orReduction_transactions, aggregate_transactions. split.
    + intros (k & s & [Hne _]%list_elem_of_filter & Hl & Hs).
      exists k, s. rewrite lookup_delete_ne; [done|]. congruence.
    + intros (k & s & Hl & Hs).
      assert (k <> id) by (intros ->; by rewrite lookup_delete_eq in Hl).
      rewrite lookup_delete_ne in Hl by done.
      exists k, s. split; [|done]. apply list_elem_of_filter.
      split; [congruence|]. apply elem_of_objectValues. by rewrite Hl.
Qed.

(** The test [before != after] of the two closures, in terms of what the
    listener adds to the rest. *)
Lemma differ_orFlags s rest :
  differ (orFlags s rest) rest = false <-> leFlags s rest.
Proof.
  unfold differ, leFlags.
  destruct s as [[] []], rest as [[] []]; simpl; split; try done;
    first [by intros [? ?] | intros [H1 H2]; first [by discriminate H1 | by discriminate H2]
          | intros [H1 H2]; first [by discriminate (H1 eq_refl) | by discriminate (H2 eq_refl)]].
Qed.

(** The client once [subscribe] has recorded listener and flag-pair. *)
Lemma contractSubscriptionsAt_registered c eventName address id f s :
  contractSubscriptionsAt
    (setContractSubscription
       (getContractSubscriptions (setListener c eventName id f) address) address id s)
    address
  = <[id := s]> (contractSubscriptionsAt c address).
Proof. by rewrite contractSubscriptionsAt_set, contractSubscriptionsAt_get. Qed.

Lemma eventSubscriptions_registered c eventName address id f s :
  eventSubscriptions
    (setContractSubscription
       (getContractSubscriptions (setListener c eventName id f) address) address id s)
    eventName
  = <[id := f]> (eventSubscriptions c eventName).
Proof.
  change (eventSubscriptions (setContractSubscription ?c' _ _ _) eventName)
    with (eventSubscriptions c' eventName).
  by rewrite eventSubscriptions_getContract, eventSubscriptions_setListener.
Qed.

(** The first closure of an address-scoped event, for an id not in use:
    the call it issues, if any, carries the aggregate of the flag-pairs the
    address had before. *)
Lemma subscribeContract_eq provider c eventName address id :
  is_Some (_subscriptions c !! eventName) ->
  eventSubscriptions c eventName !! id = None ->
  contractSubscriptionsAt c address !! id = None ->
  subscribeContract provider c eventName address id =
    let rest := aggregate (contractSubscriptionsAt c address) in
    let registered :=
      setContractSubscription
        (getContractSubscriptions (setListener c eventName id (notifies id)) address)
        address id (flagsFor eventName) in
    if differ (orFlags (flagsFor eventName) rest) rest then
      match provider (apiSubscribe address rest) with
      | None => (registered, [apiSubscribe address rest], None)
      | Some e => (getContractSubscriptions c address, [apiSubscribe address rest], Some e)
      end
    else (registered, [], None).
Proof.
  intros Hcontainer Hid Hcid. unfold subscribeContract. rewrite Hid.
  change {| state := bool_decide (eventName = "contractStateChanged");
            transactions := bool_decide (eventName = "transactionsFound") |}
    with (flagsFor eventName).
  rewrite contractSubscriptionsAt_registered.
  set (cs := <[id := flagsFor eventName]> (contractSubscriptionsAt c address)).
  destruct (foldSubscriptions_result cs (objectValues cs) (Some id) (objectValues_live _))
    as (h & r & -> & _ & _ & _ & Hb & Ha & _).
  rewrite orReduction_except in Ha. unfold cs in Ha.
  rewrite delete_insert_id in Ha by done.
  change (orReduction cs (objectValues cs)) with (aggregate cs) in Hb.
  unfold cs in Hb. rewrite aggregate_insert in Hb by done.
  replace (flagsOf h (before r))
    with (orFlags (flagsFor eventName) (aggregate (contractSubscriptionsAt c address)))
    by (unfold flagsOf; by rewrite Hb).
  replace (flagsOf h (after r)) with (aggregate (contractSubscriptionsAt c address))
    by (unfold flagsOf; by rewrite Ha).
  cbv zeta.
  destruct (differ _ _); [|done].
  destruct (provider _); [|done].
  by rewrite rollback_restores.
Qed.

(** The second closure of an address-scoped event, when the address has
    its inner object: both deletions happen, and the call depends on what
    the remaining flag-pairs add up to. *)
Lemma unsubscribeContract_eq provider c eventName address id m :
  _contractSubscriptions c !! address = Some m ->
  unsubscribeContract provider c eventName address id =
    let rest := aggregate (delete id m) in
    let c2 := deleteContractSubscription (deleteListener c eventName id) address id in
    if negb (transactions rest) && negb (state rest) then
      (c2, [apiUnsubscribe address], provider (apiUnsubscribe address))
    else if differ (aggregate m) rest then
      (c2, [apiSubscribe address rest], provider (apiSubscribe address rest))
    else (c2, [], None).
Proof.
  intros Hm. unfold unsubscribeContract.
  change (_contractSubscriptions (deleteListener c eventName id))
    with (_contractSubscriptions c).
  rewrite Hm.
  destruct (foldSubscriptions_result m (objectValues m)
              (match m !! id with Some _ => Some id | None => None end)
              (objectValues_live _))
    as (h & r & -> & _ & _ & _ & Hb & Ha & _).
  assert (Hrest : orReduction m
            (filter (fun l => Some l <> match m !! id with
                                        | Some _ => Some id
                                        | None => None
                                        end) (objectValues m))
          = aggregate (delete id m)).
  { destruct (m !! id) eqn:Hid.
    - apply orReduction_except.
    - rewrite filter_all by done. by rewrite delete_id. }
  rewrite Hrest in Ha.
  replace (flagsOf h (before r)) with (aggregate m)
    by (unfold flagsOf; by rewrite Hb).
  replace (flagsOf h (after r)) with (aggregate (delete id m))
    by (unfold flagsOf; by rewrite Ha).
  done.
Qed.

Lemma contractSubscriptionsAt_getEvent c eventName a :
  contractSubscriptionsAt (_getEventSubscriptions c eventName) a =
    contractSubscriptionsAt c a.
Proof. unfold contractSubscriptionsAt. by rewrite contractSubscriptions_getEvent. Qed.

Lemma eventSubscriptions_other c eventName id f ev :
  ev <> eventName ->
  eventSubscriptions (setListener c eventName id f) ev = eventSubscriptions c ev.
Proof.
  intros Hne. unfold eventSubscriptions, setListener. simpl.
  by rewrite lookup_insert_ne.
Qed.

Lemma contractSubscriptionsAt_other c address id s a :
  a <> address ->
  contractSubscriptionsAt (setContractSubscription c address id s) a =
    contractSubscriptionsAt c a.
Proof.
  intros Hne. unfold contractSubscriptionsAt, setContractSubscription. simpl.
  by rewrite lookup_insert_ne.
Qed.

(** [subscribe] on an address-scoped event, for an id not in use. *)
Lemma subscribe_contract_eq provider c eventName address id :
  eventName ∈ contractEvents ->
  unusedId c id ->
  subscribe provider c eventName (Some address) id =
    let rest := aggregate (contractSubscriptionsAt c address) in
    let c0 := _getEventSubscriptions c eventName in
    let registered :=
      setContractSubscription
        (getContractSubscriptions (setListener c0 eventName id (notifies id)) address)
        address id (flagsFor eventName) in
    let handle := {| subEventName := eventName; subAddress := Some address;
                     subId := id |} in
    if differ (orFlags (flagsFor eventName) rest) rest then
      match provider (apiSubscribe address rest) with
      | None => {| client := registered; issued := [apiSubscribe address rest];
                   completion := Returns handle |}
      | Some e => {| client := getContractSubscriptions c0 address;
                     issued := [apiSubscribe address rest];
                     completion := Throws e |}
      end
    else {| client := registered; issued := []; completion := Returns handle |}.
Proof.
  intros Hev [Hid Hcid]. unfold subscribe.
  destruct (decide (eventName ∈ globalEvents)) as [Hg|_];
    [by apply contractEvents_not_global in Hev|].
  destruct (decide (eventName ∈ contractEvents)) as [_|Hn]; [|done].
  rewrite subscribeContract_eq.
  - rewrite contractSubscriptionsAt_getEvent. cbv zeta.
    destruct (differ _ _); [|done]. by destruct (provider _).
  - rewrite eventSubscriptions_container by by apply contractEvents_own.
    by eexists.
  - by rewrite eventSubscriptions_get.
  - by rewrite contractSubscriptionsAt_getEvent.
Qed.

(** X9: [subscribe] on a global event with an id not in use issues no
    provider call and returns; the listener is recorded under the id for
    that event name, the listeners of the other event names and the
    per-address map are as before. *)
Theorem subscribe_global_registers provider c eventName params id :
  eventName ∈ globalEvents ->
  eventSubscriptions c eventName !! id = None ->
  issued (subscribe provider c eventName params id) = [] /\
  completion (subscribe provider c eventName params id) =
    Returns {| subEventName := eventName; subAddress := None; subId := id |} /\
  eventSubscriptions (client (subscribe provider c eventName params id)) eventName =
    <[id := notifies id]> (eventSubscriptions c eventName) /\
  (forall ev, ev <> eventName ->
     eventSubscriptions (client (subscribe provider c eventName params id)) ev =
       eventSubscriptions c ev) /\
  _contractSubscriptions (client (subscribe provider c eventName params id)) =
    _contractSubscriptions c.
Proof.
  intros Hev Hid. unfold subscribe.
  destruct (decide (eventName ∈ globalEvents)) as [_|?]; [|done]. simpl.
  unfold subscribeGlobal. rewrite eventSubscriptions_get, Hid.
  split; [done|]. split; [done|]. split; [|split].
  - by rewrite eventSubscriptions_setListener, eventSubscriptions_get.
  - intros ev Hne. by rewrite eventSubscriptions_other, eventSubscriptions_get.
  - simpl. apply contractSubscriptions_getEvent.
Qed.

Lemma subscribe_global_registers_witness :
  issued (subscribe rejecting emptyClient "loggedOut" None 3) = [] /\
  completion (subscribe rejecting emptyClient "loggedOut" None 3) =
    Returns {| subEventName := "loggedOut"; subAddress := None; subId := 3 |} /\
  eventSubscriptions (client (subscribe rejecting emptyClient "loggedOut" None 3))
    "loggedOut" = <[3 := notifies 3]> (eventSubscriptions emptyClient "loggedOut") /\
  (forall ev, ev <> "loggedOut" ->
     eventSubscriptions (client (subscribe rejecting emptyClient "loggedOut" None 3)) ev =
       eventSubscriptions emptyClient ev) /\
  _contractSubscriptions (client (subscribe rejecting emptyClient "loggedOut" None 3)) =
    _contractSubscriptions emptyClient.
Proof.
  apply (subscribe_global_registers rejecting emptyClient "loggedOut" None 3).
  - apply list_elem_of_In. simpl. tauto.
  - reflexivity.
Defined.

(** X10: when a flag-pair already recorded for the address covers the
    interest of the event, [subscribe] issues no provider call, returns, and
    records the listener and its flag-pair. *)
Theorem subscribe_covered_issues_no_call provider c eventName address id k s :
  eventName ∈ contractEvents ->
  unusedId c id ->
  contractSubscriptionsAt c address !! k = Some s ->
  leFlags (flagsFor eventName) s ->
  issued (subscribe provider c eventName (Some address) id) = [] /\
  completion (subscribe provider c eventName (Some address) id) =
    Returns {| subEventName := eventName; subAddress := Some address; subId := id |} /\
  eventSubscriptions (client (subscribe provider c eventName (Some address) id))
    eventName !! id = Some (notifies id) /\
  contractSubscriptionsAt (client (subscribe provider c eventName (Some address) id))
    address !! id = Some (flagsFor eventName).
Proof.
  intros Hev Hunused Hk [Hs Ht].
  rewrite subscribe_contract_eq by done. cbv zeta.
  assert (Hcovered : leFlags (flagsFor eventName)
                       (aggregate (contractSubscriptionsAt c address))).
  { split; intros H.
    - apply aggregate_state. exists k, s. auto.
    - apply aggregate_transactions. exists k, s. auto. }
  apply differ_orFlags in Hcovered. rewrite Hcovered. simpl.
  split; [done|]. split; [done|].
  rewrite eventSubscriptions_registered, contractSubscriptionsAt_registered.
  by rewrite !lookup_insert_eq.
Qed.

Lemma listening_unused id : id <> 0 -> unusedId listening id.
Proof.
  intros Hid. split; intros key.
  - unfold eventSubscriptions, listening. simpl.
    destruct (decide (key = "transactionsFound")) as [->|Hne].
    + rewrite lookup_singleton_eq. simpl. by rewrite lookup_singleton_ne.
    + rewrite lookup_singleton_ne by done. apply lookup_empty.
  - unfold contractSubscriptionsAt, listening. simpl.
    destruct (decide (key = "0:aa")) as [->|Hne].
    + rewrite lookup_singleton_eq. simpl. by rewrite lookup_singleton_ne.
    + rewrite lookup_singleton_ne by done. apply lookup_empty.
Qed.

Lemma subscribe_covered_issues_no_call_witness :
  issued (subscribe rejecting listening "transactionsFound" (Some "0:aa") 1) = [] /\
  completion (subscribe rejecting listening "transactionsFound" (Some "0:aa") 1) =
    Returns {| subEventName := "transactionsFound"; subAddress := Some "0:aa";
               subId := 1 |} /\
  eventSubscriptions
    (client (subscribe rejecting listening "transactionsFound" (Some "0:aa") 1))
    "transactionsFound" !! 1 = Some (notifies 1) /\
  contractSubscriptionsAt
    (client (subscribe rejecting listening "transactionsFound" (Some "0:aa") 1))
    "0:aa" !! 1 = Some (flagsFor "transactionsFound").
Proof.
  apply (subscribe_covered_issues_no_call rejecting listening
           "transactionsFound" "0:aa" 1 0 (flagsFor "transactionsFound")).
  - apply list_elem_of_In. simpl. tauto.
  - apply listening_unused. discriminate.
  - reflexivity.
  - apply leFlags_refl.
Defined.

Lemma emptyClient_unused id : unusedId emptyClient id.
Proof.
  split; intros key.
  - unfold eventSubscriptions. simpl. rewrite lookup_empty. apply lookup_empty.
  - unfold contractSubscriptionsAt. simpl. rewrite lookup_empty. apply lookup_empty.
Qed.

(** X11: when the flag-pairs recorded for the address do not cover the
    interest of the event, [subscribe] issues exactly one provider call, a
    subscribe request for the address that carries the aggregate of those
    earlier flag-pairs: the interest of the new listener is not in it. *)
Theorem subscribe_uncovered_asks_for_rest provider c eventName address id :
  eventName ∈ contractEvents ->
  unusedId c id ->
  ~ leFlags (flagsFor eventName) (aggregate (contractSubscriptionsAt c address)) ->
  issued (subscribe provider c eventName (Some address) id) =
    [apiSubscribe address (aggregate (contractSubscriptionsAt c address))].
Proof.
  intros Hev Hunused Hnot.
  rewrite subscribe_contract_eq by done. cbv zeta.
  destruct (differ _ _) eqn:Hd.
  - by destruct (provider _).
  - by apply differ_orFlags in Hd.
Qed.

Lemma subscribe_uncovered_asks_for_rest_witness :
  issued (subscribe resolving emptyClient "contractStateChanged" (Some "0:aa") 0) =
    [apiSubscribe "0:aa" (aggregate (contractSubscriptionsAt emptyClient "0:aa"))].
Proof.
  apply (subscribe_uncovered_asks_for_rest resolving emptyClient
           "contractStateChanged" "0:aa" 0).
  - apply list_elem_of_In. simpl. tauto.
  - apply emptyClient_unused.
  - intros [H _]. specialize (H eq_refl). vm_compute in H. discriminate.
Defined.

(** X12: when the provider resolves the call (or none is needed), an
    address-scoped [subscribe] returns with the listener recorded under the
    event name and the flag-pair under the address, both at the new id;
    every other event name and every other address is as before. *)
Theorem subscribe_resolved_registers provider c eventName address id :
  eventName ∈ contractEvents ->
  unusedId c id ->
  provider (apiSubscribe address (aggregate (contractSubscriptionsAt c address))) = None ->
  completion (subscribe provider c eventName (Some address) id) =
    Returns {| subEventName := eventName; subAddress := Some address; subId := id |} /\
  eventSubscriptions (client (subscribe provider c eventName (Some address) id))
    eventName = <[id := notifies id]> (eventSubscriptions c eventName) /\
  contractSubscriptionsAt (client (subscribe provider c eventName (Some address) id))
    address = <[id := flagsFor eventName]> (contractSubscriptionsAt c address) /\
  (forall ev, ev <> eventName ->
     eventSubscriptions (client (subscribe provider c eventName (Some address) id)) ev =
       eventSubscriptions c ev) /\
  (forall a, a <> address ->
     contractSubscriptionsAt (client (subscribe provider c eventName (Some address) id)) a =
       contractSubscriptionsAt c a).
Proof.
  intros Hev Hunused Hresolves.
  rewrite subscribe_contract_eq by done. cbv zeta. rewrite Hresolves.
  set (registered := setContractSubscription _ _ _ _).
  assert (Hclient : forall (calls : list ProviderRequest) handle,
            client (if differ (orFlags (flagsFor eventName)
                                 (aggregate (contractSubscriptionsAt c address)))
                         (aggregate (contractSubscriptionsAt c address))
                    then {| client := registered; issued := calls;
                            completion := Returns handle |}
                    else {| client := registered; issued := [];
                            completion := Returns handle |}) = registered)
    by (intros; by destruct (differ _ _)).
  rewrite Hclient. split; [by destruct (differ _ _)|].
  unfold registered.
  rewrite eventSubscriptions_registered, contractSubscriptionsAt_registered.
  rewrite eventSubscriptions_get, contractSubscriptionsAt_getEvent.
  split; [done|]. split; [done|]. split.
  - intros ev Hne.
    change (eventSubscriptions (setContractSubscription ?c' _ _ _) ev)
      with (eventSubscriptions c' ev).
    by rewrite eventSubscriptions_getContract, eventSubscriptions_other,
      eventSubscriptions_get.
  - intros a Hne.
    rewrite contractSubscriptionsAt_other, contractSubscriptionsAt_get by done.
    change (contractSubscriptionsAt (setListener ?c' _ _ _) a)
      with (contractSubscriptionsAt c' a).
    apply contractSubscriptionsAt_getEvent.
Qed.

Lemma subscribe_resolved_registers_witness :
  completion (subscribe resolving emptyClient "transactionsFound" (Some "0:aa") 0) =
    Returns {| subEventName := "transactionsFound"; subAddress := Some "0:aa";
               subId := 0 |} /\
  eventSubscriptions (client (subscribe resolving emptyClient "transactionsFound"
                                (Some "0:aa") 0))
    "transactionsFound" = <[0 := notifies 0]> (eventSubscriptions emptyClient
                                                 "transactionsFound") /\
  contractSubscriptionsAt (client (subscribe resolving emptyClient "transactionsFound"
                                     (Some "0:aa") 0))
    "0:aa" = <[0 := flagsFor "transactionsFound"]>
               (contractSubscriptionsAt emptyClient "0:aa") /\
  (forall ev, ev <> "transactionsFound" ->
     eventSubscriptions (client (subscribe resolving emptyClient "transactionsFound"
                                   (Some "0:aa") 0)) ev =
       eventSubscriptions emptyClient ev) /\
  (forall a, a <> "0:aa" ->
     contractSubscriptionsAt (client (subscribe resolving emptyClient "transactionsFound"
                                        (Some "0:aa") 0)) a =
       contractSubscriptionsAt emptyClient a).
Proof.
  apply (subscribe_resolved_registers resolving emptyClient "transactionsFound" "0:aa" 0).
  - apply list_elem_of_In. simpl. tauto.
  - apply emptyClient_unused.
  - reflexivity.
Defined.

Lemma unsubscribeContract_client provider c eventName address id m :
  _contractSubscriptions c !! address = Some m ->
  fst (fst (unsubscribeContract provider c eventName address id)) =
    deleteContractSubscription (deleteListener c eventName id) address id.
Proof.
  intros Hm. rewrite (unsubscribeContract_eq _ _ _ _ _ m Hm). cbv zeta.
  destruct (_ && _); [done|]. by destruct (differ _ _).
Qed.

(** X13: unsubscribing a handle that an address-scoped [subscribe] has
    just returned takes both entries out again: every listener and every
    flag-pair, under every event name and every address, is as it was before
    the [subscribe], whatever the provider answers to the unsubscription. *)
Theorem subscribe_then_unsubscribe_restores provider provider' c eventName address id s :
  eventName ∈ contractEvents ->
  unusedId c id ->
  completion (subscribe provider c eventName (Some address) id) = Returns s ->
  (forall ev,
     eventSubscriptions
       (fst (fst (unsubscribe provider'
                    (client (subscribe provider c eventName (Some address) id)) s))) ev
     = eventSubscriptions c ev) /\
  (forall a,
     contractSubscriptionsAt
       (fst (fst (unsubscribe provider'
                    (client (subscribe provider c eventName (Some address) id)) s))) a
     = contractSubscriptionsAt c a).
Proof.
  intros Hev Hunused Hreturns.
  pose proof Hunused as [Hid Hcid].
  rewrite subscribe_contract_eq in Hreturns |- * by done. cbv zeta in *.
  set (c0 := _getEventSubscriptions c eventName) in *.
  set (registered := setContractSubscription _ _ _ _) in *.
  set (handle := {| subEventName := eventName; subAddress := Some address;
                    subId := id |}) in *.
  assert (Hresult :
    s = handle /\
    client (if differ (orFlags (flagsFor eventName)
                         (aggregate (contractSubscriptionsAt c address)))
                 (aggregate (contractSubscriptionsAt c address))
            then match provider (apiSubscribe address
                                   (aggregate (contractSubscriptionsAt c address))) with
                 | None => {| client := registered;
                              issued := [apiSubscribe address
                                           (aggregate (contractSubscriptionsAt c address))];
                              completion := Returns handle |}
                 | Some e => {| client := getContractSubscriptions c0 address;
                                issued := [apiSubscribe address
                                             (aggregate (contractSubscriptionsAt c address))];
                                completion := Throws e |}
                 end
            else {| client := registered; issued := [];
                    completion := Returns handle |}) = registered).
  { destruct (differ _ _); [destruct (provider _)|]; simpl in *;
      first [discriminate | by injection Hreturns as <-]. }
  destruct Hresult as [-> ->].
  unfold unsubscribe. simpl.
  assert (Hm : _contractSubscriptions registered !! address =
               Some (<[id := flagsFor eventName]> (contractSubscriptionsAt c0 address))).
  { unfold registered, setContractSubscription. simpl.
    rewrite lookup_insert_eq. by rewrite contractSubscriptionsAt_get. }
  rewrite (unsubscribeContract_client _ _ _ _ _ _ Hm).
  unfold registered. rewrite rollback_restores.
  - split.
    + intros ev. unfold c0.
      by rewrite eventSubscriptions_getContract, eventSubscriptions_get.
    + intros a. unfold c0.
      by rewrite contractSubscriptionsAt_get, contractSubscriptionsAt_getEvent.
  - unfold c0. rewrite eventSubscriptions_container by by apply contractEvents_own.
    by eexists.
  - unfold c0. by rewrite eventSubscriptions_get.
  - unfold c0. by rewrite contractSubscriptionsAt_getEvent.
Qed.

Lemma subscribe_then_unsubscribe_restores_witness :
  (forall ev,
     eventSubscriptions
       (fst (fst (unsubscribe rejecting
                    (client (subscribe resolving emptyClient "transactionsFound"
                               (Some "0:aa") 0))
                    {| subEventName := "transactionsFound"; subAddress := Some "0:aa";
                       subId := 0 |}))) ev
     = eventSubscriptions emptyClient ev) /\
  (forall a,
     contractSubscriptionsAt
       (fst (fst (unsubscribe rejecting
                    (client (subscribe resolving emptyClient "transactionsFound"
                               (Some "0:aa") 0))
                    {| subEventName := "transactionsFound"; subAddress := Some "0:aa";
                       subId := 0 |}))) a
     = contractSubscriptionsAt emptyClient a).
Proof.
  apply (subscribe_then_unsubscribe_restores resolving rejecting emptyClient
           "transactionsFound" "0:aa" 0).
  - apply list_elem_of_In. simpl. tauto.
  - apply emptyClient_unused.
  - reflexivity.
Defined.

Lemma aggregate_split (m : gmap nat ContractUpdatesSubscription) id u :
  m !! id = Some u -> aggregate m = orFlags u (aggregate (delete id m)).
Proof.
  intros Hid. rewrite <- (insert_delete_id m id u Hid) at 1.
  apply aggregate_insert, lookup_delete_eq.
Qed.

(** X14: unsubscribing when no other listener is recorded for the address
    issues exactly one provider call, the unsubscribe request for that
    address. *)
Theorem unsubscribeContract_last_unsubscribes provider c eventName address id
    (m : gmap nat ContractUpdatesSubscription) :
  _contractSubscriptions c !! address = Some m ->
  (forall k, k <> id -> m !! k = None) ->
  snd (fst (unsubscribeContract provider c eventName address id)) =
    [apiUnsubscribe address].
Proof.
  intros Hm Honly. rewrite (unsubscribeContract_eq _ _ _ _ _ m Hm). cbv zeta.
  assert (Hrest : delete id m = ∅).
  { apply map_eq. intros k. rewrite lookup_empty.
    destruct (decide (k = id)) as [->|Hne].
    - apply lookup_delete_eq.
    - rewrite lookup_delete_ne by done. by apply Honly. }
  by rewrite Hrest, aggregate_empty.
Qed.

Lemma unsubscribeContract_last_unsubscribes_witness :
  snd (fst (unsubscribeContract rejecting listening "transactionsFound" "0:aa" 0)) =
    [apiUnsubscribe "0:aa"].
Proof.
  apply (unsubscribeContract_last_unsubscribes rejecting listening
           "transactionsFound" "0:aa" 0 {[ 0 := flagsFor "transactionsFound" ]}).
  - reflexivity.
  - intros k Hk. by apply lookup_singleton_ne.
Defined.

(** X15: unsubscribing a listener whose interest the remaining flag-pairs
    of the address still cover issues no provider call. *)
Theorem unsubscribeContract_covered_issues_no_call provider c eventName address id
    (m : gmap nat ContractUpdatesSubscription) u :
  _contractSubscriptions c !! address = Some m ->
  m !! id = Some u ->
  state u || transactions u = true ->
  leFlags u (aggregate (delete id m)) ->
  snd (fst (unsubscribeContract provider c eventName address id)) = [].
Proof.
  intros Hm Hid Hsome Hcovered.
  rewrite (unsubscribeContract_eq _ _ _ _ _ m Hm). cbv zeta.
  rewrite (aggregate_split m id u Hid).
  pose proof Hcovered as Hd. apply differ_orFlags in Hd. rewrite Hd.
  destruct Hcovered as [Hs Ht].
  destruct (aggregate (delete id m)) as [rs rt]. simpl in *.
  destruct u as [[] []]; simpl in *; try done;
    rewrite ?(Hs eq_refl), ?(Ht eq_refl); by destruct rs, rt.
Qed.

Lemma unsubscribeContract_covered_issues_no_call_witness :
  snd (fst (unsubscribeContract rejecting
              (client (subscribe resolving listening "transactionsFound" (Some "0:aa") 1))
              "transactionsFound" "0:aa" 1)) = [].
Proof.
  apply (unsubscribeContract_covered_issues_no_call rejecting
           (client (subscribe resolving listening "transactionsFound" (Some "0:aa") 1))
           "transactionsFound" "0:aa" 1
           {[ 0 := flagsFor "transactionsFound"; 1 := flagsFor "transactionsFound" ]}
           (flagsFor "transactionsFound")).
  - vm_compute. reflexivity.
  - reflexivity.
  - reflexivity.
  - split; intros H; [discriminate H | vm_compute; reflexivity].
Defined.

(** X16: unsubscribing a listener whose interest the remaining flag-pairs
    do not cover, while they still ask for something, issues exactly one
    provider call: a subscribe request carrying the aggregate of the
    remaining flag-pairs. *)
Theorem unsubscribeContract_reduces_interest provider c eventName address id
    (m : gmap nat ContractUpdatesSubscription) u :
  _contractSubscriptions c !! address = Some m ->
  m !! id = Some u ->
  ~ leFlags u (aggregate (delete id m)) ->
  state (aggregate (delete id m)) || transactions (aggregate (delete id m)) = true ->
  snd (fst (unsubscribeContract provider c eventName address id)) =
    [apiSubscribe address (aggregate (delete id m))].
Proof.
  intros Hm Hid Hnot Hsome.
  rewrite (unsubscribeContract_eq _ _ _ _ _ m Hm). cbv zeta.
  rewrite (aggregate_split m id u Hid).
  destruct (differ _ _) eqn:Hd; [|by apply differ_orFlags in Hd].
  destruct (aggregate (delete id m)) as [[] []]; simpl in *; done.
Qed.

Lemma unsubscribeContract_reduces_interest_witness :
  snd (fst (unsubscribeContract rejecting
              (client (subscribe resolving listening "contractStateChanged"
                         (Some "0:aa") 1))
              "contractStateChanged" "0:aa" 1)) =
    [apiSubscribe "0:aa"
       (aggregate (delete 1 {[ 0 := flagsFor "transactionsFound";
                               1 := flagsFor "contractStateChanged" ]}))].
Proof.
  apply (unsubscribeContract_reduces_interest rejecting
           (client (subscribe resolving listening "contractStateChanged" (Some "0:aa") 1))
           "contractStateChanged" "0:aa" 1
           {[ 0 := flagsFor "transactionsFound"; 1 := flagsFor "contractStateChanged" ]}
           (flagsFor "contractStateChanged")).
  - vm_compute. reflexivity.
  - reflexivity.
  - intros [H _]. specialize (H eq_refl). vm_compute in H. discriminate.
  - vm_compute. reflexivity.
Defined.

Lemma eventSubscriptions_deleteListener c eventName id :
  eventSubscriptions (deleteListener c eventName id) eventName =
    delete id (eventSubscriptions c eventName).
Proof.
  unfold eventSubscriptions at 1. simpl. by rewrite lookup_insert_eq.
Qed.

Lemma contractSubscriptionsAt_delete c address id :
  contractSubscriptionsAt (deleteContractSubscription c address id) address =
    delete id (contractSubscriptionsAt c address).
Proof.
  unfold contractSubscriptionsAt at 1. simpl. by rewrite lookup_insert_eq.
Qed.

(** X17: unsubscription is not undone when the provider rejects: whatever
    the provider answers, the id is afterwards in neither map, and the
    answer to the call that was issued is what the caller gets. *)
Theorem unsubscribeContract_keeps_deletions provider c eventName address id
    (m : gmap nat ContractUpdatesSubscription) :
  _contractSubscriptions c !! address = Some m ->
  eventSubscriptions (fst (fst (unsubscribeContract provider c eventName address id)))
    eventName !! id = None /\
  contractSubscriptionsAt (fst (fst (unsubscribeContract provider c eventName address id)))
    address !! id = None /\
  (forall request,
     snd (fst (unsubscribeContract provider c eventName address id)) = [request] ->
     snd (unsubscribeContract provider c eventName address id) = provider request).
Proof.
  intros Hm. rewrite (unsubscribeContract_client _ _ _ _ _ m Hm).
  split; [|split].
  - change (eventSubscriptions (deleteContractSubscription ?c' _ _) eventName)
      with (eventSubscriptions c' eventName).
    rewrite eventSubscriptions_deleteListener. apply lookup_delete_eq.
  - rewrite contractSubscriptionsAt_delete. apply lookup_delete_eq.
  - rewrite (unsubscribeContract_eq _ _ _ _ _ m Hm). cbv zeta.
    intros request.
    destruct (_ && _); [by intros [= <-]|].
    destruct (differ _ _); [by intros [= <-] | done].
Qed.

Lemma unsubscribeContract_keeps_deletions_witness :
  eventSubscriptions
    (fst (fst (unsubscribeContract rejecting listening "transactionsFound" "0:aa" 0)))
    "transactionsFound" !! 0 = None /\
  contractSubscriptionsAt
    (fst (fst (unsubscribeContract rejecting listening "transactionsFound" "0:aa" 0)))
    "0:aa" !! 0 = None /\
  (forall request,
     snd (fst (unsubscribeContract rejecting listening "transactionsFound" "0:aa" 0))
       = [request] ->
     snd (unsubscribeContract rejecting listening "transactionsFound" "0:aa" 0)
       = rejecting request).
Proof.
  apply (unsubscribeContract_keeps_deletions rejecting listening
           "transactionsFound" "0:aa" 0 {[ 0 := flagsFor "transactionsFound" ]}).
  reflexivity.
Defined.

(** *** Fan-out *)

Lemma objectValuesOf_empty {V} : objectValuesOf (∅ : gmap nat V) = [].
Proof. unfold objectValuesOf. by rewrite map_to_list_empty. Qed.

Lemma objectValuesOf_insert {V} (o : gmap nat V) id v :
  o !! id = None -> objectValuesOf (<[id := v]> o) ≡ₚ v :: objectValuesOf o.
Proof.
  intros Hid. unfold objectValuesOf.
  rewrite !merge_sort_Permutation, map_to_list_insert by done. done.
Qed.

Lemma fanOut_eq c eventName :
  eventName ∈ knownEvents ->
  fanOut c eventName = objectValuesOf (eventSubscriptions c eventName).
Proof.
  intros Hk. unfold fanOut, eventSubscriptions.
  destruct (decide (eventName ∈ knownEvents)); [|done].
  destruct (_subscriptions c !! eventName); [done|].
  simpl. by rewrite objectValuesOf_empty.
Qed.

Lemma fanOut_ext c c' ev :
  eventSubscriptions c' ev = eventSubscriptions c ev -> fanOut c' ev = fanOut c ev.
Proof.
  intros Heq. unfold fanOut.
  destruct (decide (ev ∈ knownEvents)) as [Hk|]; [|done].
  pose proof (fanOut_eq c ev Hk) as H1. pose proof (fanOut_eq c' ev Hk) as H2.
  unfold fanOut in H1, H2.
  destruct (decide (ev ∈ knownEvents)); [|done].
  by rewrite H1, H2, Heq.
Qed.

Lemma known_events eventName :
  eventName ∈ globalEvents \/ eventName ∈ contractEvents -> eventName ∈ knownEvents.
Proof.
  intros [H|H]; apply list_elem_of_In in H; apply list_elem_of_In; simpl in *; tauto.
Qed.

(** A [subscribe] that returns has recorded its listener and touched no
    other listener; one that throws has recorded none. *)
Lemma subscribe_listeners provider c eventName params id :
  unusedId c id ->
  match completion (subscribe provider c eventName params id) with
  | Returns _ =>
      (eventName ∈ globalEvents \/ eventName ∈ contractEvents) /\
      eventSubscriptions (client (subscribe provider c eventName params id)) eventName =
        <[id := notifies id]> (eventSubscriptions c eventName) /\
      (forall ev, ev <> eventName ->
         eventSubscriptions (client (subscribe provider c eventName params id)) ev =
           eventSubscriptions c ev)
  | Throws _ =>
      forall ev,
        eventSubscriptions (client (subscribe provider c eventName params id)) ev =
          eventSubscriptions c ev
  end.
Proof.
  intros Hunused. pose proof Hunused as [Hid Hcid].
  destruct (decide (eventName ∈ contractEvents)) as [Hc|Hnc];
    [destruct params as [address|]|].
  - rewrite subscribe_contract_eq by done. cbv zeta.
    set (c0 := _getEventSubscriptions c eventName).
    assert (Hreg :
      eventSubscriptions
        (setContractSubscription
           (getContractSubscriptions (setListener c0 eventName id (notifies id)) address)
           address id (flagsFor eventName)) eventName =
        <[id := notifies id]> (eventSubscriptions c eventName) /\
      (forall ev, ev <> eventName ->
         eventSubscriptions
           (setContractSubscription
              (getContractSubscriptions (setListener c0 eventName id (notifies id))
                 address)
              address id (flagsFor eventName)) ev = eventSubscriptions c ev)).
    { split.
      - unfold c0. by rewrite eventSubscriptions_registered, eventSubscriptions_get.
      - intros ev Hne.
        change (eventSubscriptions (setContractSubscription ?c' _ _ _) ev)
          with (eventSubscriptions c' ev).
        unfold c0.
        by rewrite eventSubscriptions_getContract, eventSubscriptions_other,
          eventSubscriptions_get. }
    destruct (differ _ _); [destruct (provider _)|]; simpl.
    + intros ev. unfold c0.
      by rewrite eventSubscriptions_getContract, eventSubscriptions_get.
    + split; [by right | done].
    + split; [by right | done].
  - unfold subscribe.
    destruct (decide (eventName ∈ globalEvents)) as [Hg|_];
      [by apply contractEvents_not_global in Hc|].
    destruct (decide (eventName ∈ contractEvents)); [|done]. simpl.
    intros ev. apply eventSubscriptions_get.
  - unfold subscribe.
    destruct (decide (eventName ∈ globalEvents)) as [Hg|Hng].
    + simpl. unfold subscribeGlobal. rewrite eventSubscriptions_get, Hid.
      split; [by left|]. split.
      * by rewrite eventSubscriptions_setListener, eventSubscriptions_get.
      * intros ev Hne. by rewrite eventSubscriptions_other, eventSubscriptions_get.
    + destruct (decide (eventName ∈ contractEvents)); [done|]. simpl.
      intros ev. apply eventSubscriptions_get.
Qed.

(** X18: after a [subscribe] that returns, an event of that name reaches
    the new listener once more than before, next to the listeners it reached
    already; events of every other name reach the listeners they reached
    before. *)
Theorem subscribe_returned_joins_fanOut provider c eventName params id s :
  unusedId c id ->
  completion (subscribe provider c eventName params id) = Returns s ->
  fanOut (client (subscribe provider c eventName params id)) eventName
    ≡ₚ notifies id :: fanOut c eventName /\
  (forall ev, ev <> eventName ->
     fanOut (client (subscribe provider c eventName params id)) ev = fanOut c ev).
Proof.
  intros Hunused Hreturns.
  pose proof (subscribe_listeners provider c eventName params id Hunused) as H.
  rewrite Hreturns in H. destruct H as (Hknown%known_events & Hadd & Hother).
  split.
  - rewrite !fanOut_eq, Hadd by done.
    apply objectValuesOf_insert. by destruct Hunused.
  - intros ev Hne. apply fanOut_ext. by apply Hother.
Qed.

Lemma subscribe_returned_joins_fanOut_witness :
  fanOut (client (subscribe resolving listening "transactionsFound" (Some "0:aa") 1))
    "transactionsFound"
    ≡ₚ notifies 1 :: fanOut listening "transactionsFound" /\
  (forall ev, ev <> "transactionsFound" ->
     fanOut (client (subscribe resolving listening "transactionsFound" (Some "0:aa") 1)) ev
     = fanOut listening ev).
Proof.
  apply (subscribe_returned_joins_fanOut resolving listening "transactionsFound"
           (Some "0:aa") 1
           {| subEventName := "transactionsFound"; subAddress := Some "0:aa";
              subId := 1 |}).
  - apply listening_unused. discriminate.
  - vm_compute. reflexivity.
Defined.

(** X19: a [subscribe] that fails, for whatever reason, changes nothing
    about who is notified: events of every name reach exactly the listeners
    they reached before. *)
Theorem subscribe_thrown_keeps_fanOut provider c eventName params id e :
  unusedId c id ->
  completion (subscribe provider c eventName params id) = Throws e ->
  forall ev, fanOut (client (subscribe provider c eventName params id)) ev = fanOut c ev.
Proof.
  intros Hunused Hthrows ev.
  pose proof (subscribe_listeners provider c eventName params id Hunused) as H.
  rewrite Hthrows in H. apply fanOut_ext, H.
Qed.

Lemma subscribe_thrown_keeps_fanOut_witness :
  fanOut (client (subscribe rejecting listening "contractStateChanged" (Some "0:aa") 1))
    "transactionsFound" = fanOut listening "transactionsFound".
Proof.
  assert (Hunused : unusedId listening 1) by (apply listening_unused; discriminate).
  assert (Hthrows : completion (subscribe rejecting listening "contractStateChanged"
                                  (Some "0:aa") 1) = Throws (Rejected "rejected"))
    by (vm_compute; reflexivity).
  exact (subscribe_thrown_keeps_fanOut rejecting listening "contractStateChanged"
           (Some "0:aa") 1 (Rejected "rejected") Hunused Hthrows "transactionsFound").
Defined.

End ManagerProperties.

(** ** Messages, transactions and permissions on the wire *)

Section WireProperties.
Import Wire.

Lemma truthy_spec s : truthy s = true <-> s <> "".
Proof.
  unfold truthy. destruct (String.eqb_spec s "") as [->|Hne]; simpl.
  - split; [discriminate | by intros H].
  - split; [done | done].
Qed.

Lemma address_there_and_back (a : option Address) :
  match match a with
        | Some a => Some (toString a)
        | None => None
        end with
  | Some s => if truthy s then Some (mkAddress s) else None
  | None => None
  end = a <-> keptAddress a.
Proof.
  destruct a as [[s]|]; simpl; [|done].
  destruct (truthy s) eqn:Ht.
  - apply truthy_spec in Ht. done.
  - split; [done|]. intros Hs%truthy_spec. congruence.
Qed.

Lemma raw_there_and_back (a : option string) :
  match match a with
        | Some s => if truthy s then Some (mkAddress s) else None
        | None => None
        end with
  | Some a => Some (toString a)
  | None => None
  end = a <-> keptRaw a.
Proof.
  destruct a as [s|]; simpl; [|done].
  destruct (truthy s) eqn:Ht; simpl.
  - apply truthy_spec in Ht. done.
  - split; [done|]. intros Hs%truthy_spec. congruence.
Qed.

(** X20: serializing a message and parsing it back returns the message
    exactly when its source and its destination are each absent or an
    address with a non-empty string; an address with the empty string comes
    back as absent. *)
Theorem parseMessage_serializeMessage (m : Message Address) :
  parseMessage (serializeMessage m) = m <->
  keptAddress (src m) /\ keptAddress (dst m).
Proof.
  destruct m as [s d v b bd bo bh].
  unfold parseMessage, serializeMessage. simpl.
  rewrite <- (address_there_and_back s), <- (address_there_and_back d).
  split.
  - intros [= Hs Hd]. done.
  - intros [-> ->]. done.
Qed.

(** X21: parsing a raw message and serializing it again returns the raw
    message exactly when its source and its destination are each absent or
    a non-empty string. *)
Theorem serializeMessage_parseMessage (m : Message string) :
  serializeMessage (parseMessage m) = m <->
  keptRaw (src m) /\ keptRaw (dst m).
Proof.
  destruct m as [s d v b bd bo bh].
  unfold parseMessage, serializeMessage. simpl.
  rewrite <- (raw_there_and_back s), <- (raw_there_and_back d).
  split.
  - intros [= Hs Hd]. done.
  - intros [-> ->]. done.
Qed.

Lemma parseMessage_serializeMessage_fields (m : Message Address) :
  parseMessage (serializeMessage m) = m <->
  keptAddress (src m) /\ keptAddress (dst m).
Proof.
  destruct m as [s d v b bd bo bh].
  unfold parseMessage, serializeMessage. simpl.
  rewrite <- (address_there_and_back s), <- (address_there_and_back d).
  split.
  - intros [= Hs Hd]. done.
  - intros [-> ->]. done.
Qed.

Lemma map_id_iff {A} (f : A -> A) (l : list A) :
  map f l = l <-> Forall (fun a => f a = a) l.
Proof.
  induction l as [|a l IH]; simpl.
  - split; [constructor | done].
  - rewrite Forall_cons. rewrite <- IH. split.
    + intros [= Ha Hl]. done.
    + intros [-> ->]. done.
Qed.

(** X22: serializing a transaction and parsing it back returns the
    transaction exactly when every address of its inbound message and of
    its outbound messages has a non-empty string; the other fields, and the
    number and order of the outbound messages, always come back. *)
Theorem parseTransaction_serializeTransaction (t : Transaction Address) :
  parseTransaction (serializeTransaction t) = t <->
  (keptAddress (src (inMessage t)) /\ keptAddress (dst (inMessage t))) /\
  Forall (fun m => keptAddress (src m) /\ keptAddress (dst m)) (outMessages t).
Proof.
  destruct t as [i p c a o e f im om].
  unfold parseTransaction, serializeTransaction. simpl.
  rewrite <- parseMessage_serializeMessage_fields.
  rewrite map_map.
  split.
  - intros [= Him Hom]. split; [done|].
    apply map_id_iff in Hom. eapply Forall_impl; [exact Hom|].
    intros m Hm. by apply parseMessage_serializeMessage_fields.
  - intros [Him Hom]. rewrite Him. f_equal.
    apply map_id_iff. eapply Forall_impl; [exact Hom|].
    intros m Hm. by apply parseMessage_serializeMessage_fields.
Qed.

(** X23: [parsePermissions] loses nothing: two raw permission objects
    that parse to the same permissions are the same. *)
Theorem parsePermissions_injective (p q : Permissions string) :
  parsePermissions p = parsePermissions q -> p = q.
Proof.
  destruct p as [tp [[ap kp cp]|]], q as [tq [[aq kq cq]|]];
    unfold parsePermissions, parseAccountInteraction; simpl;
    intros [=]; by subst.
Qed.

Lemma parsePermissions_injective_witness :
  {| tonClient := Some tt;
     accountInteraction :=
       Some {| address := "0:aa"; publicKey := "k"; contractType := SurfWallet |} |}
  = {| tonClient := Some tt;
       accountInteraction :=
         Some {| address := "0:aa"; publicKey := "k"; contractType := SurfWallet |} |}.
Proof.
  apply (parsePermissions_injective
           {| tonClient := Some tt;
              accountInteraction :=
                Some {| address := "0:aa"; publicKey := "k";
                        contractType := SurfWallet |} |}
           {| tonClient := Some tt;
              accountInteraction :=
                Some {| address := "0:aa"; publicKey := "k";
                        contractType := SurfWallet |} |}).
  reflexivity.
Defined.

End WireProperties.

(** ** ABI token codec: serialization and the way back *)

Section CodecRoundTrip.
Import Codec CodecDomain.

Implicit Types (fields result : list (string * TokenValue)) (key k : string).

(** *** Strings *)

Lemma length_string_app (a b : string) :
  String.length (a ++ b)%string = String.length a + String.length b.
Proof. induction a as [|c a IH]; simpl; [done | by rewrite IH]. Qed.

Lemma sliceTo_app (a b : string) : sliceTo (a ++ b)%string (String.length a) = a.
Proof. induction a as [|c a IH]; simpl; [by destruct b | by rewrite IH]. Qed.

Lemma sliceFrom_app (a b : string) : sliceFrom (a ++ b)%string (String.length a) = b.
Proof. induction a as [|c a IH]; simpl; [by destruct b | done]. Qed.

Lemma sliceEnd_app (a b : string) :
  sliceEnd (a ++ b)%string (String.length b) = a.
Proof.
  unfold sliceEnd. rewrite length_string_app.
  replace (String.length a + String.length b - String.length b)
    with (String.length a) by lia.
  apply sliceTo_app.
Qed.

Lemma endsWith_app (a b : string) : endsWith (a ++ b)%string b = true.
Proof.
  unfold endsWith. rewrite length_string_app.
  replace (String.length a + String.length b - String.length b)
    with (String.length a) by lia.
  rewrite sliceFrom_app. apply String.eqb_refl.
Qed.

Lemma eqb_shorter (a b : string) :
  String.length a < String.length b -> String.eqb a b = false.
Proof. intros Hlt. apply String.eqb_neq. intros ->. lia. Qed.

Lemma prefix_cons a p b s :
  String.prefix (String a p) (String b s) =
    if ascii_dec a b then String.prefix p s else false.
Proof. reflexivity. Qed.

Lemma startsWith_map_brackets k :
  startsWith k "map" = false -> startsWith (k ++ "[]")%string "map" = false.
Proof.
  unfold startsWith. intros H.
  destruct k as [|c1 [|c2 [|c3 k]]]; [reflexivity| | |].
  - change (String.prefix "map" (String c1 "[]") = false).
    rewrite prefix_cons. destruct (ascii_dec "m" c1); [reflexivity | done].
  - change (String.prefix "map" (String c1 (String c2 "[]")) = false).
    rewrite !prefix_cons.
    destruct (ascii_dec "m" c1); [|done]. destruct (ascii_dec "a" c2); [|done].
    reflexivity.
  - change (String.prefix "map" (String c1 (String c2 (String c3 (k ++ "[]")))) = false).
    rewrite !prefix_cons in H |- *.
    destruct (ascii_dec "m" c1); [|done]. destruct (ascii_dec "a" c2); [|done].
    destruct (ascii_dec "p" c3); [|done]. by destruct k.
Qed.

Lemma endsWith_brackets_shorter t :
  endsWith t "[]" = true -> String.eqb (sliceEnd t 2) t = false.
Proof.
  unfold endsWith. intros Hends%String.eqb_eq.
  apply (f_equal String.length) in Hends. rewrite length_sliceFrom in Hends.
  simpl in Hends. apply eqb_shorter. unfold sliceEnd. rewrite length_sliceTo. lia.
Qed.

Lemma split_noComma s : noComma s = true -> split "," s = [s].
Proof.
  induction s as [|c s IH]; simpl; [done|].
  intros [Hc Hs]%andb_true_iff. apply negb_true_iff in Hc.
  by rewrite Hc, IH.
Qed.

Lemma split_comma a b :
  noComma a = true -> split "," (a ++ "," ++ b)%string = a :: split "," b.
Proof.
  induction a as [|c a IH]; simpl; [done|].
  intros [Hc Ha]%andb_true_iff. apply negb_true_iff in Hc.
  by rewrite Hc, IH.
Qed.

Lemma split_map_type k v :
  noComma k = true -> noComma v = true ->
  split "," ("map(" ++ k ++ "," ++ v ++ ")")%string
    = [("map(" ++ k)%string; (v ++ ")")%string].
Proof.
  intros Hk Hv.
  assert (Hleft : noComma ("map(" ++ k)%string = true) by done.
  assert (Hright : noComma (v ++ ")")%string = true).
  { clear -Hv. induction v as [|c v IH]; simpl in *; [done|].
    apply andb_true_iff in Hv as [-> Hv]. by rewrite IH. }
  change ("map(" ++ k ++ "," ++ v ++ ")")%string
    with (("map(" ++ k) ++ "," ++ (v ++ ")"))%string.
  by rewrite split_comma, split_noComma.
Qed.

(** *** One step of the parser, without fuel in sight *)

Lemma parseTokenValue_fuel param token fuel :
  paramSize param <= fuel ->
  parseTokenValueFuel fuel param token = parseTokenValue param token.
Proof. intros Hle. by apply parseTokenValueFuel_more. Qed.

Lemma paramSize_positive param : exists n, paramSize param = S n.
Proof. destruct param as [n t cs]. rewrite paramSize_eq. by eexists. Qed.

Lemma parseTokenValue_array param token :
  startsWith (type param) "map" = false ->
  endsWith (type param) "[]" = true ->
  parseTokenValue param token =
    (items <- iterate token ;;
     result <- forEachPush
                 (parseTokenValue {| name := name param;
                                     type := sliceEnd (type param) 2;
                                     components := components param |}) items ;;
     Ok (VArray result)).
Proof.
  intros Hmap Hends. unfold parseTokenValue at 1.
  destruct param as [n t cs]. simpl in Hmap, Hends.
  pose proof (endsWith_brackets_shorter t Hends) as Hshort.
  pose proof (array_item_type_shorter t Hshort) as Hlen.
  rewrite paramSize_eq.
  remember (String.length t + match cs with
                              | Some l => list_sum (map paramSize l)
                              | None => 0
                              end) as fuel eqn:Hfuel.
  simpl. rewrite Hmap, Hends, Hshort. simpl.
  destruct (iterate token) as [items| |]; simpl; try done.
  f_equal. apply forEachPush_ext. intros item.
  apply parseTokenValue_fuel. rewrite paramSize_eq. lia.
Qed.

Lemma parseTokenValue_tuple param token comps :
  type param = "tuple" ->
  components param = Some comps ->
  parseTokenValue param token =
    (result <- forEachAssign
                 (fun result component =>
                    raw <- getProperty token (name component) ;;
                    v <- parseTokenValue component raw ;;
                    Ok (setProperty result (name component) v))
                 comps [] ;;
     Ok (VObject result)).
Proof.
  intros Htype Hcomps. unfold parseTokenValue at 1.
  destruct param as [n t cs]. simpl in Htype, Hcomps. subst.
  rewrite paramSize_eq.
  remember (String.length "tuple" + list_sum (map paramSize comps)) as fuel eqn:Hfuel.
  simpl.
  f_equal. apply forEachAssign_ext. intros r c Hc.
  destruct (getProperty token (name c)) as [raw| |]; simpl; try done.
  rewrite parseTokenValue_fuel; [done|].
  pose proof (paramSize_component comps c Hc). lia.
Qed.

Lemma parseTokenValue_tuple_empty param token :
  type param = "tuple" ->
  components param = None ->
  parseTokenValue param token = Ok (VObject []).
Proof.
  intros Htype Hcomps. unfold parseTokenValue.
  destruct param as [n t cs]. simpl in Htype, Hcomps. by subst.
Qed.

Lemma parseTokenValue_address param token :
  type param = "address" -> parseTokenValue param token = Ok (VAddress token).
Proof.
  intros Htype. unfold parseTokenValue.
  destruct param as [n t cs]. simpl in Htype. subst.
  rewrite paramSize_eq. done.
Qed.

Lemma parseTokenValue_map param token k v :
  type param = ("map(" ++ k ++ "," ++ v ++ ")")%string ->
  noComma k = true -> noComma v = true ->
  parseTokenValue param token =
    (entries <- iterate token ;;
     result <- forEachPush
                 (fun entry =>
                    pair <- iterate entry ;;
                    key <- parseTokenValue
                             {| name := ""; type := k; components := None |}
                             (nth 0 pair VUndefined) ;;
                    value <- parseTokenValue
                               {| name := ""; type := v; components := None |}
                               (nth 1 pair VUndefined) ;;
                    Ok (VArray [key; value]))
                 entries ;;
     Ok (VArray result)).
Proof.
  intros Htype Hk Hv. unfold parseTokenValue at 1.
  destruct param as [n t cs]. simpl in Htype. subst.
  rewrite paramSize_eq.
  remember (String.length ("map(" ++ k ++ "," ++ v ++ ")") +
            match cs with
            | Some l => list_sum (map paramSize l)
            | None => 0
            end) as fuel eqn:Hfuel.
  rewrite !length_string_app in Hfuel. simpl in Hfuel.
  assert (Hsplit : split "," ("map(" ++ k ++ "," ++ v ++ ")")
                   = [("map(" ++ k)%string; (v ++ ")")%string])
    by by apply split_map_type.
  cbn [parseTokenValueFuel type name components].
  change (startsWith ("map(" ++ k ++ "," ++ v ++ ")") "map") with true.
  cbn [negb]. rewrite Hsplit. cbn [lookup list_lookup nth].
  replace (sliceFrom ("map(" ++ k) 4) with k by (simpl; by destruct k).
  change (sliceEnd (v ++ ")") 1) with (sliceEnd (v ++ ")") (String.length ")")).
  rewrite sliceEnd_app.
  destruct (iterate token) as [entries| |]; simpl; try done.
  f_equal. apply forEachPush_ext. intros entry.
  destruct (iterate entry) as [pair| |]; simpl; try done.
  rewrite !parseTokenValue_fuel; [done| |]; rewrite paramSize_eq; lia.
Qed.

Lemma parseTokenValue_map_parts param token :
  startsWith (type param) "map" = true ->
  parseTokenValue param token =
    match split "," (type param) !! 1 with
    | None => TypeError
    | Some valueType =>
        entries <- iterate token ;;
        result <- forEachPush
                    (fun entry =>
                       pair <- iterate entry ;;
                       key <- parseTokenValue
                                {| name := "";
                                   type := sliceFrom (nth 0 (split "," (type param)) "") 4;
                                   components := None |}
                                (nth 0 pair VUndefined) ;;
                       value <- parseTokenValue
                                  {| name := ""; type := sliceEnd valueType 1;
                                     components := None |}
                                  (nth 1 pair VUndefined) ;;
                       Ok (VArray [key; value]))
                    entries ;;
        Ok (VArray result)
    end.
Proof.
  intros Hmap. unfold parseTokenValue at 1.
  destruct param as [n t cs]. cbn [type] in *.
  rewrite paramSize_eq.
  remember (String.length t +
            match cs with
            | Some l => list_sum (map paramSize l)
            | None => 0
            end) as fuel eqn:Hfuel.
  cbn [parseTokenValueFuel type name components].
  rewrite Hmap. cbn [negb].
  destruct (split "," t !! 1) as [valueType|] eqn:Hvalue; [|done].
  pose proof (map_key_type_shorter t Hmap) as Hkey.
  pose proof (map_value_type_shorter t valueType Hvalue) as Hval.
  destruct (iterate token) as [entries| |]; simpl; try done.
  f_equal. apply forEachPush_ext. intros entry.
  destruct (iterate entry) as [pair| |]; simpl; try done.
  rewrite !parseTokenValue_fuel; [done| |]; rewrite paramSize_eq; lia.
Qed.

(** A type that starts with [map] and holds no comma has no value type:
    [valueType.slice] is called on [undefined]. *)
Lemma parseTokenValue_map_without_comma param token :
  startsWith (type param) "map" = true ->
  noComma (type param) = true ->
  parseTokenValue param token = TypeError.
Proof.
  intros Hmap Hcomma. rewrite parseTokenValue_map_parts by done.
  by rewrite split_noComma.
Qed.

Lemma noComma_sliceTo s n : noComma s = true -> noComma (sliceTo s n) = true.
Proof.
  revert s. induction n as [|n IH]; intros [|c s]; simpl; try done.
  intros [-> Hs]%andb_true_iff. by apply IH.
Qed.

Lemma forEachPush_failing {A B} (f : A -> Result B) items :
  (forall a, f a = TypeError) ->
  forEachPush f items = match items with [] => Ok [] | _ => TypeError end.
Proof. intros H. destruct items as [|a items]; simpl; [done | by rewrite H]. Qed.

(** *** Serialization *)

Lemma TokenValue_induction (P : TokenValue -> Prop) :
  P VUndefined ->
  (forall b, P (VBool b)) ->
  (forall n, P (VNumber n)) ->
  (forall s, P (VString s)) ->
  (forall a, P a -> P (VAddress a)) ->
  (forall items, Forall P items -> P (VArray items)) ->
  (forall fields, Forall (fun f => P (snd f)) fields -> P (VObject fields)) ->
  forall v, P v.
Proof.
  intros Hu Hb Hn Hs Ha Harr Hobj.
  fix IH 1. intros [|b|n|s|a|items|fields].
  - exact Hu.
  - apply Hb.
  - apply Hn.
  - apply Hs.
  - apply Ha, IH.
  - apply Harr. induction items as [|x xs IHxs]; constructor; [apply IH | exact IHxs].
  - apply Hobj. induction fields as [|[k x] xs IHxs]; constructor;
      [apply IH | exact IHxs].
Qed.

Lemma serializeTokenValue_object fields :
  serializeTokenValue (VObject fields) =
    VObject (fold_left
               (fun result f => setProperty result (fst f) (serializeTokenValue (snd f)))
               fields []).
Proof.
  simpl. f_equal. generalize (@nil (string * TokenValue)).
  induction fields as [|[k v] rest IH]; intros acc; simpl; [done | apply IH].
Qed.

Lemma replaceOwn_Forall (P : TokenValue -> Prop) fields k v :
  Forall (fun f => P (snd f)) fields -> P v ->
  Forall (fun f => P (snd f)) (replaceOwn fields k v).
Proof.
  intros Hall Hv. induction Hall as [|[k0 w] rest Hw Hrest IH]; simpl; [constructor|].
  destruct (String.eqb k0 k); by constructor.
Qed.

Lemma insertIndexed_Forall (P : TokenValue -> Prop) fields n k v :
  Forall (fun f => P (snd f)) fields -> P v ->
  Forall (fun f => P (snd f)) (insertIndexed fields n k v).
Proof.
  intros Hall Hv. induction Hall as [|[k0 w] rest Hw Hrest IH]; simpl.
  - by constructor.
  - destruct (arrayIndex k0) as [m|]; [destruct (n <? m)%N|];
      repeat (constructor; try done).
Qed.

Lemma setProperty_Forall (P : TokenValue -> Prop) fields k v :
  Forall (fun f => P (snd f)) fields -> P v ->
  Forall (fun f => P (snd f)) (setProperty fields k v).
Proof.
  intros Hall Hv. unfold setProperty.
  destruct (getOwn fields k); [by apply replaceOwn_Forall|].
  destruct (String.eqb k "__proto__"); [done|].
  destruct (arrayIndex k); [by apply insertIndexed_Forall|].
  apply Forall_app. split; [done|]. by constructor.
Qed.

Lemma assignments_Forall (P : TokenValue -> Prop) (g : TokenValue -> TokenValue)
    fields : forall acc : list (string * TokenValue),
  Forall (fun f => P (g (snd f))) fields ->
  Forall (fun f => P (snd f)) acc ->
  Forall (fun f => P (snd f))
    (fold_left (fun result f => setProperty result (fst f) (g (snd f))) fields acc).
Proof.
  induction fields as [|f rest IH]; intros acc Hall Hacc; simpl; [done|].
  apply Forall_cons in Hall as [Hf Hrest].
  apply IH; [done|]. by apply setProperty_Forall.
Qed.

(** Assigning fields with pairwise distinct names, none an array index or
    [__proto__], lists them in the order of assignment. *)
Lemma assignments_plain (g : TokenValue -> TokenValue) fields :
  forall acc : list (string * TokenValue),
  NoDup (map fst acc ++ map fst fields) ->
  Forall (fun f => arrayIndex (fst f) = None) fields ->
  "__proto__" ∉ map fst fields ->
  fold_left (fun result f => setProperty result (fst f) (g (snd f))) fields acc =
    acc ++ map (fun f => (fst f, g (snd f))) fields.
Proof.
  induction fields as [|[k v] rest IH]; intros acc Hnd Hplain Hproto; simpl.
  - by rewrite app_nil_r.
  - apply Forall_cons in Hplain as [Hk Hrest]. simpl in *.
    apply not_elem_of_cons in Hproto as [Hproto Hprotos].
    apply NoDup_app in Hnd as (Hnd1 & Hdisj & Hnd2).
    apply NoDup_cons in Hnd2 as [Hk2 Hnd2].
    assert (Hnew : k ∉ map fst acc).
    { intros Hin. apply (Hdisj _ Hin). by left. }
    rewrite setProperty_new_plain by done.
    rewrite IH; [by rewrite <- app_assoc | | done | done].
    rewrite map_app. simpl. apply NoDup_app. split; [|split; [|done]].
    + apply NoDup_app. split; [done|]. split; [|apply NoDup_singleton].
      intros k' Hk' ->%list_elem_of_singleton. done.
    + intros k' [Hk'| ->%list_elem_of_singleton]%elem_of_app Hin.
      * apply (Hdisj _ Hk'). by right.
      * done.
Qed.

(** X24: the serialization of a value whose addresses wrap strings holds
    no [Address] any more, at any depth. *)
Theorem serializeTokenValue_removes_addresses v :
  stringAddresses v = true -> addressFree (serializeTokenValue v) = true.
Proof.
  induction v as [|b|n|s|a IH|items IH|fields IH] using TokenValue_induction;
    intros Hwf; try done.
  - simpl in *. destruct a; try done.
  - simpl in *. rewrite forallb_forall in Hwf. apply forallb_forall.
    intros x [y [<- Hy]]%in_map_iff. rewrite Forall_forall in IH.
    apply IH; [by apply list_elem_of_In | by apply Hwf].
  - rewrite serializeTokenValue_object. simpl in *.
    apply forallb_forall. rewrite forallb_forall in Hwf.
    assert (Hall : Forall (fun f => addressFree (snd f) = true)
              (fold_left
                 (fun result f =>
                    setProperty result (fst f) (serializeTokenValue (snd f)))
                 fields [])).
    { apply (assignments_Forall (fun x => addressFree x = true)); [|constructor].
      rewrite Forall_forall in IH |- *. intros f Hf.
      apply IH; [done|]. apply Hwf. by apply list_elem_of_In. }
    rewrite Forall_forall in Hall. intros f Hf. apply Hall. by apply list_elem_of_In.
Qed.

Lemma serializeTokenValue_removes_addresses_witness :
  addressFree
    (serializeTokenValue
       (VObject [("to", VAddress (VString "0:aa"));
                 ("all", VArray [VAddress (VString "0:bb"); VNumber 1])])) = true.
Proof.
  apply (serializeTokenValue_removes_addresses
           (VObject [("to", VAddress (VString "0:aa"));
                     ("all", VArray [VAddress (VString "0:bb"); VNumber 1])])).
  reflexivity.
Defined.

(** X25: serialization returns the value itself when the value holds no
    [Address] and every object in it lists pairwise distinct names, none an
    array index and none [__proto__]. *)
Theorem serializeTokenValue_identity v :
  addressFree v = true -> plainNames v = true -> serializeTokenValue v = v.
Proof.
  induction v as [|b|n|s|a IH|items IH|fields IH] using TokenValue_induction;
    intros Hfree Hplain; try done.
  - simpl in *. f_equal. rewrite forallb_forall in Hfree, Hplain.
    rewrite <- (map_id items) at 2. apply map_ext_in. intros x Hx.
    rewrite Forall_forall in IH. apply IH; [by apply list_elem_of_In | auto | auto].
  - rewrite serializeTokenValue_object. simpl in Hfree, Hplain.
    apply andb_true_iff in Hplain as [[Hnd%bool_decide_eq_true Hidx]%andb_true_iff Hrec].
    rewrite forallb_forall in Hfree, Hidx, Hrec.
    rewrite assignments_plain.
    + simpl. f_equal. rewrite <- (map_id fields) at 2. apply map_ext_in.
      intros [k x] Hx. simpl. f_equal.
      rewrite Forall_forall in IH.
      apply (IH (k, x)); [by apply list_elem_of_In | by apply (Hfree (k, x))
                         | by apply (Hrec (k, x))].
    + done.
    + apply Forall_forall. intros f Hf%list_elem_of_In.
      specialize (Hidx f Hf). by destruct (arrayIndex (fst f)).
    + intros ((k & x) & Hk & Hf%list_elem_of_In)%list_elem_of_fmap.
      specialize (Hidx _ Hf). simpl in Hk, Hidx. subst k.
      by destruct (arrayIndex "__proto__").
Qed.

Lemma serializeTokenValue_identity_witness :
  serializeTokenValue
    (VObject [("amount", VString "10"); ("flags", VArray [VBool true; VNumber 3])])
  = VObject [("amount", VString "10"); ("flags", VArray [VBool true; VNumber 3])].
Proof.
  apply (serializeTokenValue_identity
           (VObject [("amount", VString "10");
                     ("flags", VArray [VBool true; VNumber 3])])).
  - reflexivity.
  - reflexivity.
Defined.

(** *** Parsing what was serialized *)

Lemma forEachPush_map_ok {A B} (f : A -> Result B) (g : B -> A) items :
  Forall (fun b => f (g b) = Ok b) items -> forEachPush f (map g items) = Ok items.
Proof.
  induction 1 as [|b items Hb _ IH]; simpl; [done|]. rewrite Hb. simpl. by rewrite IH.
Qed.

Lemma getOwn_present fields k v :
  NoDup (map fst fields) -> (k, v) ∈ fields -> getOwn fields k = Some v.
Proof.
  induction fields as [|[k0 w] rest IH]; simpl; intros Hnd Hin.
  - by apply elem_of_nil in Hin.
  - apply NoDup_cons in Hnd as [Hk0 Hnd].
    apply elem_of_cons in Hin as [[= -> ->]|Hin]; [by rewrite String.eqb_refl|].
    destruct (String.eqb_spec k0 k) as [->|Hne]; [|by apply IH].
    exfalso. apply Hk0. apply list_elem_of_fmap. by exists (k, v).
Qed.

Lemma field_names {Q : AbiParam -> string * TokenValue -> Prop} comps fields :
  Forall2 (fun c f => fst f = name c /\ Q c f) comps fields ->
  map fst fields = map name comps.
Proof. induction 1 as [|c f comps fields [Hn _] _ IH]; simpl; [done | by rewrite Hn, IH]. Qed.

(** The loop of [parseTokensObject] and of the tuple branch rebuilds the
    fields in the order of the components. *)
Lemma forEachAssign_fields token comps fields : forall acc,
  NoDup (map fst acc ++ map name comps) ->
  Forall (fun c => arrayIndex (name c) = None) comps ->
  "__proto__" ∉ map name comps ->
  Forall2 (fun c f => fst f = name c /\
                      exists raw, getProperty token (name c) = Ok raw /\
                                  parseTokenValue c raw = Ok (snd f)) comps fields ->
  forEachAssign
    (fun result component =>
       raw <- getProperty token (name component) ;;
       v <- parseTokenValue component raw ;;
       Ok (setProperty result (name component) v))
    comps acc = Ok (acc ++ fields).
Proof.
  intros acc Hnd Hplain Hproto Hall. revert acc Hnd Hplain Hproto.
  induction Hall as [|c [k v] comps fields (Hk & raw & Hraw & Hv) _ IH];
    intros acc Hnd Hplain Hproto; simpl.
  - by rewrite app_nil_r.
  - simpl in Hk, Hv. subst k. rewrite Hraw. simpl. rewrite Hv. simpl.
    apply Forall_cons in Hplain as [Hc Hplain].
    simpl in Hproto. apply not_elem_of_cons in Hproto as [Hproto Hprotos].
    apply NoDup_app in Hnd as (Hnd1 & Hdisj & Hnd2).
    apply NoDup_cons in Hnd2 as [Hc2 Hnd2].
    assert (Hnew : name c ∉ map fst acc).
    { intros Hin. apply (Hdisj _ Hin). by left. }
    rewrite setProperty_new_plain by done.
    rewrite IH; [by rewrite <- app_assoc | | done | done].
    rewrite map_app. simpl. apply NoDup_app. split; [|split; [|done]].
    + apply NoDup_app. split; [done|]. split; [|apply NoDup_singleton].
      intros k' Hk' ->%list_elem_of_singleton. done.
    + intros k' [Hk'| ->%list_elem_of_singleton]%elem_of_app Hin.
      * apply (Hdisj _ Hk'). by right.
      * done.
Qed.

Lemma serializeTokenValue_fields {Q : AbiParam -> string * TokenValue -> Prop}
    comps fields :
  NoDup (map name comps) ->
  Forall (fun c => arrayIndex (name c) = None) comps ->
  "__proto__" ∉ map name comps ->
  Forall2 (fun c f => fst f = name c /\ Q c f) comps fields ->
  serializeTokenValue (VObject fields) =
    VObject (map (fun f => (fst f, serializeTokenValue (snd f))) fields).
Proof.
  intros Hnd Hplain Hproto Hall. rewrite serializeTokenValue_object.
  pose proof (field_names _ _ Hall) as Hnames.
  rewrite assignments_plain;
    [done | simpl; by rewrite Hnames | | by rewrite Hnames].
  clear Hnd Hnames Hproto.
  induction Hall as [|c f comps fields [Hn _] _ IH]; [constructor|].
  apply Forall_cons in Hplain as [Hc Hplain]. constructor; [by rewrite Hn | by apply IH].
Qed.

Lemma stored_fields comps fields : forall pre,
  NoDup (map fst (pre ++ fields)) ->
  Forall2 (fun c f => fst f = name c /\
                      parseTokenValue c (serializeTokenValue (snd f)) = Ok (snd f))
          comps fields ->
  Forall2 (fun c f => fst f = name c /\
             exists raw,
               getProperty
                 (VObject (map (fun f : string * TokenValue =>
                                  (fst f, serializeTokenValue (snd f))) (pre ++ fields)))
                 (name c) = Ok raw /\
               parseTokenValue c raw = Ok (snd f))
          comps fields.
Proof.
  intros pre Hnd Hall. revert pre Hnd.
  induction Hall as [|c f comps fields [Hn Hv] _ IH]; intros pre Hnd; constructor.
  - split; [done|]. exists (serializeTokenValue (snd f)). split; [|done]. simpl.
    rewrite (getOwn_present _ (name c) (serializeTokenValue (snd f))); [done | |].
    + by rewrite map_map.
    + apply list_elem_of_fmap. exists f. split; [by rewrite Hn|].
      apply elem_of_app. right. by left.
  - replace (pre ++ f :: fields) with ((pre ++ [f]) ++ fields)
      by (by rewrite <- app_assoc).
    apply IH. by rewrite <- app_assoc.
Qed.

(** Reading the fields back from a serialized object. *)
Lemma serialized_fields_parse comps fields :
  NoDup (map name comps) ->
  Forall (fun c => arrayIndex (name c) = None) comps ->
  "__proto__" ∉ map name comps ->
  Forall2 (fun c f => fst f = name c /\
                      parseTokenValue c (serializeTokenValue (snd f)) = Ok (snd f))
          comps fields ->
  forEachAssign
    (fun result component =>
       raw <- getProperty (serializeTokenValue (VObject fields)) (name component) ;;
       v <- parseTokenValue component raw ;;
       Ok (setProperty result (name component) v))
    comps [] = Ok fields.
Proof.
  intros Hnd Hplain Hproto Hall.
  rewrite (serializeTokenValue_fields _ _ Hnd Hplain Hproto Hall).
  apply (forEachAssign_fields _ comps fields []); [done | done | done |].
  apply (stored_fields comps fields []); [|done].
  simpl. by rewrite (field_names _ _ Hall).
Qed.

Lemma primitive_serialized v : primitive v = true -> serializeTokenValue v = v.
Proof. by destruct v. Qed.

Lemma typed_round_trip n : forall p v,
  paramSize p <= n -> typed p v ->
  parseTokenValue p (serializeTokenValue v) = Ok v.
Proof.
  induction n as [|n IH]; intros p v Hsize Htyped.
  { destruct (paramSize_positive p) as [m Hm]. lia. }
  destruct Htyped as [p v Hs Hp|p a Ha|p k items Ht Hk Hitems
                     |p comps fields Ht Hc Hnd Hplain Hproto Hfields|p Ht Hc
                     |p k w entries Ht Hk Hw Hentries].
  - rewrite primitive_serialized by done. by apply parseTokenValue_scalar.
  - simpl. by apply parseTokenValue_address.
  - rewrite parseTokenValue_array;
      [|rewrite Ht; by apply startsWith_map_brackets|rewrite Ht; apply endsWith_app].
    replace (sliceEnd (type p) 2) with k
      by (rewrite Ht; symmetry; apply (sliceEnd_app k "[]")).
    simpl. rewrite forEachPush_map_ok; [done|].
    eapply Forall_impl; [exact Hitems|]. intros x Hx. apply IH; [|done].
    destruct p as [pn pt pc]. cbn [name type components] in *. subst pt.
    rewrite !paramSize_eq in *. rewrite length_string_app in Hsize. simpl in Hsize. lia.
  - rewrite (parseTokenValue_tuple _ _ comps) by done.
    rewrite serialized_fields_parse; [done | done | done | done |].
    assert (Hsmall : Forall (fun c => paramSize c <= n) comps).
    { apply Forall_forall. intros c Hin.
      pose proof (paramSize_component _ _ Hin) as Hle.
      destruct p as [pn pt pc]. cbn [name type components] in *. subst pt pc.
      rewrite paramSize_eq in Hsize. lia. }
    clear -IH Hfields Hsmall.
    induction Hfields as [|c f comps fields [Hn Hv] _ IHf]; [constructor|].
    apply Forall_cons in Hsmall as [Hc Hsmall].
    constructor; [split; [done | by apply IH] | by apply IHf].
  - simpl. by apply parseTokenValue_tuple_empty.
  - rewrite (parseTokenValue_map _ _ k w) by done.
    simpl. rewrite forEachPush_map_ok; [done|].
    eapply Forall_impl; [exact Hentries|].
    intros entry (key & value & -> & Hkey & Hvalue). simpl.
    destruct p as [pn pt pc]. cbn [name type components] in *. subst pt.
    rewrite paramSize_eq in Hsize. rewrite !length_string_app in Hsize.
    cbn [String.length] in Hsize.
    rewrite (IH _ key); [|rewrite paramSize_eq; lia|done].
    simpl.
    rewrite (IH _ value); [|rewrite paramSize_eq; lia|done].
    done.
Qed.

(** X26: parsing the serialization of a value of the relation [typed]
    gives the value back: addresses are wrapped again, arrays, tuples and
    maps are rebuilt item by item.  The relation holds the values for which
    this is so: inside a map a tuple has no field, there is no array of
    maps and no map of maps, and no component is named by an array index or
    [__proto__]. *)
Theorem parseTokenValue_serializeTokenValue p v :
  typed p v -> parseTokenValue p (serializeTokenValue v) = Ok v.
Proof. intros Htyped. by apply (typed_round_trip (paramSize p)). Qed.

Lemma parseTokenValue_serializeTokenValue_witness :
  parseTokenValue
    {| name := "transfer"; type := "tuple";
       components :=
         Some [ {| name := "to"; type := "address"; components := None |};
                {| name := "amounts"; type := "uint128[]"; components := None |} ] |}
    (serializeTokenValue
       (VObject [("to", VAddress (VString "0:aa"));
                 ("amounts", VArray [VString "1"; VNumber 2])]))
  = Ok (VObject [("to", VAddress (VString "0:aa"));
                 ("amounts", VArray [VString "1"; VNumber 2])]).
Proof.
  apply (parseTokenValue_serializeTokenValue
           {| name := "transfer"; type := "tuple";
              components :=
                Some [ {| name := "to"; type := "address"; components := None |};
                       {| name := "amounts"; type := "uint128[]";
                          components := None |} ] |}).
  eapply typed_tuple; [reflexivity | reflexivity | | | |].
  - apply (bool_decide_unpack _). reflexivity.
  - repeat constructor.
  - intros H%list_elem_of_In. simpl in H. intuition discriminate.
  - apply Forall2_cons_2; [split; [reflexivity | by apply typed_address]|].
    apply Forall2_cons_2; [|constructor].
    split; [reflexivity|].
    apply (typed_array _ "uint128"); [reflexivity | reflexivity |].
    apply Forall_cons_2; [by apply typed_scalar|].
    apply Forall_cons_2; [by apply typed_scalar | constructor].
Defined.

(** X27: [parseTokensObject] undoes [serializeTokensObject] on an object
    that has one field per parameter, in the order of the parameters, each
    a value of the relation [typed] for its parameter, when the names of
    the parameters are pairwise distinct, none an array index and none
    [__proto__]. *)
Theorem parseTokensObject_serializeTokensObject params object :
  typedObject params object ->
  parseTokensObject params (serializeTokensObject object) = Ok object.
Proof.
  intros (fields & -> & Hnd & Hplain & Hproto & Hfields).
  unfold parseTokensObject, serializeTokensObject.
  rewrite serialized_fields_parse; [done | done | done | done |].
  eapply Forall2_impl; [exact Hfields|].
  intros c f [Hn Htyped]. split; [done|].
  by apply (typed_round_trip (paramSize c)).
Qed.

Lemma parseTokensObject_serializeTokensObject_witness :
  parseTokensObject
    [ {| name := "to"; type := "address"; components := None |};
      {| name := "balances"; type := "map(address,uint128)"; components := None |} ]
    (serializeTokensObject
       (VObject [("to", VAddress (VString "0:aa"));
                 ("balances",
                  VArray [VArray [VAddress (VString "0:bb"); VString "7"]])]))
  = Ok (VObject [("to", VAddress (VString "0:aa"));
                 ("balances",
                  VArray [VArray [VAddress (VString "0:bb"); VString "7"]])]).
Proof.
  apply (parseTokensObject_serializeTokensObject
           [ {| name := "to"; type := "address"; components := None |};
             {| name := "balances"; type := "map(address,uint128)";
                components := None |} ]).
  eexists. split; [reflexivity|]. split; [|split; [|split]].
  - apply (bool_decide_unpack _). reflexivity.
  - repeat constructor.
  - intros H%list_elem_of_In. simpl in H. intuition discriminate.
  - apply Forall2_cons_2; [split; [reflexivity | by apply typed_address]|].
    apply Forall2_cons_2; [|constructor].
    split; [reflexivity|].
    apply (typed_map _ "address" "uint128"); [reflexivity | reflexivity | reflexivity |].
    apply Forall_cons_2; [|constructor].
    eexists _, _. split; [reflexivity|]. split.
    + by apply typed_address.
    + by apply typed_scalar.
Defined.

(** X28: a map whose value type is itself a map cannot be parsed unless it
    is empty: the type string is split at every comma, so the value type is
    cut to [map(K], and parsing a value of that type throws. *)
Theorem parseTokenValue_map_of_maps p token k k2 rest :
  type p = ("map(" ++ k ++ ",map(" ++ k2 ++ "," ++ rest)%string ->
  noComma k = true -> noComma k2 = true ->
  parseTokenValue p token =
    (entries <- iterate token ;;
     match entries with
     | [] => Ok (VArray [])
     | _ :: _ => TypeError
     end).
Proof.
  intros Htype Hk Hk2.
  assert (Hsplit : split "," (type p) !! 1 = Some ("map(" ++ k2)%string).
  { rewrite Htype.
    change ("map(" ++ k ++ ",map(" ++ k2 ++ "," ++ rest)%string
      with (("map(" ++ k) ++ "," ++ ("map(" ++ k2) ++ "," ++ rest)%string.
    rewrite split_comma by done. by rewrite split_comma. }
  rewrite parseTokenValue_map_parts by by rewrite Htype.
  rewrite Hsplit.
  destruct (iterate token) as [entries| |] eqn:Hentries; simpl; try done.
  rewrite forEachPush_failing; [by destruct entries|].
  intros entry.
  assert (Hvalue : forall token',
            parseTokenValue
              {| name := ""; type := sliceEnd ("map(" ++ k2) 1; components := None |}
              token' = TypeError).
  { intros token'. apply parseTokenValue_map_without_comma.
    - cbn [type]. unfold sliceEnd. simpl. by destruct k2.
    - cbn [type]. unfold sliceEnd. by apply noComma_sliceTo. }
  destruct entry as [|b|n|s|a|pair|fields]; simpl; try done.
  - match goal with
    | |- context [parseTokenValue ?q ?x] =>
        pose proof (parseTokenValue_total q x) as Htotal;
        destruct (parseTokenValue q x) as [key| |]; simpl;
          [by rewrite Hvalue|done|by destruct Htotal]
    end.
  - match goal with
    | |- context [parseTokenValue ?q ?x] =>
        pose proof (parseTokenValue_total q x) as Htotal;
        destruct (parseTokenValue q x) as [key| |]; simpl;
          [by rewrite Hvalue|done|by destruct Htotal]
    end.
Qed.

Lemma parseTokenValue_map_of_maps_witness :
  parseTokenValue
    {| name := "m"; type := "map(uint8,map(uint8,uint8))"; components := None |}
    (VArray [VArray [VString "1"; VArray []]])
  = TypeError.
Proof.
  exact (parseTokenValue_map_of_maps
           {| name := "m"; type := "map(uint8,map(uint8,uint8))"; components := None |}
           (VArray [VArray [VString "1"; VArray []]])
           "uint8" "uint8" "uint8))" eq_refl eq_refl eq_refl).
Defined.

End CodecRoundTrip.
